(** * The libevent binding of guile-fibers ([extensions/libevent.c])

    A shallow embedding of the six primitives the binding exports
    ([primitive-event-wake], [primitive-create-event-base],
    [primitive-add-event], [primitive-remove-event], [primitive-resize],
    [primitive-event-loop]), of the collector callback [cb_func] and of
    [run_event_loop], over an explicit world: the C heap objects the
    binding allocates, the registrations held by the reactor, the
    descriptors it reads and writes, and the trace of calls it makes
    into libguile and libevent. *)

From stdpp Require Import base numbers option list gmap strings.

Local Open Scope Z_scope.

(** ** Machine integers *)

Definition INT_MAX : Z := 2 ^ 31 - 1.

(** Two's-complement reading of the low [bits] bits of [z]. *)
Definition wrap_signed (bits z : Z) : Z :=
  (z + 2 ^ (bits - 1)) `mod` 2 ^ bits - 2 ^ (bits - 1).

Definition to_short (z : Z) : Z := wrap_signed 16 z.
Definition to_int (z : Z) : Z := wrap_signed 32 z.
Definition to_int64 (z : Z) : Z := wrap_signed 64 z.
Definition to_uint64 (z : Z) : Z := z `mod` 2 ^ 64.

Definition in_signed (bits z : Z) : bool :=
  (- 2 ^ (bits - 1) <=? z) && (z <? 2 ^ (bits - 1)).

(** ** Data *)

(** Addresses of heap objects; [NULL] is address zero. *)
Definition ptr := N.
Definition NULL : ptr := 0%N.

(** [struct event_data { int fd; short event; }] *)
Record event_data := mk_event_data { ev_fd : Z; ev_event : Z }.

(** [sizeof (struct event_data)]: a 4-byte [int], a 2-byte [short] and
    two bytes of padding. *)
Definition sizeof_event_data : Z := 8.

(** [struct wait_data { int rv; struct event_data *events; int maxevents; }] *)
Record wait_data := mk_wait_data {
  wd_rv : Z;
  wd_events : ptr;
  wd_maxevents : Z
}.

(** [struct loop_data { struct event_base *base; int64_t timeout; }] *)
Record loop_data := mk_loop_data { ld_base : ptr; ld_timeout : Z }.

(** [struct libevt_data { struct event_base *base; }] *)
Record libevt_data := mk_libevt_data { le_base : ptr }.

(** The Scheme value the primitives call [lst]: the two-element list
    built by [primitive-create-event-base], holding the address of the
    [libevt_data] and the address of the [wait_data]. *)
Record handle := mk_handle { h_libevt : ptr; h_data : ptr }.

(** A Scheme bytevector: [SCM_BYTEVECTOR_CONTENTS] and
    [SCM_BYTEVECTOR_LENGTH] (in bytes). *)
Record bytevector := mk_bytevector { bv_contents : ptr; bv_length : Z }.

(** The callbacks a registration can carry; the binding has one. *)
Inductive callback := Cb_func.

(** libevent's [struct event], as far as [event_new], [event_add] and
    [event_del] fix it. *)
Record registration := mk_registration {
  reg_base : ptr;
  reg_fd : Z;
  reg_events : Z;
  reg_cb : callback;
  reg_arg : ptr;
  reg_pending : bool
}.

(** Flags of [event2/event.h]. *)
Definition EV_TIMEOUT : Z := 1.
Definition EV_READ : Z := 2.
Definition EV_WRITE : Z := 4.
Definition EV_SIGNAL : Z := 8.
Definition EV_PERSIST : Z := 16.
Definition EV_CLOSED : Z := 128.

(** A registration re-arms after it fires exactly when its mask has
    [EV_PERSIST]. *)
Definition reg_persistent (r : registration) : bool :=
  Z.testbit (reg_events r) 4.

Inductive errno := EAGAIN | EWOULDBLOCK | EBADF | EPIPE | EINTR | EIO.

Global Instance errno_eq_dec : EqDecision errno.
Proof. solve_decision. Defined.

(** A descriptor: either usable, with [pending] bytes to read, [room]
    bytes that can still be written and the [O_NONBLOCK] flag, or one
    on which every transfer fails with a fixed [errno]. *)
Inductive fd_state :=
| FdOpen (pending room : N) (nonblock : bool)
| FdBroken (e : errno).

(** Calls that leave the binding, in the order they are made. *)
Inductive effect :=
| E_write (fd ret : Z)
| E_read (fd ret : Z)
| E_prepare_to_wait_on_fd (fd : Z) (interrupted : bool)
| E_without_guile_begin
| E_without_guile_end
| E_wait_finished
| E_loopexit (base : ptr) (tv_sec tv_usec : Z)
| E_loop (base : ptr)
| E_callback (fd what : Z) (arg : ptr).

Global Instance effect_eq_dec : EqDecision effect.
Proof. solve_decision. Defined.

(** Errors raised into the Scheme runtime. *)
Inductive scm_error :=
| MiscError (subr msg : string) (args : list Z)
| SysError (subr : string) (e : errno)
| WrongTypeArg (subr : string) (pos : Z) (msg : string)
| OutOfRange (v : Z).

Record world := mk_world {
  (* libguile's [scm_c_time_units_per_second] *)
  scm_c_time_units_per_second : Z;
  (* the two file-level statics of the binding *)
  time_units_per_microsec : Z;
  microsec_per_time_units : Z;
  (* objects obtained from [scm_gc_malloc] *)
  w_wait : gmap ptr wait_data;
  w_libevt : gmap ptr libevt_data;
  (* bytevector contents, viewed as arrays of records *)
  w_bufs : gmap ptr (list event_data);
  (* the reactor's registrations, by address of the [struct event] *)
  w_regs : gmap ptr registration;
  w_fds : gmap Z fd_state;
  w_errno : errno;
  (* next address the allocators hand out *)
  w_next : ptr;
  (* integer variables bound by [scm_c_define] *)
  w_defs : gmap string Z;
  w_trace : list effect
}.

Definition set_factors (tu mu : Z) (w : world) : world :=
  mk_world (scm_c_time_units_per_second w) tu mu
           (w_wait w) (w_libevt w) (w_bufs w) (w_regs w) (w_fds w)
           (w_errno w) (w_next w) (w_defs w) (w_trace w).

Definition set_wait (m : gmap ptr wait_data) (w : world) : world :=
  mk_world (scm_c_time_units_per_second w) (time_units_per_microsec w)
           (microsec_per_time_units w)
           m (w_libevt w) (w_bufs w) (w_regs w) (w_fds w)
           (w_errno w) (w_next w) (w_defs w) (w_trace w).

Definition set_libevt (m : gmap ptr libevt_data) (w : world) : world :=
  mk_world (scm_c_time_units_per_second w) (time_units_per_microsec w)
           (microsec_per_time_units w)
           (w_wait w) m (w_bufs w) (w_regs w) (w_fds w)
           (w_errno w) (w_next w) (w_defs w) (w_trace w).

Definition set_bufs (m : gmap ptr (list event_data)) (w : world) : world :=
  mk_world (scm_c_time_units_per_second w) (time_units_per_microsec w)
           (microsec_per_time_units w)
           (w_wait w) (w_libevt w) m (w_regs w) (w_fds w)
           (w_errno w) (w_next w) (w_defs w) (w_trace w).

Definition set_regs (m : gmap ptr registration) (w : world) : world :=
  mk_world (scm_c_time_units_per_second w) (time_units_per_microsec w)
           (microsec_per_time_units w)
           (w_wait w) (w_libevt w) (w_bufs w) m (w_fds w)
           (w_errno w) (w_next w) (w_defs w) (w_trace w).

Definition set_fds (m : gmap Z fd_state) (w : world) : world :=
  mk_world (scm_c_time_units_per_second w) (time_units_per_microsec w)
           (microsec_per_time_units w)
           (w_wait w) (w_libevt w) (w_bufs w) (w_regs w) m
           (w_errno w) (w_next w) (w_defs w) (w_trace w).

Definition set_errno (e : errno) (w : world) : world :=
  mk_world (scm_c_time_units_per_second w) (time_units_per_microsec w)
           (microsec_per_time_units w)
           (w_wait w) (w_libevt w) (w_bufs w) (w_regs w) (w_fds w)
           e (w_next w) (w_defs w) (w_trace w).

Definition set_next (p : ptr) (w : world) : world :=
  mk_world (scm_c_time_units_per_second w) (time_units_per_microsec w)
           (microsec_per_time_units w)
           (w_wait w) (w_libevt w) (w_bufs w) (w_regs w) (w_fds w)
           (w_errno w) p (w_defs w) (w_trace w).

Definition set_defs (m : gmap string Z) (w : world) : world :=
  mk_world (scm_c_time_units_per_second w) (time_units_per_microsec w)
           (microsec_per_time_units w)
           (w_wait w) (w_libevt w) (w_bufs w) (w_regs w) (w_fds w)
           (w_errno w) (w_next w) m (w_trace w).

Definition set_trace (t : list effect) (w : world) : world :=
  mk_world (scm_c_time_units_per_second w) (time_units_per_microsec w)
           (microsec_per_time_units w)
           (w_wait w) (w_libevt w) (w_bufs w) (w_regs w) (w_fds w)
           (w_errno w) (w_next w) (w_defs w) t.

(** ** The monad of the embedding

    A computation runs on a world and ends in one of four ways: it
    returns, it raises a Scheme error (a non-local exit that keeps every
    store already made), it leaves the C abstract machine (a load or
    store outside an object), or it never returns (a blocking transfer
    on a descriptor that stays empty or full). *)

Inductive result (A : Type) : Type :=
| Ok (a : A)
| Throw (e : scm_error)
| Fault
| Hang.
Arguments Ok {A} a.
Arguments Throw {A} e.
Arguments Fault {A}.
Arguments Hang {A}.

Definition M (A : Type) : Type := world → result A * world.

Definition ret {A} (a : A) : M A := λ w, (Ok a, w).

Definition bind {A B} (m : M A) (k : A → M B) : M B := λ w,
  match m w with
  | (Ok a, w') => k a w'
  | (Throw e, w') => (Throw e, w')
  | (Fault, w') => (Fault, w')
  | (Hang, w') => (Hang, w')
  end.

Declare Scope m_scope.
Delimit Scope m_scope with m.
Notation "'let*' x := m 'in' k" := (bind m (λ x, k))
  (at level 10, x name, m at level 100, k at level 200) : m_scope.
Notation "m1 >> m2" := (bind m1 (λ _, m2))
  (at level 100, m2 at level 200, right associativity) : m_scope.
Local Open Scope m_scope.

Definition throw {A} (e : scm_error) : M A := λ w, (Throw e, w).
Definition fault {A} : M A := λ w, (Fault, w).
Definition hang {A} : M A := λ w, (Hang, w).
Definition get : M world := λ w, (Ok w, w).
Definition modify (f : world → world) : M unit := λ w, (Ok tt, f w).
Definition log (e : effect) : M unit :=
  modify (λ w, set_trace (w_trace w ++ [e]) w).

(** [SCM_MISC_ERROR (msg, args)] under [FUNC_NAME] = [subr]. *)
Definition SCM_MISC_ERROR {A} (subr msg : string) (args : list Z) : M A :=
  throw (MiscError subr msg args).

(** ** Conversions from Scheme integers *)

Definition scm_to_int (z : Z) : M Z :=
  if in_signed 32 z then ret z else throw (OutOfRange z).
Definition scm_to_short (z : Z) : M Z :=
  if in_signed 16 z then ret z else throw (OutOfRange z).
Definition scm_to_int64 (z : Z) : M Z :=
  if in_signed 64 z then ret z else throw (OutOfRange z).

(** ** Loads and stores *)

(** [*p] for [p : struct wait_data *]. *)
Definition load_wait (p : ptr) : M wait_data := λ w,
  match w_wait w !! p with
  | Some d => (Ok d, w)
  | None => (Fault, w)
  end.

Definition store_wait (p : ptr) (d : wait_data) : M unit := λ w,
  match w_wait w !! p with
  | Some _ => (Ok tt, set_wait (<[p := d]> (w_wait w)) w)
  | None => (Fault, w)
  end.

Definition load_libevt (p : ptr) : M libevt_data := λ w,
  match w_libevt w !! p with
  | Some l => (Ok l, w)
  | None => (Fault, w)
  end.

(** [events[i]] *)
Definition load_event (events : ptr) (i : Z) : M event_data := λ w,
  match w_bufs w !! events with
  | Some buf =>
      if (0 <=? i) then
        match buf !! Z.to_nat i with
        | Some e => (Ok e, w)
        | None => (Fault, w)
        end
      else (Fault, w)
  | None => (Fault, w)
  end.

(** [memcpy (events + i, &e, sizeof (struct event_data))] *)
Definition store_event (events : ptr) (i : Z) (e : event_data) : M unit :=
  λ w,
  match w_bufs w !! events with
  | Some buf =>
      if (0 <=? i) && (i <? Z.of_nat (length buf)) then
        (Ok tt, set_bufs (<[events := <[Z.to_nat i := e]> buf]> (w_bufs w)) w)
      else (Fault, w)
  | None => (Fault, w)
  end.

(** [data->rv = v], [data->events = v], [data->maxevents = v] *)
Definition assign_rv (data : ptr) (v : Z) : M unit :=
  let* d := load_wait data in
  store_wait data (mk_wait_data v (wd_events d) (wd_maxevents d)).

Definition assign_events (data : ptr) (v : ptr) : M unit :=
  let* d := load_wait data in
  store_wait data (mk_wait_data (wd_rv d) v (wd_maxevents d)).

Definition assign_maxevents (data : ptr) (v : Z) : M unit :=
  let* d := load_wait data in
  store_wait data (mk_wait_data (wd_rv d) (wd_events d) v).

(** ** [cb_func] *)

Definition cb_func (fd what : Z) (arg : ptr) : M unit :=
  let* data := load_wait arg in
  let rv := wd_rv data in
  if wd_maxevents data <=? rv then
    SCM_MISC_ERROR "primitive-event-loop" "max events fired on fd(~A)" [fd]
  else
    let ev_data := mk_event_data fd what in
    store_event (wd_events data) rv ev_data >>
    let* d := load_wait arg in
    assign_rv arg (to_int (wd_rv d + 1)).

(** ** Descriptors: [write] and [read] *)

(** [write (fd, &zero, 1)] *)
Definition sys_write (fd : Z) : M Z := λ w,
  match w_fds w !! fd with
  | None => (Ok (-1), set_trace (w_trace w ++ [E_write fd (-1)])
                               (set_errno EBADF w))
  | Some (FdBroken e) =>
      (Ok (-1), set_trace (w_trace w ++ [E_write fd (-1)]) (set_errno e w))
  | Some (FdOpen pending room nonblock) =>
      if (room =? 0)%N then
        if nonblock then
          (Ok (-1), set_trace (w_trace w ++ [E_write fd (-1)])
                              (set_errno EAGAIN w))
        else (Hang, w)
      else
        (Ok 1, set_trace (w_trace w ++ [E_write fd 1])
                 (set_fds (<[fd := FdOpen pending (room - 1) nonblock]>
                             (w_fds w)) w))
  end.

(** [read (fd, zeroes, count)] *)
Definition sys_read (fd : Z) (count : N) : M Z := λ w,
  match w_fds w !! fd with
  | None => (Ok (-1), set_trace (w_trace w ++ [E_read fd (-1)])
                               (set_errno EBADF w))
  | Some (FdBroken e) =>
      (Ok (-1), set_trace (w_trace w ++ [E_read fd (-1)]) (set_errno e w))
  | Some (FdOpen pending room nonblock) =>
      if (pending =? 0)%N then
        if nonblock then
          (Ok (-1), set_trace (w_trace w ++ [E_read fd (-1)])
                              (set_errno EAGAIN w))
        else (Hang, w)
      else
        let n := N.min pending count in
        (Ok (Z.of_N n),
         set_trace (w_trace w ++ [E_read fd (Z.of_N n)])
           (set_fds (<[fd := FdOpen (pending - n) room nonblock]> (w_fds w))
                    w))
  end.

(** ** [primitive-event-wake] *)

Definition scm_primitive_event_wake (wakefd : Z) : M unit :=
  let* c_fd := scm_to_int wakefd in
  let* n := sys_write c_fd in
  let* w := get in
  if (n <=? 0) && negb (bool_decide (w_errno w = EWOULDBLOCK))
               && negb (bool_decide (w_errno w = EAGAIN))
  then throw (SysError "primitive-event-wake" (w_errno w))
  else ret tt.

(** ** Allocation *)

Definition alloc : M ptr := λ w,
  (Ok (w_next w), set_next (w_next w + 1)%N w).

(** [event_base_new ()]; [ok] tells whether libevent can allocate. *)
Definition event_base_new (ok : bool) : M ptr :=
  if ok then alloc else ret NULL.

(** [scm_gc_malloc (sizeof (struct libevt_data), ...)]: zeroed storage. *)
Definition scm_gc_malloc_libevt : M ptr :=
  let* p := alloc in
  modify (λ w, set_libevt (<[p := mk_libevt_data NULL]> (w_libevt w)) w) >>
  ret p.

(** [scm_gc_malloc (sizeof (struct wait_data), ...)]: zeroed storage. *)
Definition scm_gc_malloc_wait : M ptr :=
  let* p := alloc in
  modify (λ w, set_wait (<[p := mk_wait_data 0 NULL 0]> (w_wait w)) w) >>
  ret p.

Definition store_libevt (p : ptr) (l : libevt_data) : M unit := λ w,
  match w_libevt w !! p with
  | Some _ => (Ok tt, set_libevt (<[p := l]> (w_libevt w)) w)
  | None => (Fault, w)
  end.

(** [SCM_BYTEVECTOR_LENGTH (eventsv) / sizeof (struct event_data)],
    stored into an [int]. *)
Definition capacity_of (eventsv : bytevector) : Z :=
  to_int (bv_length eventsv `div` sizeof_event_data).

(** ** [primitive-create-event-base] *)

Definition scm_primitive_create_event_base
    (base_new_ok : bool) (eventsv : bytevector) : M handle :=
  let* base := event_base_new base_new_ok in
  if (base =? NULL)%N then
    SCM_MISC_ERROR "primitive-create-event-base"
                   "couldn't allocate event_base" []
  else
    let* libevt := scm_gc_malloc_libevt in
    store_libevt libevt (mk_libevt_data base) >>
    let* data := scm_gc_malloc_wait in
    assign_rv data 0 >>
    assign_events data (bv_contents eventsv) >>
    assign_maxevents data (capacity_of eventsv) >>
    ret (mk_handle libevt data).

(** ** The reactor: [event_new], [event_add], [event_del] *)

Definition event_new (ok : bool) (base : ptr) (fd events : Z)
    (cb : callback) (arg : ptr) : M ptr :=
  if ok then
    let* p := alloc in
    modify (λ w, set_regs
                   (<[p := mk_registration base fd events cb arg false]>
                      (w_regs w)) w) >>
    ret p
  else ret NULL.

Definition set_pending (b : bool) (r : registration) : registration :=
  mk_registration (reg_base r) (reg_fd r) (reg_events r) (reg_cb r)
                  (reg_arg r) b.

(** [event_add (ev, NULL)] *)
Definition event_add (ok : bool) (ev : ptr) : M Z := λ w,
  match w_regs w !! ev with
  | Some r =>
      if ok then (Ok 0, set_regs (<[ev := set_pending true r]> (w_regs w)) w)
      else (Ok (-1), w)
  | None => (Fault, w)
  end.

Definition event_del (ok : bool) (ev : ptr) : M Z := λ w,
  match w_regs w !! ev with
  | Some r =>
      if ok then (Ok 0, set_regs (<[ev := set_pending false r]> (w_regs w)) w)
      else (Ok (-1), w)
  | None => (Fault, w)
  end.

(** ** [primitive-add-event] *)

Definition scm_primitive_add_event (event_new_ok event_add_ok : bool)
    (lst : handle) (fd ev : Z) : M ptr :=
  let* c_fd := scm_to_int fd in
  let* c_ev := scm_to_short ev in
  let libevt := h_libevt lst in
  let data := h_data lst in
  let* l := load_libevt libevt in
  let* event := event_new event_new_ok (le_base l) c_fd c_ev Cb_func data in
  if (event =? NULL)%N then
    SCM_MISC_ERROR "primitive-add-event" "couldn't allocate event" []
  else
    let* ret_ := event_add event_add_ok event in
    if ret_ =? -1 then
      SCM_MISC_ERROR "primitive-add-event" "failed to add event" []
    else ret event.

(** ** [primitive-remove-event] *)

Definition scm_primitive_remove_event (event_del_ok : bool)
    (lst : handle) (scm_event : ptr) : M unit :=
  let event := scm_event in
  let* ret_ := event_del event_del_ok event in
  if ret_ =? -1 then
    SCM_MISC_ERROR "primitive-remove-event" "failed to delete event" []
  else ret tt.

(** ** [primitive-resize] *)

Definition scm_primitive_resize (lst : handle) (eventsv : bytevector)
    : M unit :=
  let data := h_data lst in
  assign_events data (bv_contents eventsv) >>
  assign_maxevents data (capacity_of eventsv) >>
  ret tt.

(** ** The wait: [event_base_loopexit], [event_base_loop] *)

(** What the surroundings answer during one [primitive-event-loop]:
    whether [scm_c_prepare_to_wait_on_fd] finds an interrupt pending,
    whether [event_base_loopexit] and [event_base_loop] succeed, and the
    registrations the multiplexer reports ready, each with the
    conditions that hold, in the order it reports them. *)
Record loop_env := mk_loop_env {
  prepare_interrupted : bool;
  loopexit_ok : bool;
  loop_ok : bool;
  ready : list (ptr * Z)
}.

Definition event_base_loopexit (env : loop_env) (base : ptr)
    (tv_sec tv_usec : Z) : M Z :=
  log (E_loopexit base tv_sec tv_usec) >>
  ret (if loopexit_ok env then 0 else -1).

(** A registration that fires stays pending only if it is persistent. *)
Definition disarm (regs : gmap ptr registration) (e : ptr)
    (reg : registration) : gmap ptr registration :=
  if reg_persistent reg then regs else <[e := set_pending false reg]> regs.

Definition run_callback (cb : callback) (fd what : Z) (arg : ptr) : M unit :=
  match cb with
  | Cb_func => cb_func fd what arg
  end.

(** One ready registration: it runs its callback when it is pending on
    this base, and stops being pending unless it is persistent. *)
Definition activate (base : ptr) (r : ptr * Z) : M unit :=
  let* w := get in
  match w_regs w !! r.1 with
  | Some reg =>
      if reg_pending reg && (reg_base reg =? base)%N then
        modify (λ w, set_regs (disarm (w_regs w) r.1 reg) w) >>
        log (E_callback (reg_fd reg) (to_short r.2) (reg_arg reg)) >>
        run_callback (reg_cb reg) (reg_fd reg) (to_short r.2) (reg_arg reg)
      else ret tt
  | None => ret tt
  end.

Fixpoint process_active (base : ptr) (rs : list (ptr * Z)) : M unit :=
  match rs with
  | [] => ret tt
  | r :: rs' => activate base r >> process_active base rs'
  end.

(** [event_base_loop (base, EVLOOP_ONCE)] *)
Definition event_base_loop (env : loop_env) (base : ptr) : M Z :=
  log (E_loop base) >>
  if loop_ok env then process_active base (ready env) >> ret 0
  else ret (-1).

(** ** [run_event_loop] *)

(** The [struct timeval] computed from a timeout that is not negative;
    [time_t] and [suseconds_t] are 64-bit. *)
Definition tv_sec_of (w : world) (timeout : Z) : Z :=
  to_int64 (timeout `quot` scm_c_time_units_per_second w).

Definition tv_usec_of (w : world) (timeout : Z) : Z :=
  to_int64
    (if 0 <? time_units_per_microsec w then
       to_uint64 (timeout `rem` scm_c_time_units_per_second w)
         `div` time_units_per_microsec w
     else
       to_uint64 (to_uint64 (timeout `rem` scm_c_time_units_per_second w)
                  * microsec_per_time_units w)).

Definition run_event_loop (env : loop_env) (p : loop_data) : M unit :=
  (if 0 <=? ld_timeout p then
     let* w := get in
     if scm_c_time_units_per_second w =? 0 then fault
     else
       let tv_sec := tv_sec_of w (ld_timeout p) in
       let tv_usec := tv_usec_of w (ld_timeout p) in
       let* ret_ := event_base_loopexit env (ld_base p) tv_sec tv_usec in
       if ret_ =? -1 then
         SCM_MISC_ERROR "primitive-event-loop" "event loop exit failed" []
       else ret tt
   else ret tt) >>
  let* ret_ := event_base_loop env (ld_base p) in
  if ret_ =? -1 then
    SCM_MISC_ERROR "primitive-event-loop" "event loop failed" []
  else ret tt.

(** ** Entering and leaving the wait *)

Definition scm_c_prepare_to_wait_on_fd (env : loop_env) (fd : Z) : M bool :=
  log (E_prepare_to_wait_on_fd fd (prepare_interrupted env)) >>
  ret (prepare_interrupted env).

Definition scm_without_guile {A} (f : M A) : M A :=
  log E_without_guile_begin >>
  let* r := f in
  log E_without_guile_end >>
  ret r.

Definition scm_c_wait_finished : M unit := log E_wait_finished.

(** ** Removing the wake record *)

(** [memmove (events + dst, events + src, n * sizeof (struct event_data))] *)
Definition memmove_events (events : ptr) (dst src n : Z) : M unit := λ w,
  match w_bufs w !! events with
  | Some buf =>
      if n <? 0 then (Fault, w)
      else if n =? 0 then (Ok tt, w)
      else if (0 <=? dst) && (dst + n <=? Z.of_nat (length buf))
              && (0 <=? src) && (src + n <=? Z.of_nat (length buf)) then
        let moved := take (Z.to_nat n) (drop (Z.to_nat src) buf) in
        (Ok tt,
         set_bufs (<[events := take (Z.to_nat dst) buf ++ moved
                                 ++ drop (Z.to_nat (dst + n)) buf]>
                     (w_bufs w)) w)
      else (Fault, w)
  | None => (Fault, w)
  end.

(** [while (read (c_wokefd, zeroes, sizeof zeroes) == sizeof zeroes) {}] *)
Fixpoint drain_loop (fuel : nat) (c_wokefd : Z) : M unit :=
  match fuel with
  | O => hang
  | S fuel' =>
      let* n := sys_read c_wokefd 32 in
      if n =? 32 then drain_loop fuel' c_wokefd else ret tt
  end.

(** Reads the drain can need: one per full chunk pending, and one more. *)
Definition drain_fuel (w : world) (fd : Z) : nat :=
  match w_fds w !! fd with
  | Some (FdOpen pending _ _) => S (N.to_nat (pending `div` 32))
  | _ => 1%nat
  end.

Definition drain (c_wokefd : Z) : M unit :=
  let* w := get in
  drain_loop (drain_fuel w c_wokefd) c_wokefd.

(** [for (int i = 0; i < data->rv; i++) ...], from index [i] on. *)
Fixpoint strip_loop (fuel : nat) (data : ptr) (c_wokefd i : Z) : M unit :=
  match fuel with
  | O => hang
  | S fuel' =>
      let* d := load_wait data in
      if i <? wd_rv d then
        let* e := load_event (wd_events d) i in
        if ev_fd e =? c_wokefd then
          assign_rv data (to_int (wd_rv d - 1)) >>
          let* d := load_wait data in
          memmove_events (wd_events d) i (i + 1) (wd_rv d - i) >>
          drain c_wokefd
        else strip_loop fuel' data c_wokefd (to_int (i + 1))
      else ret tt
  end.

Definition strip_woke (data : ptr) (c_wokefd : Z) : M unit :=
  let* d := load_wait data in
  strip_loop (S (Z.to_nat (wd_rv d))) data c_wokefd 0.

(** ** [primitive-event-loop] *)

Definition scm_primitive_event_loop (env : loop_env)
    (lst : handle) (wakefd wokefd timeout : Z) : M Z :=
  let* c_wakefd := scm_to_int wakefd in
  let* c_wokefd := scm_to_int wokefd in
  let* c_timeout := scm_to_int64 timeout in
  let libevt := h_libevt lst in
  let data := h_data lst in
  (if (data =? NULL)%N then
     throw (WrongTypeArg "event-loop" 1 "event wait_data is null")
   else ret tt) >>
  let* interrupted :=
    (if negb (c_timeout =? 0) then scm_c_prepare_to_wait_on_fd env c_wakefd
     else ret false) in
  (if negb (c_timeout =? 0) && interrupted then assign_rv data 0
   else
     let* l := load_libevt libevt in
     let loop_data := mk_loop_data (le_base l) c_timeout in
     (if negb (c_timeout =? 0) then
        scm_without_guile (run_event_loop env loop_data)
      else run_event_loop env loop_data) >>
     (if negb (c_timeout =? 0) then scm_c_wait_finished else ret tt) >>
     strip_woke data c_wokefd) >>
  let* d := load_wait data in
  let result := wd_rv d in
  assign_rv data 0 >>
  ret result.

(** ** [init_fibers_libevt] *)

(** The integers bound with [scm_c_define]; the binding of [O_CLOEXEC],
    compiled for Guile 2 only, is left out. *)
Definition exported_constants : list (string * Z) :=
  [ ("%sizeof-struct-event", sizeof_event_data);
    ("%offsetof-struct-event-ev", 4);
    ("EVREAD", EV_READ);
    ("EVWRITE", EV_WRITE);
    ("EVPERSIST", EV_PERSIST);
    ("EVCLOSED", EV_CLOSED);
    ("EVENTS_IMPL_READ", Z.lor EV_READ EV_CLOSED);
    ("EVENTS_IMPL_WRITE", EV_WRITE);
    ("EVENTS_IMPL_CLOSED_OR_ERROR", Z.lor EV_READ EV_WRITE) ].

Definition scm_c_define (name : string) (v : Z) : M unit :=
  modify (λ w, set_defs (<[name := v]> (w_defs w)) w).

Fixpoint define_all (l : list (string * Z)) : M unit :=
  match l with
  | [] => ret tt
  | (name, v) :: l' => scm_c_define name v >> define_all l'
  end.

(** The two conversion factors and the integer bindings.  The six
    [scm_c_define_gsubr] calls bind procedures, which the integer
    bindings [w_defs] do not hold: they are not part of the model. *)
Definition init_fibers_libevt : M unit :=
  let* w := get in
  let units := scm_c_time_units_per_second w in
  if units =? 0 then fault
  else
    modify (set_factors (to_uint64 (units `quot` 1000000))
                        (to_uint64 (1000000 `quot` units))) >>
    define_all exported_constants.

(** ** What an iteration collects, as pure functions of its inputs *)

(** The callback invocations [(fd, what, arg)] that [process_active]
    makes on a ready list, in order. *)
Fixpoint fired (base : ptr) (regs : gmap ptr registration)
    (rs : list (ptr * Z)) : list (Z * Z * ptr) :=
  match rs with
  | [] => []
  | r :: rs' =>
      match regs !! r.1 with
      | Some reg =>
          if reg_pending reg && (reg_base reg =? base)%N then
            (reg_fd reg, to_short r.2, reg_arg reg)
              :: fired base (disarm regs r.1 reg) rs'
          else fired base regs rs'
      | None => fired base regs rs'
      end
  end.

(** The registrations once the ready list has been processed. *)
Fixpoint regs_after (base : ptr) (regs : gmap ptr registration)
    (rs : list (ptr * Z)) : gmap ptr registration :=
  match rs with
  | [] => regs
  | r :: rs' =>
      match regs !! r.1 with
      | Some reg =>
          if reg_pending reg && (reg_base reg =? base)%N then
            regs_after base (disarm regs r.1 reg) rs'
          else regs_after base regs rs'
      | None => regs_after base regs rs'
      end
  end.

Definition record_of (c : Z * Z * ptr) : event_data :=
  mk_event_data c.1.1 c.1.2.

Definition callback_effect (c : Z * Z * ptr) : effect :=
  E_callback c.1.1 c.1.2 c.2.

(** Records stored one after the other from slot [i] on. *)
Fixpoint deposits (i : nat) (recs : list event_data)
    (buf : list event_data) : list event_data :=
  match recs with
  | [] => buf
  | e :: recs' => deposits (S i) recs' (<[i := e]> buf)
  end.

(** The result set without its first record on the woke descriptor. *)
Fixpoint remove_woke (wokefd : Z) (l : list event_data) : list event_data :=
  match l with
  | [] => []
  | e :: l' => if ev_fd e =? wokefd then l' else e :: remove_woke wokefd l'
  end.

(** Index of the first record on the woke descriptor. *)
Fixpoint find_woke (wokefd : Z) (l : list event_data) : option nat :=
  match l with
  | [] => None
  | e :: l' =>
      if ev_fd e =? wokefd then Some O else S <$> find_woke wokefd l'
  end.

(** [memmove] of the records after slot [j] of the first [n], one slot
    to the left. *)
Definition shift_left (j n : nat) (buf : list event_data)
    : list event_data :=
  take j buf ++ take (n - 1 - j) (drop (S j) buf) ++ drop (n - 1) buf.

(** The [read] calls of a drain that meets [pending] bytes. *)
Definition drain_reads (fd : Z) (pending : N) : list effect :=
  replicate (N.to_nat (pending `div` 32)) (E_read fd 32)
  ++ [E_read fd (if (pending `mod` 32 =? 0)%N then -1
                 else Z.of_N (pending `mod` 32))].

(** A drain returns unless the descriptor blocks and holds a whole
    number of chunks. *)
Definition drains_freely (w : world) (fd : Z) : bool :=
  match w_fds w !! fd with
  | Some (FdOpen pending _ false) => negb (pending `mod` 32 =? 0)%N
  | _ => true
  end.

(** ** The world an iteration leaves *)

(** After the callbacks [cbs] have all deposited behind the records
    counted by [d], the registrations being [regs']. *)
Definition after_deposits (a : ptr) (d : wait_data) (buf : list event_data)
    (cbs : list (Z * Z * ptr)) (regs' : gmap ptr registration) (w : world)
    : world :=
  set_trace (w_trace w ++ map callback_effect cbs)
    (set_regs regs'
       (set_wait (<[a := mk_wait_data (wd_rv d + Z.of_nat (length cbs))
                                      (wd_events d) (wd_maxevents d)]>
                    (w_wait w))
          (set_bufs (<[wd_events d :=
                         deposits (Z.to_nat (wd_rv d)) (map record_of cbs) buf]>
                       (w_bufs w)) w))).

(** Once the record in slot [j] has been taken out of the first
    [wd_rv d] records. *)
Definition after_removal (a : ptr) (d : wait_data) (buf : list event_data)
    (j : nat) (w : world) : world :=
  set_bufs (<[wd_events d := shift_left j (Z.to_nat (wd_rv d)) buf]> (w_bufs w))
    (set_wait (<[a := mk_wait_data (wd_rv d - 1) (wd_events d)
                                   (wd_maxevents d)]> (w_wait w)) w).

(** Once a drain has met [p] bytes on an open descriptor. *)
Definition after_drain (fd : Z) (p room : N) (nb : bool) (w : world) : world :=
  set_trace (w_trace w ++ drain_reads fd p)
    (set_errno (if (p `mod` 32 =? 0)%N then EAGAIN else w_errno w)
       (set_fds (<[fd := FdOpen 0 room nb]> (w_fds w)) w)).

(** Calls made up to and including [event_base_loop]'s entry. *)
Definition wait_prologue (w : world) (wakefd : Z) (base : ptr) (timeout : Z)
    : list effect :=
  (if timeout =? 0 then []
   else [E_prepare_to_wait_on_fd wakefd false; E_without_guile_begin])
  ++ (if 0 <=? timeout
      then [E_loopexit base (tv_sec_of w timeout) (tv_usec_of w timeout)]
      else [])
  ++ [E_loop base].

(** Calls made between [event_base_loop]'s return and the scan. *)
Definition wait_epilogue (timeout : Z) : list effect :=
  if timeout =? 0 then [] else [E_without_guile_end; E_wait_finished].

(** After a wait that ran the callbacks [cbs]. *)
Definition after_wait (a : ptr) (d : wait_data) (buf : list event_data)
    (wakefd : Z) (base : ptr) (timeout : Z) (rs : list (ptr * Z)) (w : world)
    : world :=
  let cbs := fired base (w_regs w) rs in
  set_trace (w_trace w ++ wait_prologue w wakefd base timeout
             ++ map callback_effect cbs ++ wait_epilogue timeout)
    (set_regs (regs_after base (w_regs w) rs)
       (set_wait (<[a := mk_wait_data (wd_rv d + Z.of_nat (length cbs))
                                      (wd_events d) (wd_maxevents d)]>
                    (w_wait w))
          (set_bufs (<[wd_events d :=
                         deposits (Z.to_nat (wd_rv d)) (map record_of cbs) buf]>
                       (w_bufs w)) w))).

(** [result = data->rv; data->rv = 0; return result]. *)
Definition finish (data : ptr) : M Z :=
  let* d := load_wait data in
  let result := wd_rv d in
  assign_rv data 0 >>
  ret result.

(** ** Classes of calls in a trace *)

(** Calls made by the wait itself. *)
Definition wait_effect (e : effect) : Prop :=
  match e with
  | E_loopexit _ _ _ | E_loop _ | E_callback _ _ _ => True
  | _ => False
  end.

Definition callback_call (e : effect) : Prop :=
  match e with
  | E_callback _ _ _ => True
  | _ => False
  end.

Definition is_read_on (fd : Z) (e : effect) : Prop :=
  ∃ n, e = E_read fd n.

(** [m] only appends calls satisfying [P] to the trace, however it ends. *)
Definition emits {A} (P : effect → Prop) (m : M A) : Prop :=
  ∀ w r w', m w = (r, w') →
    ∃ t, w_trace w' = w_trace w ++ t ∧ Forall P t.

(** [m] makes no call. *)
Definition silent {A} (m : M A) : Prop :=
  ∀ w r w', m w = (r, w') → w_trace w' = w_trace w.

(** A drain leaves everything but descriptors, [errno] and trace, and
    appends at least one [read] on its descriptor. *)
Definition drained (fd : Z) (w w' : world) : Prop :=
  scm_c_time_units_per_second w' = scm_c_time_units_per_second w ∧
  time_units_per_microsec w' = time_units_per_microsec w ∧
  microsec_per_time_units w' = microsec_per_time_units w ∧
  w_wait w' = w_wait w ∧ w_libevt w' = w_libevt w ∧
  w_bufs w' = w_bufs w ∧ w_regs w' = w_regs w ∧
  w_next w' = w_next w ∧ w_defs w' = w_defs w ∧
  ∃ rs, w_trace w' = w_trace w ++ rs ∧ rs ≠ [] ∧ Forall (is_read_on fd) rs.

Definition max_events_error (fd : Z) : scm_error :=
  MiscError "primitive-event-loop" "max events fired on fd(~A)" [fd].


(** The two factors hold what [init_fibers_libevt] computes. *)
Definition factors_initialised (w : world) : Prop :=
  time_units_per_microsec w
    = to_uint64 (scm_c_time_units_per_second w `quot` 1000000) ∧
  microsec_per_time_units w
    = to_uint64 (1000000 `quot` scm_c_time_units_per_second w).

(** ** One iteration, from its inputs *)

(** The records in the buffer when the wait is over: those counted
    before it, then one per callback. *)
Definition collected (d : wait_data) (buf : list event_data)
    (cbs : list (Z * Z * ptr)) : list event_data :=
  take (Z.to_nat (wd_rv d)) buf ++ map record_of cbs.

(** The buffer when the iteration is over. *)
Definition result_buffer (wokefd : Z) (d : wait_data)
    (buf : list event_data) (cbs : list (Z * Z * ptr)) : list event_data :=
  let buf1 := deposits (Z.to_nat (wd_rv d)) (map record_of cbs) buf in
  match find_woke wokefd (collected d buf cbs) with
  | None => buf1
  | Some j => shift_left j (length (collected d buf cbs)) buf1
  end.

(** What an iteration that is to go through its wait needs: arguments
    in the range of their C types, a handle on live objects, a count
    that is not negative, a capacity within the buffer, callbacks that
    all carry the handle's [wait_data] and fit in the buffer, and a
    reactor and runtime that do not fail. *)
Record iteration_ready (env : loop_env) (lst : handle)
    (wakefd wokefd timeout : Z) (w : world) (l : libevt_data)
    (d : wait_data) (buf : list event_data) : Prop := {
  ir_wakefd : in_signed 32 wakefd = true;
  ir_wokefd : in_signed 32 wokefd = true;
  ir_timeout : in_signed 64 timeout = true;
  ir_data : h_data lst ≠ NULL;
  ir_libevt : w_libevt w !! h_libevt lst = Some l;
  ir_wait : w_wait w !! h_data lst = Some d;
  ir_buf : w_bufs w !! wd_events d = Some buf;
  ir_rv : 0 ≤ wd_rv d;
  ir_capacity : wd_maxevents d ≤ Z.of_nat (length buf);
  ir_int : wd_maxevents d ≤ INT_MAX;
  ir_tied :
    Forall (λ c, c.2 = h_data lst) (fired (le_base l) (w_regs w) (ready env));
  ir_fit :
    wd_rv d + Z.of_nat (length (fired (le_base l) (w_regs w) (ready env)))
      ≤ wd_maxevents d;
  ir_loop : loop_ok env = true;
  ir_prepare : timeout ≠ 0 → prepare_interrupted env = false;
  ir_loopexit :
    0 ≤ timeout →
    loopexit_ok env = true ∧ scm_c_time_units_per_second w ≠ 0
}.

(** ** A scenario to run the embedding on *)

Definition exec {A} (m : M A) (w : world) : world := (m w).2.

(** A process before [init_fibers_libevt]: nanosecond time units, the
    contents of a 32-byte bytevector at address 100 and of a 16-byte
    one at address 200, descriptor 5 open without blocking with 70
    bytes to read. *)
Definition ex_boot : world :=
  mk_world 1000000000 0 0 ∅ ∅
           {[ 100%N := replicate 4 (mk_event_data 0 0);
              200%N := replicate 2 (mk_event_data 0 0) ]} ∅
           {[ 5 := FdOpen 70 10 true ]} EIO 1%N ∅ [].

Definition ex_eventsv : bytevector := mk_bytevector 100%N 32.
Definition ex_smaller : bytevector := mk_bytevector 200%N 16.

Definition ex_init : world := exec init_fibers_libevt ex_boot.

(** After [primitive-create-event-base]: the reactor at address 1, the
    handle [ex_lst]. *)
Definition ex_created : world :=
  exec (scm_primitive_create_event_base true ex_eventsv) ex_init.

Definition ex_lst : handle := mk_handle 2%N 3%N.

(** Persistent read watches on descriptors 5 and 7: registrations 4
    and 5. *)
Definition ex_watching : world :=
  exec (scm_primitive_add_event true true ex_lst 7 (Z.lor EV_READ EV_PERSIST))
    (exec (scm_primitive_add_event true true ex_lst 5
             (Z.lor EV_READ EV_PERSIST)) ex_created).

(** A second persistent read watch on descriptor 5: registration 6. *)
Definition ex_watching_twice : world :=
  exec (scm_primitive_add_event true true ex_lst 5 (Z.lor EV_READ EV_PERSIST))
    ex_watching.

(** The same start with the 16-byte bytevector, two records of room, and
    persistent read watches on descriptors 7, 8 and 9: registrations 4,
    5 and 6 of the handle [ex_lst]. *)
Definition ex_small_watching : world :=
  exec (scm_primitive_add_event true true ex_lst 9 (Z.lor EV_READ EV_PERSIST))
    (exec (scm_primitive_add_event true true ex_lst 8
             (Z.lor EV_READ EV_PERSIST))
       (exec (scm_primitive_add_event true true ex_lst 7
                (Z.lor EV_READ EV_PERSIST))
          (exec (scm_primitive_create_event_base true ex_smaller) ex_init))).

(** Surroundings in which nothing fails and no interrupt is pending. *)
Definition ex_env (rs : list (ptr * Z)) : loop_env :=
  mk_loop_env false true true rs.

(** The [libevt_data], the [wait_data] and the buffer of the scenario. *)
Definition ex_libevt : libevt_data := mk_libevt_data 1%N.
Definition ex_data : wait_data := mk_wait_data 0 100%N 4.
Definition ex_buf : list event_data := replicate 4 (mk_event_data 0 0).

(** How many records of a result set are on the woke descriptor. *)
Definition count_woke (wokefd : Z) (l : list event_data) : nat :=
  length (filter (λ e, ev_fd e = wokefd) l).

(** ** The bounds invariant *)

(** A [wait_data] is within bounds: its buffer exists, its count lies
    between zero and its capacity, and its capacity is an [int] no
    larger than the number of records the buffer holds. *)
Definition wait_okb (bufs : gmap ptr (list event_data)) (d : wait_data)
    : bool :=
  match bufs !! wd_events d with
  | Some buf =>
      (0 <=? wd_rv d) && (wd_rv d <=? wd_maxevents d)
      && (wd_maxevents d <=? INT_MAX)
      && (wd_maxevents d <=? Z.of_nat (length buf))
  | None => false
  end.

(** Every [wait_data] is within bounds and every registration carries
    the address of a live [wait_data]. *)
Definition heap_ok (w : world) : Prop :=
  map_Forall (λ _ d, wait_okb (w_bufs w) d = true) (w_wait w) ∧
  map_Forall (λ _ r, is_Some (w_wait w !! reg_arg r)) (w_regs w).

#[global] Instance heap_ok_dec w : Decision (heap_ok w).
Proof. unfold heap_ok. apply _. Defined.

(** Every [wait_data] of [w] is still there in [w'], with the buffer
    address and the capacity it had. *)
Definition same_layout (w w' : world) : Prop :=
  ∀ a d, w_wait w !! a = Some d →
    ∃ d', w_wait w' !! a = Some d' ∧
          wd_events d' = wd_events d ∧ wd_maxevents d' = wd_maxevents d.

(** [m] never faults and keeps the three stores of the heap. *)
Definition keeps_heap {A} (m : M A) : Prop :=
  ∀ w r w', m w = (r, w') →
    r ≠ Fault ∧ w_wait w' = w_wait w ∧ w_bufs w' = w_bufs w ∧
    w_regs w' = w_regs w.

(** From a world within bounds [m] does not fault, and it leaves a
    world within bounds and of the same layout. *)
Definition safe {A} (m : M A) : Prop :=
  ∀ w, heap_ok w →
    (m w).1 ≠ Fault ∧ heap_ok (m w).2 ∧ same_layout w (m w).2.

(** The same from one world [w], with [Q] of a returned value and of the
    world it is returned in. *)
Definition safe_at {A} (w : world) (m : M A) (Q : A → world → Prop) : Prop :=
  (m w).1 ≠ Fault ∧ heap_ok (m w).2 ∧ same_layout w (m w).2 ∧
  ∀ a, (m w).1 = Ok a → Q a (m w).2.

(** ** Failures on the way into the wait *)

(** The error of the first of [primitive-event-loop]'s entry checks that
    fails: the three conversions in the order of the source, then the
    test of the [wait_data] pointer. *)
Definition argument_error (lst : handle) (wakefd wokefd timeout : Z)
    : option scm_error :=
  if negb (in_signed 32 wakefd) then Some (OutOfRange wakefd)
  else if negb (in_signed 32 wokefd) then Some (OutOfRange wokefd)
  else if negb (in_signed 64 timeout) then Some (OutOfRange timeout)
  else if (h_data lst =? NULL)%N then
    Some (WrongTypeArg "event-loop" 1 "event wait_data is null")
  else None.

(** The calls of an iteration in which [event_base_loopexit] or
    [event_base_loop] fails. *)
Definition failed_wait_calls (env : loop_env) (w : world) (wakefd : Z)
    (base : ptr) (timeout : Z) : list effect :=
  (if timeout =? 0 then []
   else [E_prepare_to_wait_on_fd wakefd false; E_without_guile_begin])
  ++ (if 0 <=? timeout
      then [E_loopexit base (tv_sec_of w timeout) (tv_usec_of w timeout)]
      else [])
  ++ (if (0 <=? timeout) && negb (loopexit_ok env) then [] else [E_loop base]).

(** The bindings after [define_all l]. *)
Definition defs_after (l : list (string * Z)) (defs : gmap string Z)
    : gmap string Z :=
  foldl (λ m p, <[p.1 := p.2]> m) defs l.

(** The surroundings [env] without the reports of registration [e]. *)
Definition ignoring (e : ptr) (env : loop_env) : loop_env :=
  mk_loop_env (prepare_interrupted env) (loopexit_ok env) (loop_ok env)
              (filter (λ x, x.1 ≠ e) (ready env)).

(** The scenario with two records of room after an iteration in which
    its three watches fired, a bytevector of one record at address 300
    being made and given to [primitive-resize]. *)
Definition ex_overflowed : world :=
  exec (scm_primitive_event_loop
          (ex_env [(4%N, EV_READ); (5%N, EV_READ); (6%N, EV_READ)])
          ex_lst 6 5 0) ex_small_watching.

Definition ex_one_record : bytevector := mk_bytevector 300%N 8.

Definition ex_shrunk : world :=
  exec (scm_primitive_resize ex_lst ex_one_record)
    (set_bufs (<[300%N := [mk_event_data 0 0]]> (w_bufs ex_overflowed))
              ex_overflowed).

(** The contents of the bytevector are a buffer of the model that holds
    as many records as fit in its byte length. *)
Definition backed (w : world) (eventsv : bytevector) : bool :=
  match w_bufs w !! bv_contents eventsv with
  | Some buf =>
      Z.of_nat (length buf) =? bv_length eventsv `div` sizeof_event_data
  | None => false
  end.

(** ** Calls one after the other *)

(** A call of one of the six primitives, with what its surroundings
    answer. *)
Inductive op :=
  | Op_wake (wakefd : Z)
  | Op_create (base_new_ok : bool) (eventsv : bytevector)
  | Op_add (event_new_ok event_add_ok : bool) (lst : handle) (fd ev : Z)
  | Op_remove (event_del_ok : bool) (lst : handle) (scm_event : ptr)
  | Op_resize (lst : handle) (eventsv : bytevector)
  | Op_loop (env : loop_env) (lst : handle) (wakefd wokefd timeout : Z).

(** The world a call leaves, however it ends. *)
Definition run_op (o : op) (w : world) : world :=
  match o with
  | Op_wake wakefd => exec (scm_primitive_event_wake wakefd) w
  | Op_create base_new_ok eventsv =>
      exec (scm_primitive_create_event_base base_new_ok eventsv) w
  | Op_add event_new_ok event_add_ok lst fd ev =>
      exec (scm_primitive_add_event event_new_ok event_add_ok lst fd ev) w
  | Op_remove event_del_ok lst scm_event =>
      exec (scm_primitive_remove_event event_del_ok lst scm_event) w
  | Op_resize lst eventsv => exec (scm_primitive_resize lst eventsv) w
  | Op_loop env lst wakefd wokefd timeout =>
      exec (scm_primitive_event_loop env lst wakefd wokefd timeout) w
  end.

(** The world after the calls [ops], each started where the one before
    it stopped. *)
Definition run_ops (ops : list op) (w : world) : world :=
  foldl (λ w o, run_op o w) w ops.

(** [o] is a [primitive-resize] of the [wait_data] at [data]. *)
Definition resizes (data : ptr) (o : op) : bool :=
  match o with
  | Op_resize lst _ => bool_decide (h_data lst = data)
  | _ => false
  end.

(** Every object of the heap lies below the next address the allocator
    hands out: what it hands out is fresh. *)
Definition allocated_below (w : world) : Prop :=
  map_Forall (λ p _, (p < w_next w)%N) (w_wait w) ∧
  map_Forall (λ p _, (p < w_next w)%N) (w_libevt w) ∧
  map_Forall (λ p _, (p < w_next w)%N) (w_regs w).

#[global] Instance allocated_below_dec w : Decision (allocated_below w).
Proof. unfold allocated_below. apply _. Defined.

(** The [wait_data] at [data] is on the contents of [eventsv], with the
    capacity of [eventsv]. *)
Definition resized_to (data : ptr) (eventsv : bytevector) (w : world) : Prop :=
  ∃ d, w_wait w !! data = Some d ∧
       wd_events d = bv_contents eventsv ∧
       wd_maxevents d = capacity_of eventsv.

(** The registration at [e] exists and is not pending. *)
Definition retired (e : ptr) (w : world) : Prop :=
  ∃ reg, w_regs w !! e = Some reg ∧ reg_pending reg = false.

(** [m] keeps [I], however it ends. *)
Definition keeps {A} (I : world → Prop) (m : M A) : Prop :=
  ∀ w r w', m w = (r, w') → I w → I w'.

(** What an iteration can do to the world: append to the trace, set
    [errno], consume bytes of a descriptor, write into a buffer, change
    the count of a [wait_data] and make a registration not pending.
    [I] is kept by each of these. *)
Record loop_invariant (I : world → Prop) : Prop := {
  li_trace : ∀ t w, I w → I (set_trace t w);
  li_errno : ∀ e w, I w → I (set_errno e w);
  li_fds : ∀ f w, I w → I (set_fds f w);
  li_bufs : ∀ b w, I w → I (set_bufs b w);
  li_rv : ∀ p d v w, w_wait w !! p = Some d → I w →
    I (set_wait (<[p := mk_wait_data v (wd_events d) (wd_maxevents d)]>
                   (w_wait w)) w);
  li_disarm : ∀ e reg w, w_regs w !! e = Some reg → I w →
    I (set_regs (<[e := set_pending false reg]> (w_regs w)) w)
}.

(** * Properties *)

Local Open Scope Z_scope.

(** ** Running the embedding *)

Lemma to_int_id z : - 2 ^ 31 ≤ z ≤ INT_MAX → to_int z = z.
Proof.
  unfold to_int, wrap_signed, INT_MAX. intros H.
  rewrite Z.mod_small; lia.
Qed.

Lemma world_eq w1 w2 :
  scm_c_time_units_per_second w1 = scm_c_time_units_per_second w2 →
  time_units_per_microsec w1 = time_units_per_microsec w2 →
  microsec_per_time_units w1 = microsec_per_time_units w2 →
  w_wait w1 = w_wait w2 → w_libevt w1 = w_libevt w2 →
  w_bufs w1 = w_bufs w2 → w_regs w1 = w_regs w2 → w_fds w1 = w_fds w2 →
  w_errno w1 = w_errno w2 → w_next w1 = w_next w2 → w_defs w1 = w_defs w2 →
  w_trace w1 = w_trace w2 → w1 = w2.
Proof. destruct w1, w2; simpl; intros; subst; reflexivity. Qed.

Lemma run_load_wait p w d :
  w_wait w !! p = Some d → load_wait p w = (Ok d, w).
Proof. unfold load_wait. by intros ->. Qed.

Lemma run_assign_rv p v w d :
  w_wait w !! p = Some d →
  assign_rv p v w =
  (Ok tt, set_wait (<[p := mk_wait_data v (wd_events d) (wd_maxevents d)]>
                      (w_wait w)) w).
Proof.
  intros H. unfold assign_rv, bind, load_wait, store_wait. by rewrite H, H.
Qed.

Lemma run_store_event p i e w buf :
  w_bufs w !! p = Some buf → 0 ≤ i < Z.of_nat (length buf) →
  store_event p i e w =
  (Ok tt, set_bufs (<[p := <[Z.to_nat i := e]> buf]> (w_bufs w)) w).
Proof.
  intros H Hi. unfold store_event. rewrite H.
  destruct (0 <=? i) eqn:E1; [|lia].
  destruct (i <? Z.of_nat (length buf)) eqn:E2; [|lia]. done.
Qed.

Lemma cb_func_full fd what arg w d :
  w_wait w !! arg = Some d → wd_maxevents d ≤ wd_rv d →
  cb_func fd what arg w =
  (Throw (MiscError "primitive-event-loop" "max events fired on fd(~A)" [fd]),
   w).
Proof.
  intros H Hfull. unfold cb_func, bind. rewrite (run_load_wait _ _ _ H).
  destruct (wd_maxevents d <=? wd_rv d) eqn:E; [done | lia].
Qed.

Lemma cb_func_deposit fd what arg w d buf :
  w_wait w !! arg = Some d → w_bufs w !! wd_events d = Some buf →
  0 ≤ wd_rv d < wd_maxevents d →
  wd_maxevents d ≤ Z.of_nat (length buf) → wd_maxevents d ≤ INT_MAX →
  cb_func fd what arg w =
  (Ok tt,
   set_wait (<[arg := mk_wait_data (wd_rv d + 1) (wd_events d)
                                   (wd_maxevents d)]> (w_wait w))
     (set_bufs (<[wd_events d := <[Z.to_nat (wd_rv d) :=
                                     mk_event_data fd what]> buf]>
                  (w_bufs w)) w)).
Proof.
  intros H Hb Hrv Hcap Hmax. unfold cb_func, bind.
  rewrite (run_load_wait _ _ _ H).
  destruct (wd_maxevents d <=? wd_rv d) eqn:E; [lia|].
  rewrite (run_store_event _ _ _ _ _ Hb) by lia.
  rewrite (run_load_wait _ _ d) by done.
  rewrite (run_assign_rv _ _ _ d) by done.
  rewrite to_int_id by (unfold INT_MAX in *; lia). done.
Qed.

Lemma length_deposits recs : ∀ i buf, length (deposits i recs buf) = length buf.
Proof.
  induction recs as [|e recs IH]; intros i buf; simpl; [done|].
  by rewrite IH, length_insert.
Qed.

Lemma process_active_deposits base a rs : ∀ w d buf,
  w_wait w !! a = Some d → w_bufs w !! wd_events d = Some buf →
  0 ≤ wd_rv d →
  wd_maxevents d ≤ Z.of_nat (length buf) → wd_maxevents d ≤ INT_MAX →
  Forall (λ c, c.2 = a) (fired base (w_regs w) rs) →
  wd_rv d + Z.of_nat (length (fired base (w_regs w) rs)) ≤ wd_maxevents d →
  process_active base rs w =
  (Ok tt, after_deposits a d buf (fired base (w_regs w) rs)
            (regs_after base (w_regs w) rs) w).
Proof.
  induction rs as [|r rs IH]; intros w d buf Hd Hb Hrv Hcap Hmax Hall Hfit.
  - simpl. unfold ret, after_deposits. f_equal. apply world_eq; simpl; try done.
    + rewrite Z.add_0_r. symmetry. apply insert_id. by destruct d.
    + symmetry. by apply insert_id.
    + by rewrite app_nil_r.
  - simpl in *. unfold bind at 1. unfold activate, bind at 1, get.
    destruct (w_regs w !! r.1) as [reg|] eqn:Hreg; [|by apply IH].
    destruct (reg_pending reg && (reg_base reg =? base)%N) eqn:Hact;
      [|by apply IH].
    simpl in Hall, Hfit. apply Forall_cons in Hall as [Ha Hall]. simpl in Ha.
    unfold bind at 1, modify. unfold bind at 1, log, modify.
    destruct (reg_cb reg). simpl. rewrite Ha.
    set (w1 := set_trace _ (set_regs _ w)).
    rewrite (cb_func_deposit _ _ a w1 d buf) by (done || lia).
    rewrite (IH _ (mk_wait_data (wd_rv d + 1) (wd_events d) (wd_maxevents d))
                (<[Z.to_nat (wd_rv d) := mk_event_data (reg_fd reg) (to_short r.2)]> buf)).
    + f_equal. unfold after_deposits. apply world_eq; simpl; try done.
      * rewrite insert_insert_eq. do 2 f_equal. lia.
      * rewrite insert_insert_eq. do 2 f_equal.
        replace (Z.to_nat (wd_rv d + 1)) with (S (Z.to_nat (wd_rv d))) by lia.
        done.
      * by rewrite <- app_assoc.
    + simpl. apply lookup_insert_eq.
    + simpl. apply lookup_insert_eq.
    + simpl. lia.
    + simpl. rewrite length_insert. lia.
    + done.
    + done.
    + simpl. lia.
Qed.

Lemma drain_loop_open fd room nb k : ∀ p w,
  N.to_nat (p `div` 32) = k →
  w_fds w !! fd = Some (FdOpen p room nb) →
  nb = true ∨ (p `mod` 32)%N ≠ 0%N →
  drain_loop (S k) fd w = (Ok tt, after_drain fd p room nb w).
Proof.
  induction k as [|k IH]; intros p w Hk Hfd Hnb.
  - assert (p < 32)%N as Hlt.
    { apply N.div_small_iff; [done|]. apply N2Nat.inj. by rewrite Hk. }
    assert (p `mod` 32 = p)%N as Hmod by (by apply N.mod_small).
    assert (p `div` 32 = 0)%N as Hdiv by (by apply N.div_small).
    simpl. unfold bind, sys_read. rewrite Hfd.
    unfold after_drain, drain_reads. rewrite Hmod, Hdiv.
    destruct (p =? 0)%N eqn:E.
    + apply N.eqb_eq in E. subst p.
      destruct nb; [|destruct Hnb; done]. simpl. unfold ret. f_equal.
      apply world_eq; simpl; try done. symmetry. by apply insert_id.
    + apply N.eqb_neq in E.
      rewrite N.min_l by lia.
      destruct (Z.of_N p =? 32) eqn:E2; [lia|].
      unfold ret. f_equal. apply world_eq; simpl; try done.
      by rewrite N.sub_diag.
  - assert (32 ≤ p)%N as Hge.
    { destruct (N.lt_ge_cases p 32) as [Hlt|]; [|done].
      rewrite N.div_small in Hk by done. lia. }
    assert ((p - 32) `div` 32 = p `div` 32 - 1)%N as Hdiv.
    { replace p with ((p - 32) + 1 * 32)%N at 2 by lia.
      rewrite N.div_add by done. by rewrite N.add_sub. }
    assert ((p - 32) `mod` 32 = p `mod` 32)%N as Hmod.
    { replace p with ((p - 32) + 1 * 32)%N at 2 by lia.
      by rewrite N.Div0.mod_add. }
    change (drain_loop (S (S k)) fd w) with
      (bind (sys_read fd 32)
            (λ n, if n =? 32 then drain_loop (S k) fd else ret tt) w).
    unfold bind, sys_read. rewrite Hfd.
    destruct (p =? 0)%N eqn:E; [apply N.eqb_eq in E; lia|].
    rewrite N.min_r by lia. change (Z.of_N 32 =? 32) with true. cbv beta iota.
    rewrite (IH (p - 32)%N).
    + f_equal. unfold after_drain, drain_reads. rewrite Hmod, Hdiv.
      apply world_eq; simpl; try done.
      * by rewrite insert_insert_eq.
      * rewrite <- app_assoc. f_equal.
        replace (N.to_nat (p `div` 32)) with (S (N.to_nat (p `div` 32 - 1)))
          by lia.
        done.
    + lia.
    + simpl. apply lookup_insert_eq.
    + by rewrite Hmod.
Qed.

Lemma drain_open fd p room nb w :
  w_fds w !! fd = Some (FdOpen p room nb) →
  nb = true ∨ (p `mod` 32)%N ≠ 0%N →
  drain fd w = (Ok tt, after_drain fd p room nb w).
Proof.
  intros Hfd Hnb. unfold drain, bind, get, drain_fuel. rewrite Hfd.
  by apply drain_loop_open.
Qed.

Lemma drain_closed fd w :
  w_fds w !! fd = None →
  drain fd w =
  (Ok tt, set_trace (w_trace w ++ [E_read fd (-1)]) (set_errno EBADF w)).
Proof.
  intros Hfd. unfold drain, bind, get, drain_fuel. rewrite Hfd. simpl.
  unfold bind, sys_read. by rewrite Hfd.
Qed.

Lemma drain_broken fd e w :
  w_fds w !! fd = Some (FdBroken e) →
  drain fd w =
  (Ok tt, set_trace (w_trace w ++ [E_read fd (-1)]) (set_errno e w)).
Proof.
  intros Hfd. unfold drain, bind, get, drain_fuel. rewrite Hfd. simpl.
  unfold bind, sys_read. by rewrite Hfd.
Qed.

Lemma Forall_drain_reads fd p : Forall (is_read_on fd) (drain_reads fd p).
Proof.
  unfold drain_reads. apply Forall_app. split.
  - apply Forall_replicate. by eexists.
  - apply Forall_singleton. by eexists.
Qed.

Lemma drain_returns fd w :
  drains_freely w fd = true →
  ∃ w', drain fd w = (Ok tt, w') ∧ drained fd w w'.
Proof.
  unfold drains_freely. intros H.
  destruct (w_fds w !! fd) as [[p room nb|e]|] eqn:Hfd.
  - eexists. split.
    + apply drain_open; [done|].
      destruct nb; [by left|right]. apply negb_true_iff, N.eqb_neq in H. done.
    + unfold drained, after_drain; simpl. repeat split; try done.
      eexists. split; [done|]. split; [|apply Forall_drain_reads].
      unfold drain_reads. by destruct (replicate _ _).
  - eexists. split; [by apply drain_broken|].
    unfold drained; simpl. repeat split; try done.
    eexists. split; [done|]. split; [done|]. apply Forall_singleton. by eexists.
  - eexists. split; [by apply drain_closed|].
    unfold drained; simpl. repeat split; try done.
    eexists. split; [done|]. split; [done|]. apply Forall_singleton. by eexists.
Qed.

(** *** Lists: [find_woke], [remove_woke], [shift_left] *)

Lemma find_woke_None wokefd l :
  find_woke wokefd l = None ↔ Forall (λ e, ev_fd e ≠ wokefd) l.
Proof.
  induction l as [|e l IH]; simpl; [done|].
  destruct (ev_fd e =? wokefd) eqn:E.
  - apply Z.eqb_eq in E. split; [done|]. intros H. by inversion H.
  - apply Z.eqb_neq in E. rewrite Forall_cons.
    destruct (find_woke wokefd l); simpl; [|tauto].
    split; [done|]. intros [_ H]. by apply IH in H.
Qed.

Lemma find_woke_Some wokefd l j :
  find_woke wokefd l = Some j →
  (∃ e, l !! j = Some e ∧ ev_fd e = wokefd) ∧
  Forall (λ e, ev_fd e ≠ wokefd) (take j l).
Proof.
  revert j. induction l as [|e l IH]; intros j; simpl; [done|].
  destruct (ev_fd e =? wokefd) eqn:E.
  - apply Z.eqb_eq in E. intros [= <-]. simpl. eauto.
  - apply Z.eqb_neq in E.
    destruct (find_woke wokefd l) as [j'|]; simpl; [|done].
    intros [= <-]. destruct (IH j' eq_refl) as [He Hbefore]. simpl.
    split; [done|]. by constructor.
Qed.

Lemma find_woke_lt wokefd l j : find_woke wokefd l = Some j → (j < length l)%nat.
Proof.
  intros H. apply find_woke_Some in H as [(e & He & _) _].
  by apply lookup_lt_Some in He.
Qed.

Lemma remove_woke_None wokefd l :
  find_woke wokefd l = None → remove_woke wokefd l = l.
Proof.
  induction l as [|e l IH]; simpl; [done|].
  destruct (ev_fd e =? wokefd); [done|].
  destruct (find_woke wokefd l); simpl; [done|]. intros _. by rewrite IH.
Qed.

Lemma remove_woke_Some wokefd l j :
  find_woke wokefd l = Some j → remove_woke wokefd l = delete j l.
Proof.
  revert j. induction l as [|e l IH]; intros j; simpl; [done|].
  destruct (ev_fd e =? wokefd); [by intros [= <-]|].
  destruct (find_woke wokefd l) as [j'|]; simpl; [|done].
  intros [= <-]. simpl. by rewrite (IH j').
Qed.

Lemma length_shift_left j n (buf : list event_data) :
  (j < n ≤ length buf)%nat → length (shift_left j n buf) = length buf.
Proof.
  intros H. unfold shift_left.
  rewrite !length_app, !length_take, !length_drop. lia.
Qed.

Lemma lookup_shift_left_lt j n (buf : list event_data) k :
  (j < n ≤ length buf)%nat → (k < j)%nat →
  shift_left j n buf !! k = buf !! k.
Proof.
  intros H Hk. unfold shift_left.
  rewrite lookup_app_l by (rewrite length_take; lia).
  by rewrite lookup_take_lt.
Qed.

Lemma lookup_shift_left_moved j n (buf : list event_data) k :
  (j < n ≤ length buf)%nat → (j ≤ k < n - 1)%nat →
  shift_left j n buf !! k = buf !! S k.
Proof.
  intros H Hk. unfold shift_left.
  rewrite lookup_app_r by (rewrite length_take; lia).
  rewrite length_take, Nat.min_l by lia.
  rewrite lookup_app_l by (rewrite length_take, length_drop; lia).
  rewrite lookup_take_lt by lia. rewrite lookup_drop. f_equal. lia.
Qed.

Lemma lookup_shift_left_ge j n (buf : list event_data) k :
  (j < n ≤ length buf)%nat → (n - 1 ≤ k)%nat →
  shift_left j n buf !! k = buf !! k.
Proof.
  intros H Hk. unfold shift_left.
  rewrite lookup_app_r by (rewrite length_take; lia).
  rewrite length_take, Nat.min_l by lia.
  rewrite lookup_app_r by (rewrite length_take, length_drop; lia).
  rewrite length_take, length_drop, Nat.min_l by lia.
  rewrite lookup_drop. f_equal. lia.
Qed.

Lemma take_shift_left j n (buf : list event_data) :
  (j < n ≤ length buf)%nat →
  take (n - 1) (shift_left j n buf) = delete j (take n buf).
Proof.
  intros H. apply list_eq. intros k.
  destruct (decide (k < n - 1)%nat) as [Hk|Hk].
  - rewrite lookup_take_lt by done.
    destruct (decide (k < j)%nat) as [Hj|Hj].
    + rewrite lookup_shift_left_lt, list_lookup_delete_lt by done.
      by rewrite lookup_take_lt by lia.
    + rewrite lookup_shift_left_moved, list_lookup_delete_ge by lia.
      by rewrite lookup_take_lt by lia.
  - rewrite lookup_take_ge, list_lookup_delete_ge by lia.
    by rewrite lookup_take_ge by lia.
Qed.


(** *** The scan for the woke descriptor *)

Lemma run_load_event p i w buf e :
  w_bufs w !! p = Some buf → buf !! i = Some e →
  load_event p (Z.of_nat i) w = (Ok e, w).
Proof.
  intros Hb He. unfold load_event. rewrite Hb.
  rewrite (proj2 (Z.leb_le 0 (Z.of_nat i))) by lia. by rewrite Nat2Z.id, He.
Qed.

Lemma run_memmove_left p j n w buf :
  w_bufs w !! p = Some buf → (j < n ≤ length buf)%nat →
  memmove_events p (Z.of_nat j) (Z.of_nat j + 1) (Z.of_nat n - 1 - Z.of_nat j) w
  = (Ok tt, set_bufs (<[p := shift_left j n buf]> (w_bufs w)) w).
Proof.
  intros Hb H. unfold memmove_events. rewrite Hb.
  destruct (Z.of_nat n - 1 - Z.of_nat j <? 0) eqn:E1; [lia|].
  destruct (Z.of_nat n - 1 - Z.of_nat j =? 0) eqn:E2.
  - f_equal. apply world_eq; simpl; try done.
    symmetry. apply insert_id. rewrite Hb. f_equal.
    unfold shift_left. replace (n - 1 - j)%nat with 0%nat by lia.
    replace (n - 1)%nat with j by lia. simpl. by rewrite take_drop.
  - destruct ((0 <=? Z.of_nat j)
              && (Z.of_nat j + (Z.of_nat n - 1 - Z.of_nat j)
                  <=? Z.of_nat (length buf))
              && (0 <=? Z.of_nat j + 1)
              && (Z.of_nat j + 1 + (Z.of_nat n - 1 - Z.of_nat j)
                  <=? Z.of_nat (length buf))) eqn:E3.
    + do 3 f_equal. unfold shift_left.
      replace (Z.to_nat (Z.of_nat j)) with j by lia.
      replace (Z.to_nat (Z.of_nat n - 1 - Z.of_nat j)) with (n - 1 - j)%nat
        by lia.
      replace (Z.to_nat (Z.of_nat j + 1)) with (S j) by lia.
      replace (Z.to_nat (Z.of_nat j + (Z.of_nat n - 1 - Z.of_nat j)))
        with (n - 1)%nat by lia.
      done.
    + rewrite !andb_false_iff in E3. lia.
Qed.

Lemma strip_loop_scan a wokefd w d buf :
  w_wait w !! a = Some d → w_bufs w !! wd_events d = Some buf →
  0 ≤ wd_rv d ≤ Z.of_nat (length buf) → wd_rv d ≤ INT_MAX →
  ∀ k i, (i + k = Z.to_nat (wd_rv d))%nat →
  strip_loop (S k) a wokefd (Z.of_nat i) w =
  match find_woke wokefd (drop i (take (Z.to_nat (wd_rv d)) buf)) with
  | None => (Ok tt, w)
  | Some j => drain wokefd (after_removal a d buf (i + j) w)
  end.
Proof.
  intros Hd Hb Hrv Hmax. induction k as [|k IH]; intros i Hik.
  - rewrite drop_ge by (rewrite length_take; lia). simpl.
    unfold bind. rewrite (run_load_wait _ _ _ Hd).
    destruct (Z.of_nat i <? wd_rv d) eqn:E; [lia|]. done.
  - change (strip_loop (S (S k)) a wokefd (Z.of_nat i) w) with
      (bind (load_wait a) (λ d,
         if Z.of_nat i <? wd_rv d then
           bind (load_event (wd_events d) (Z.of_nat i)) (λ e,
             if ev_fd e =? wokefd then
               bind (assign_rv a (to_int (wd_rv d - 1))) (λ _,
                 bind (load_wait a) (λ d,
                   bind (memmove_events (wd_events d) (Z.of_nat i)
                           (Z.of_nat i + 1) (wd_rv d - Z.of_nat i))
                        (λ _, drain wokefd)))
             else strip_loop (S k) a wokefd (to_int (Z.of_nat i + 1)))
         else ret tt) w).
    unfold bind at 1. rewrite (run_load_wait _ _ _ Hd).
    destruct (Z.of_nat i <? wd_rv d) eqn:E; [|lia].
    destruct (lookup_lt_is_Some_2 buf i) as [e He]; [lia|].
    unfold bind at 1. rewrite (run_load_event _ _ _ _ _ Hb He).
    rewrite (drop_S _ e i) by (rewrite lookup_take_lt by lia; done).
    cbn [find_woke]. destruct (ev_fd e =? wokefd) eqn:Efd.
    + unfold bind at 1. rewrite (run_assign_rv _ _ _ _ Hd).
      rewrite to_int_id by (unfold INT_MAX in *; lia).
      unfold bind at 1. erewrite run_load_wait by (simpl; apply lookup_insert_eq).
      simpl. unfold bind.
      replace (wd_rv d - 1 - Z.of_nat i)
        with (Z.of_nat (Z.to_nat (wd_rv d)) - 1 - Z.of_nat i) by lia.
      rewrite (run_memmove_left _ _ _ _ buf) by (done || lia).
      rewrite Nat.add_0_r. done.
    + replace (Z.of_nat i + 1) with (Z.of_nat (S i)) by lia.
      rewrite to_int_id by (unfold INT_MAX in *; lia).
      rewrite IH by lia.
      destruct (find_woke wokefd _) as [j|]; simpl; [|done].
      by replace (i + S j)%nat with (S i + j)%nat by lia.
Qed.

Lemma strip_woke_scan a wokefd w d buf :
  w_wait w !! a = Some d → w_bufs w !! wd_events d = Some buf →
  0 ≤ wd_rv d ≤ Z.of_nat (length buf) → wd_rv d ≤ INT_MAX →
  strip_woke a wokefd w =
  match find_woke wokefd (take (Z.to_nat (wd_rv d)) buf) with
  | None => (Ok tt, w)
  | Some j => drain wokefd (after_removal a d buf j w)
  end.
Proof.
  intros Hd Hb Hrv Hmax. unfold strip_woke, bind.
  rewrite (run_load_wait _ _ _ Hd).
  by rewrite (strip_loop_scan a wokefd w d buf Hd Hb Hrv Hmax _ 0%nat).
Qed.

(** *** One iteration of [primitive-event-loop] *)

Lemma bind_ok {A B} (m : M A) (k : A → M B) w a w' :
  m w = (Ok a, w') → bind m k w = k a w'.
Proof. unfold bind. by intros ->. Qed.

Lemma run_event_loop_deposits env base timeout a w d buf :
  w_wait w !! a = Some d → w_bufs w !! wd_events d = Some buf →
  0 ≤ wd_rv d →
  wd_maxevents d ≤ Z.of_nat (length buf) → wd_maxevents d ≤ INT_MAX →
  Forall (λ c, c.2 = a) (fired base (w_regs w) (ready env)) →
  wd_rv d + Z.of_nat (length (fired base (w_regs w) (ready env)))
    ≤ wd_maxevents d →
  loop_ok env = true →
  (0 ≤ timeout → loopexit_ok env = true ∧ scm_c_time_units_per_second w ≠ 0) →
  run_event_loop env (mk_loop_data base timeout) w =
  (Ok tt,
   after_deposits a d buf (fired base (w_regs w) (ready env))
     (regs_after base (w_regs w) (ready env))
     (set_trace (w_trace w
                 ++ (if 0 <=? timeout
                     then [E_loopexit base (tv_sec_of w timeout)
                                      (tv_usec_of w timeout)]
                     else [])
                 ++ [E_loop base]) w)).
Proof.
  intros Hd Hb Hrv Hcap Hmax Hall Hfit Hloop Hexit.
  unfold run_event_loop. cbn [ld_timeout ld_base].
  set (w0 := set_trace (w_trace w ++ _ ++ [E_loop base]) w).
  assert (Hpre :
    (if 0 <=? timeout then
       bind get (λ w, if scm_c_time_units_per_second w =? 0 then fault
         else bind (event_base_loopexit env base (tv_sec_of w timeout)
                                        (tv_usec_of w timeout))
                (λ ret_, if ret_ =? -1 then
                   SCM_MISC_ERROR "primitive-event-loop"
                                  "event loop exit failed" []
                 else ret tt))
     else ret tt) w
    = (Ok tt, set_trace (w_trace w ++
                (if 0 <=? timeout
                 then [E_loopexit base (tv_sec_of w timeout)
                                  (tv_usec_of w timeout)]
                 else [])) w)).
  { destruct (0 <=? timeout) eqn:E.
    - destruct Hexit as [Hexit Hunits]; [lia|].
      unfold bind at 1, get.
      destruct (scm_c_time_units_per_second w =? 0) eqn:E0; [lia|].
      unfold event_base_loopexit, bind, log, modify, ret. rewrite Hexit.
      done.
    - unfold ret. f_equal. rewrite app_nil_r. by destruct w. }
  rewrite (bind_ok _ _ _ _ _ Hpre). clear Hpre.
  unfold event_base_loop, bind at 1. unfold bind at 1, log, modify.
  rewrite Hloop. cbn [w_trace set_trace].
  rewrite <- app_assoc. unfold bind at 1.
  match goal with
  | |- context [process_active _ _ ?W] => change W with w0
  end.
  rewrite (process_active_deposits base a (ready env) w0 d buf); try done.
Qed.

Lemma event_loop_run env lst wakefd wokefd timeout w l d buf :
  in_signed 32 wakefd = true → in_signed 32 wokefd = true →
  in_signed 64 timeout = true →
  h_data lst ≠ NULL →
  w_libevt w !! h_libevt lst = Some l →
  w_wait w !! h_data lst = Some d → w_bufs w !! wd_events d = Some buf →
  0 ≤ wd_rv d →
  wd_maxevents d ≤ Z.of_nat (length buf) → wd_maxevents d ≤ INT_MAX →
  let cbs := fired (le_base l) (w_regs w) (ready env) in
  Forall (λ c, c.2 = h_data lst) cbs →
  wd_rv d + Z.of_nat (length cbs) ≤ wd_maxevents d →
  loop_ok env = true →
  (timeout ≠ 0 → prepare_interrupted env = false) →
  (0 ≤ timeout → loopexit_ok env = true ∧ scm_c_time_units_per_second w ≠ 0) →
  let d1 := mk_wait_data (wd_rv d + Z.of_nat (length cbs)) (wd_events d)
                         (wd_maxevents d) in
  let buf1 := deposits (Z.to_nat (wd_rv d)) (map record_of cbs) buf in
  let w1 := after_wait (h_data lst) d buf wakefd (le_base l) timeout
                       (ready env) w in
  scm_primitive_event_loop env lst wakefd wokefd timeout w =
  match find_woke wokefd (take (Z.to_nat (wd_rv d1)) buf1) with
  | None => finish (h_data lst) w1
  | Some j =>
      bind (drain wokefd) (λ _, finish (h_data lst))
           (after_removal (h_data lst) d1 buf1 j w1)
  end.
Proof.
  intros Hwake Hwoke Htime Hnn Hl Hd Hb Hrv Hcap Hmax cbs Hall Hfit Hloop
         Hint Hexit d1 buf1 w1.
  unfold scm_primitive_event_loop, scm_to_int, scm_to_int64.
  rewrite Hwake, Hwoke, Htime.
  unfold bind at 1, ret at 1. unfold bind at 1, ret at 1.
  unfold bind at 1, ret at 1.
  destruct (h_data lst =? NULL)%N eqn:En; [apply N.eqb_eq in En; done|].
  unfold bind at 1, ret at 1.
  assert (Hw1 : w_wait w1 !! h_data lst = Some d1)
    by (simpl; apply lookup_insert_eq).
  assert (Hb1 : w_bufs w1 !! wd_events d1 = Some buf1)
    by (simpl; apply lookup_insert_eq).
  assert (Hlen1 : length buf1 = length buf) by apply length_deposits.
  assert (Hwait :
    bind (load_libevt (h_libevt lst)) (λ l,
      bind (if negb (timeout =? 0) then
              scm_without_guile
                (run_event_loop env (mk_loop_data (le_base l) timeout))
            else run_event_loop env (mk_loop_data (le_base l) timeout))
        (λ _, bind (if negb (timeout =? 0) then scm_c_wait_finished
                    else ret tt)
                (λ _, strip_woke (h_data lst) wokefd)))
      (if timeout =? 0 then w
       else set_trace (w_trace w ++ [E_prepare_to_wait_on_fd wakefd false]) w)
    = strip_woke (h_data lst) wokefd w1).
  { unfold bind at 1, load_libevt.
    destruct (timeout =? 0) eqn:E0; cbn [negb w_libevt set_trace]; rewrite Hl.
    - apply Z.eqb_eq in E0. subst timeout.
      erewrite bind_ok.
      2:{ apply (run_event_loop_deposits env (le_base l) 0 (h_data lst) _ d buf);
          try done. }
      unfold bind at 1, ret at 1. f_equal.
      unfold w1, after_wait, after_deposits, wait_prologue, wait_epilogue.
      apply world_eq; simpl; try done.
      rewrite ?app_nil_r, <- ?app_assoc. simpl. by rewrite ?app_nil_r.
    - unfold scm_without_guile. unfold bind at 1. unfold bind at 1, log, modify.
      erewrite bind_ok.
      2:{ apply (run_event_loop_deposits env (le_base l) timeout (h_data lst)
                   _ d buf); try done. }
      unfold bind at 1, log, modify, ret.
      unfold bind at 1, scm_c_wait_finished, log, modify. f_equal.
      unfold w1, after_wait, after_deposits, wait_prologue, wait_epilogue.
      rewrite E0.
      apply world_eq; simpl; try done.
      rewrite <- ?app_assoc. simpl. by rewrite <- ?app_assoc. }
  assert (Hstrip : strip_woke (h_data lst) wokefd w1 =
    match find_woke wokefd (take (Z.to_nat (wd_rv d1)) buf1) with
    | None => (Ok tt, w1)
    | Some j => drain wokefd (after_removal (h_data lst) d1 buf1 j w1)
    end).
  { apply strip_woke_scan; try done; unfold d1; simpl; lia. }
  destruct (timeout =? 0) eqn:E0; cbn [negb andb] in *.
  - unfold bind at 1, ret at 1. unfold bind at 1.
    rewrite Hwait, Hstrip.
    destruct (find_woke _ _); [|done]. unfold bind.
    by destruct (drain _ _) as [[] ?].
  - unfold bind at 1, scm_c_prepare_to_wait_on_fd. unfold bind at 1, log, modify.
    unfold ret at 1.
    rewrite Hint by (apply Z.eqb_neq in E0; done).
    unfold bind at 1. rewrite Hwait, Hstrip.
    destruct (find_woke _ _); [|done]. unfold bind.
    by destruct (drain _ _) as [[] ?].
Qed.
(** *** Overflow of the buffer during a pass *)

Lemma to_int_le z : 0 ≤ z → to_int z ≤ z.
Proof.
  intros H. unfold to_int, wrap_signed.
  change (2 ^ (32 - 1)) with 2147483648. change (2 ^ 32) with 4294967296.
  assert (0 ≤ z + 2147483648) as H1 by lia.
  assert (0 < 4294967296) as H2 by lia.
  pose proof (Z.mod_le (z + 2147483648) 4294967296 H1 H2). lia.
Qed.

Lemma to_int_max z : to_int z ≤ INT_MAX.
Proof.
  unfold to_int, wrap_signed, INT_MAX.
  change (2 ^ (32 - 1)) with 2147483648. change (2 ^ 32) with 4294967296.
  change (2 ^ 31) with 2147483648.
  assert (0 < 4294967296) as H2 by lia.
  pose proof (Z.mod_pos_bound (z + 2147483648) 4294967296 H2). lia.
Qed.

Lemma process_active_overflow base a rs : ∀ w d buf,
  w_wait w !! a = Some d → w_bufs w !! wd_events d = Some buf →
  0 ≤ wd_rv d →
  wd_maxevents d ≤ Z.of_nat (length buf) → wd_maxevents d ≤ INT_MAX →
  Forall (λ c, c.2 = a) (fired base (w_regs w) rs) →
  wd_maxevents d < wd_rv d + Z.of_nat (length (fired base (w_regs w) rs)) →
  fired base (w_regs w) rs ≠ [] →
  ∃ fd w' buf',
    process_active base rs w = (Throw (max_events_error fd), w') ∧
    w_bufs w' = <[wd_events d := buf']> (w_bufs w) ∧
    length buf' = length buf ∧
    (∀ i, wd_maxevents d ≤ Z.of_nat i → buf' !! i = buf !! i) ∧
    w_libevt w' = w_libevt w ∧ w_fds w' = w_fds w.
Proof.
  induction rs as [|r rs IH];
    intros w d buf Hd Hb Hrv Hcap Hmax Hall Hfit Hsome.
  - done.
  - simpl in *. unfold bind at 1. unfold activate, bind at 1, get.
    destruct (w_regs w !! r.1) as [reg|] eqn:Hreg; [|by apply IH].
    destruct (reg_pending reg && (reg_base reg =? base)%N) eqn:Hact;
      [|by apply IH].
    simpl in Hall, Hfit. apply Forall_cons in Hall as [Ha Hall]. simpl in Ha.
    unfold bind at 1, modify. unfold bind at 1, log, modify.
    destruct (reg_cb reg). simpl. rewrite Ha.
    set (w1 := set_trace _ (set_regs _ w)).
    destruct (decide (wd_maxevents d ≤ wd_rv d)) as [Hfull|Hroom].
    + rewrite (cb_func_full _ _ a w1 d) by done.
      exists (reg_fd reg), w1, buf. repeat split; try done.
      simpl. symmetry. by apply insert_id.
    + rewrite (cb_func_deposit _ _ a w1 d buf) by (done || lia).
      set (e := mk_event_data (reg_fd reg) (to_short r.2)).
      destruct (IH (set_wait (<[a := mk_wait_data (wd_rv d + 1) (wd_events d)
                                       (wd_maxevents d)]> (w_wait w1))
                      (set_bufs (<[wd_events d := <[Z.to_nat (wd_rv d) := e]> buf]>
                                   (w_bufs w1)) w1))
                   (mk_wait_data (wd_rv d + 1) (wd_events d) (wd_maxevents d))
                   (<[Z.to_nat (wd_rv d) := e]> buf))
        as (fd & w' & buf' & Hrun & Hbufs & Hlen & Hsame & Hle & Hfds).
      * simpl. apply lookup_insert_eq.
      * simpl. apply lookup_insert_eq.
      * simpl. lia.
      * simpl. rewrite length_insert. lia.
      * done.
      * done.
      * simpl. lia.
      * simpl. intros Hnil. rewrite Hnil in Hfit. simpl in Hfit. lia.
      * exists fd, w', buf'. simpl in *. repeat split; try done.
        -- by rewrite Hbufs, insert_insert_eq.
        -- by rewrite Hlen, length_insert.
        -- intros i Hi. rewrite Hsame by done.
           apply list_lookup_insert_ne. lia.
Qed.

(** *** Records stored by [deposits] *)

Lemma lookup_deposits_lt recs : ∀ i (buf : list event_data) k,
  (k < i)%nat → deposits i recs buf !! k = buf !! k.
Proof.
  induction recs as [|e recs IH]; intros i buf k Hk; simpl; [done|].
  rewrite IH by lia. apply list_lookup_insert_ne. lia.
Qed.

Lemma lookup_deposits_ge recs : ∀ i (buf : list event_data) k,
  (i + length recs ≤ k)%nat → deposits i recs buf !! k = buf !! k.
Proof.
  induction recs as [|e recs IH]; intros i buf k Hk; simpl in *; [done|].
  rewrite IH by lia. apply list_lookup_insert_ne. lia.
Qed.

Lemma lookup_deposits recs : ∀ i (buf : list event_data) k,
  (i + length recs ≤ length buf)%nat → (k < length recs)%nat →
  deposits i recs buf !! (i + k)%nat = recs !! k.
Proof.
  induction recs as [|e recs IH]; intros i buf k Hfit Hk; simpl in *; [lia|].
  destruct k as [|k]; simpl.
  - rewrite Nat.add_0_r, lookup_deposits_lt by lia.
    apply list_lookup_insert_eq. lia.
  - replace (i + S k)%nat with (S i + k)%nat by lia.
    apply IH; [rewrite length_insert|]; lia.
Qed.

Lemma take_deposits i recs (buf : list event_data) :
  (i + length recs ≤ length buf)%nat →
  take (i + length recs) (deposits i recs buf) = take i buf ++ recs.
Proof.
  intros Hfit. apply list_eq. intros k.
  destruct (decide (k < i + length recs)%nat) as [Hk|Hk].
  - rewrite lookup_take_lt by done.
    destruct (decide (k < i)%nat) as [Hi|Hi].
    + rewrite lookup_deposits_lt by done.
      rewrite lookup_app_l by (rewrite length_take; lia).
      by rewrite lookup_take_lt.
    + rewrite lookup_app_r by (rewrite length_take; lia).
      rewrite length_take, Nat.min_l by lia.
      replace k with (i + (k - i))%nat at 1 by lia.
      apply lookup_deposits; lia.
  - rewrite lookup_take_ge by lia. symmetry. apply lookup_ge_None.
    rewrite length_app, length_take. lia.
Qed.

(** ** What a computation adds to the trace *)

Lemma bind_Ok_inv {A B} (m : M A) (k : A → M B) w b w' :
  bind m k w = (Ok b, w') →
  ∃ a w1, m w = (Ok a, w1) ∧ k a w1 = (Ok b, w').
Proof.
  unfold bind. destruct (m w) as [[a| | |] w1]; try done. eauto.
Qed.

Lemma silent_emits {A} P (m : M A) : silent m → emits P m.
Proof.
  intros H w r w' Hrun. exists []. rewrite app_nil_r. split; [|done].
  by eapply H.
Qed.

Lemma emits_weaken {A} (P Q : effect → Prop) (m : M A) :
  (∀ e, P e → Q e) → emits P m → emits Q m.
Proof.
  intros HPQ H w r w' Hrun. destruct (H w r w' Hrun) as (t & Ht & HP).
  exists t. split; [done|]. by eapply Forall_impl.
Qed.

Lemma silent_bind {A B} (m : M A) (k : A → M B) :
  silent m → (∀ a, silent (k a)) → silent (bind m k).
Proof.
  intros Hm Hk w r w'. unfold bind.
  destruct (m w) as [[a| | |] w1] eqn:E; intros Hrun.
  - rewrite (Hk a w1 r w' Hrun). by eapply Hm.
  - injection Hrun as <- <-. by eapply Hm.
  - injection Hrun as <- <-. by eapply Hm.
  - injection Hrun as <- <-. by eapply Hm.
Qed.

Lemma emits_bind {A B} P (m : M A) (k : A → M B) :
  emits P m → (∀ a, emits P (k a)) → emits P (bind m k).
Proof.
  intros Hm Hk w r w'. unfold bind.
  destruct (m w) as [[a| | |] w1] eqn:E; intros Hrun;
    destruct (Hm w _ w1 E) as (t1 & Ht1 & HP1).
  - destruct (Hk a w1 r w' Hrun) as (t2 & Ht2 & HP2).
    exists (t1 ++ t2). split; [|by apply Forall_app].
    by rewrite Ht2, Ht1, app_assoc.
  - injection Hrun as <- <-. eauto.
  - injection Hrun as <- <-. eauto.
  - injection Hrun as <- <-. eauto.
Qed.

Lemma silent_ret {A} (a : A) : silent (ret a).
Proof. intros w r w' [= <- <-]. done. Qed.

Lemma silent_throw {A} e : silent (@throw A e).
Proof. intros w r w' [= <- <-]. done. Qed.

Lemma silent_fault {A} : silent (@fault A).
Proof. intros w r w' [= <- <-]. done. Qed.

Lemma silent_get : silent get.
Proof. intros w r w' [= <- <-]. done. Qed.

Lemma silent_modify f :
  (∀ w, w_trace (f w) = w_trace w) → silent (modify f).
Proof. intros H w r w' [= <- <-]. apply H. Qed.

Lemma emits_log (P : effect → Prop) e : P e → emits P (log e).
Proof.
  intros HP w r w' [= <- <-]. exists [e]. split; [done|].
  by apply Forall_singleton.
Qed.

Lemma silent_load_wait p : silent (load_wait p).
Proof.
  intros w r w'. unfold load_wait. destruct (w_wait w !! p); by intros [= <- <-].
Qed.

Lemma silent_store_wait p d : silent (store_wait p d).
Proof.
  intros w r w'. unfold store_wait.
  destruct (w_wait w !! p); by intros [= <- <-].
Qed.

Lemma silent_assign_rv p v : silent (assign_rv p v).
Proof.
  apply silent_bind; [apply silent_load_wait|].
  intros d. apply silent_store_wait.
Qed.

Lemma silent_load_libevt p : silent (load_libevt p).
Proof.
  intros w r w'. unfold load_libevt.
  destruct (w_libevt w !! p); by intros [= <- <-].
Qed.

Lemma silent_load_event p i : silent (load_event p i).
Proof.
  intros w r w'. unfold load_event.
  destruct (w_bufs w !! p) as [buf|]; [|by intros [= <- <-]].
  destruct (0 <=? i); [|by intros [= <- <-]].
  destruct (buf !! Z.to_nat i); by intros [= <- <-].
Qed.

Lemma silent_store_event p i e : silent (store_event p i e).
Proof.
  intros w r w'. unfold store_event.
  destruct (w_bufs w !! p) as [buf|]; [|by intros [= <- <-]].
  destruct ((0 <=? i) && (i <? Z.of_nat (length buf))); by intros [= <- <-].
Qed.

Lemma silent_memmove_events p dst src n : silent (memmove_events p dst src n).
Proof.
  intros w r w'. unfold memmove_events.
  destruct (w_bufs w !! p) as [buf|]; [|by intros [= <- <-]].
  destruct (n <? 0); [by intros [= <- <-]|].
  destruct (n =? 0); [by intros [= <- <-]|].
  match goal with |- context [if ?c then _ else _] => destruct c end;
    by intros [= <- <-].
Qed.

Lemma silent_cb_func fd what arg : silent (cb_func fd what arg).
Proof.
  unfold cb_func. apply silent_bind; [apply silent_load_wait|]. intros d.
  destruct (wd_maxevents d <=? wd_rv d); [apply silent_throw|].
  apply silent_bind; [apply silent_store_event|]. intros _.
  apply silent_bind; [apply silent_load_wait|]. intros d'.
  apply silent_assign_rv.
Qed.

Lemma emits_activate base r : emits callback_call (activate base r).
Proof.
  unfold activate. apply emits_bind; [apply silent_emits, silent_get|].
  intros w. destruct (w_regs w !! r.1) as [reg|];
    [|apply silent_emits, silent_ret].
  destruct (reg_pending reg && (reg_base reg =? base)%N);
    [|apply silent_emits, silent_ret].
  apply emits_bind; [by apply silent_emits, silent_modify|]. intros _.
  apply emits_bind; [by apply emits_log|]. intros _.
  destruct (reg_cb reg). apply silent_emits, silent_cb_func.
Qed.

Lemma emits_process_active base rs :
  emits callback_call (process_active base rs).
Proof.
  induction rs as [|r rs IH]; simpl; [apply silent_emits, silent_ret|].
  apply emits_bind; [apply emits_activate|]. by intros _.
Qed.

Lemma emits_event_base_loop env base :
  emits wait_effect (event_base_loop env base).
Proof.
  unfold event_base_loop. apply emits_bind; [by apply emits_log|]. intros _.
  destruct (loop_ok env); [|apply silent_emits, silent_ret].
  apply emits_bind; [|intros _; apply silent_emits, silent_ret].
  eapply emits_weaken; [|apply emits_process_active]. by intros [].
Qed.

Lemma emits_run_event_loop env p : emits wait_effect (run_event_loop env p).
Proof.
  unfold run_event_loop. apply emits_bind.
  - destruct (0 <=? ld_timeout p); [|apply silent_emits, silent_ret].
    apply emits_bind; [apply silent_emits, silent_get|]. intros w.
    destruct (scm_c_time_units_per_second w =? 0);
      [apply silent_emits, silent_fault|].
    apply emits_bind.
    + unfold event_base_loopexit. apply emits_bind; [by apply emits_log|].
      intros _. apply silent_emits, silent_ret.
    + intros z. destruct (z =? -1); apply silent_emits;
        [apply silent_throw | apply silent_ret].
  - intros _. apply emits_bind; [apply emits_event_base_loop|].
    intros z. destruct (z =? -1); apply silent_emits;
      [apply silent_throw | apply silent_ret].
Qed.

Lemma emits_sys_read fd count : emits (is_read_on fd) (sys_read fd count).
Proof.
  intros w r w'. unfold sys_read.
  destruct (w_fds w !! fd) as [[p room nb|e]|].
  - destruct (p =? 0)%N.
    + destruct nb; intros [= <- <-].
      * eexists [_]. split; [done|]. apply Forall_singleton. by eexists.
      * exists []. by rewrite app_nil_r.
    + intros [= <- <-]. eexists [_]. split; [done|].
      apply Forall_singleton. by eexists.
  - intros [= <- <-]. eexists [_]. split; [done|].
    apply Forall_singleton. by eexists.
  - intros [= <- <-]. eexists [_]. split; [done|].
    apply Forall_singleton. by eexists.
Qed.

Lemma emits_drain_loop fuel fd : emits (is_read_on fd) (drain_loop fuel fd).
Proof.
  induction fuel as [|fuel IH]; simpl.
  - intros w r w' [= <- <-]. exists []. by rewrite app_nil_r.
  - apply emits_bind; [apply emits_sys_read|]. intros n.
    destruct (n =? 32); [done|apply silent_emits, silent_ret].
Qed.

Lemma emits_drain fd : emits (is_read_on fd) (drain fd).
Proof.
  unfold drain. apply emits_bind; [apply silent_emits, silent_get|].
  intros w. apply emits_drain_loop.
Qed.

Lemma emits_strip_loop fuel a wokefd :
  ∀ i, emits (is_read_on wokefd) (strip_loop fuel a wokefd i).
Proof.
  induction fuel as [|fuel IH]; intros i; simpl.
  - intros w r w' [= <- <-]. exists []. by rewrite app_nil_r.
  - apply emits_bind; [apply silent_emits, silent_load_wait|]. intros d.
    destruct (i <? wd_rv d); [|apply silent_emits, silent_ret].
    apply emits_bind; [apply silent_emits, silent_load_event|]. intros e.
    destruct (ev_fd e =? wokefd); [|apply IH].
    apply emits_bind; [apply silent_emits, silent_assign_rv|]. intros _.
    apply emits_bind; [apply silent_emits, silent_load_wait|]. intros d'.
    apply emits_bind; [apply silent_emits, silent_memmove_events|]. intros _.
    apply emits_drain.
Qed.

Lemma emits_strip_woke a wokefd :
  emits (is_read_on wokefd) (strip_woke a wokefd).
Proof.
  unfold strip_woke. apply emits_bind; [apply silent_emits, silent_load_wait|].
  intros d. apply emits_strip_loop.
Qed.

Lemma silent_finish a : silent (finish a).
Proof.
  unfold finish. apply silent_bind; [apply silent_load_wait|]. intros d.
  apply silent_bind; [apply silent_assign_rv|]. intros _. apply silent_ret.
Qed.

(** * The claims *)

(** ** The collector callback stays inside the buffer *)

(** C1. Each invocation of the collector callback, on a [wait_data]
    whose count is not negative and whose capacity is at most the
    number of records its buffer holds: when the count has reached the
    capacity the callback raises the "max events fired" error and the
    world is the one it was called on, so nothing has been written;
    otherwise it stores the (descriptor, mask) record in the slot whose
    index is the count, a slot of the buffer, and adds one to the
    count, leaving the hypotheses true for the next invocation.  However
    the invocation ends, no slot at or past the capacity changes. *)
Theorem cb_func_bounded fd what arg w d buf :
  w_wait w !! arg = Some d →
  w_bufs w !! wd_events d = Some buf →
  0 ≤ wd_rv d →
  wd_maxevents d ≤ Z.of_nat (length buf) →
  wd_maxevents d ≤ INT_MAX →
  (wd_maxevents d ≤ wd_rv d →
     cb_func fd what arg w = (Throw (max_events_error fd), w)) ∧
  (wd_rv d < wd_maxevents d →
     ∃ w',
       cb_func fd what arg w = (Ok tt, w') ∧
       (Z.to_nat (wd_rv d) < length buf)%nat ∧
       w_bufs w' = <[wd_events d :=
                       <[Z.to_nat (wd_rv d) := mk_event_data fd what]> buf]>
                     (w_bufs w) ∧
       w_wait w' = <[arg := mk_wait_data (wd_rv d + 1) (wd_events d)
                                         (wd_maxevents d)]> (w_wait w) ∧
       wd_rv d + 1 ≤ wd_maxevents d) ∧
  (let out := cb_func fd what arg w in
   out.1 ≠ Fault ∧
   ∃ buf', w_bufs out.2 !! wd_events d = Some buf' ∧
           length buf' = length buf ∧
           ∀ i, wd_maxevents d ≤ Z.of_nat i → buf' !! i = buf !! i).
Proof.
  intros Hd Hb Hrv Hcap Hmax. split; [|split].
  - intros Hfull. by apply (cb_func_full fd what arg w d).
  - intros Hroom. eexists. split.
    + apply (cb_func_deposit fd what arg w d buf); (done || lia).
    + simpl. repeat split; (done || lia).
  - cbv zeta.
    destruct (decide (wd_maxevents d ≤ wd_rv d)) as [Hfull|Hroom].
    + rewrite (cb_func_full fd what arg w d) by done.
      split; [done|]. by exists buf.
    + rewrite (cb_func_deposit fd what arg w d buf) by (done || lia).
      split; [done|]. eexists. split; [simpl; apply lookup_insert_eq|].
      split; [apply length_insert|].
      intros i Hi. apply list_lookup_insert_ne. lia.
Qed.

Lemma cb_func_bounded_witness :
  (wd_maxevents ex_data ≤ wd_rv ex_data →
     cb_func 7 EV_READ 3%N ex_watching
       = (Throw (max_events_error 7), ex_watching)) ∧
  (wd_rv ex_data < wd_maxevents ex_data →
     ∃ w',
       cb_func 7 EV_READ 3%N ex_watching = (Ok tt, w') ∧
       (Z.to_nat (wd_rv ex_data) < length ex_buf)%nat ∧
       w_bufs w' = <[wd_events ex_data :=
                       <[Z.to_nat (wd_rv ex_data) := mk_event_data 7 EV_READ]>
                         ex_buf]> (w_bufs ex_watching) ∧
       w_wait w' = <[3%N := mk_wait_data (wd_rv ex_data + 1)
                                         (wd_events ex_data)
                                         (wd_maxevents ex_data)]>
                     (w_wait ex_watching) ∧
       wd_rv ex_data + 1 ≤ wd_maxevents ex_data) ∧
  (let out := cb_func 7 EV_READ 3%N ex_watching in
   out.1 ≠ Fault ∧
   ∃ buf', w_bufs out.2 !! wd_events ex_data = Some buf' ∧
           length buf' = length ex_buf ∧
           ∀ i, wd_maxevents ex_data ≤ Z.of_nat i → buf' !! i = ex_buf !! i).
Proof.
  apply (cb_func_bounded 7 EV_READ 3%N ex_watching ex_data ex_buf);
    first [reflexivity | vm_compute; discriminate].
Defined.

(** ** Failures of the wake write and of the allocations *)

(** C8. [primitive-event-wake] makes one [write] of one byte on the
    descriptor it is given.  It returns normally when the byte is
    written and when the write fails with [EAGAIN] or [EWOULDBLOCK];
    every other failure of the write raises a system error carrying
    that [errno].  [primitive-create-event-base] raises an error when
    the reactor cannot be allocated, and [primitive-add-event] raises
    one when the registration cannot be allocated; in both cases the
    world is left as it was. *)
Theorem wake_and_allocation_failures :
  (∀ wakefd w, in_signed 32 wakefd = true →
     match w_fds w !! wakefd with
     | Some (FdOpen pending room nonblock) =>
         if (room =? 0)%N then
           if nonblock then
             scm_primitive_event_wake wakefd w =
             (Ok tt, set_trace (w_trace w ++ [E_write wakefd (-1)])
                       (set_errno EAGAIN w))
           else scm_primitive_event_wake wakefd w = (Hang, w)
         else
           scm_primitive_event_wake wakefd w =
           (Ok tt, set_trace (w_trace w ++ [E_write wakefd 1])
                     (set_fds (<[wakefd := FdOpen pending (room - 1) nonblock]>
                                 (w_fds w)) w))
     | Some (FdBroken e) =>
         scm_primitive_event_wake wakefd w =
         (if bool_decide (e = EAGAIN ∨ e = EWOULDBLOCK) then Ok tt
          else Throw (SysError "primitive-event-wake" e),
          set_trace (w_trace w ++ [E_write wakefd (-1)]) (set_errno e w))
     | None =>
         scm_primitive_event_wake wakefd w =
         (Throw (SysError "primitive-event-wake" EBADF),
          set_trace (w_trace w ++ [E_write wakefd (-1)]) (set_errno EBADF w))
     end) ∧
  (∀ eventsv w,
     scm_primitive_create_event_base false eventsv w =
     (Throw (MiscError "primitive-create-event-base"
                       "couldn't allocate event_base" []), w)) ∧
  (∀ event_add_ok lst fd ev w l,
     in_signed 32 fd = true → in_signed 16 ev = true →
     w_libevt w !! h_libevt lst = Some l →
     scm_primitive_add_event false event_add_ok lst fd ev w =
     (Throw (MiscError "primitive-add-event" "couldn't allocate event" []),
      w)).
Proof.
  split; [|split].
  - intros wakefd w Hfd. unfold scm_primitive_event_wake, scm_to_int.
    rewrite Hfd. unfold bind, ret, get, sys_write.
    destruct (w_fds w !! wakefd) as [[p room nb|e]|].
    + destruct (room =? 0)%N; [destruct nb|]; reflexivity.
    + destruct e; reflexivity.
    + reflexivity.
  - intros eventsv w. done.
  - intros event_add_ok lst fd ev w l Hfd Hev Hl.
    unfold scm_primitive_add_event, scm_to_int, scm_to_short.
    rewrite Hfd, Hev. unfold bind at 1, ret at 1. unfold bind at 1, ret at 1.
    unfold bind, load_libevt. rewrite Hl. reflexivity.
Qed.

Lemma wake_and_allocation_failures_witness :
  scm_primitive_event_wake 5 ex_watching =
  (Ok tt, set_trace (w_trace ex_watching ++ [E_write 5 1])
            (set_fds (<[5 := FdOpen 70 (10 - 1) true]> (w_fds ex_watching))
                     ex_watching)) ∧
  scm_primitive_event_wake 6 ex_watching =
  (Throw (SysError "primitive-event-wake" EBADF),
   set_trace (w_trace ex_watching ++ [E_write 6 (-1)])
             (set_errno EBADF ex_watching)) ∧
  scm_primitive_add_event false true ex_lst 7 EV_READ ex_created =
  (Throw (MiscError "primitive-add-event" "couldn't allocate event" []),
   ex_created).
Proof.
  destruct wake_and_allocation_failures as (Hwake & _ & Hadd).
  split; [|split].
  - apply (Hwake 5 ex_watching). reflexivity.
  - apply (Hwake 6 ex_watching). reflexivity.
  - apply (Hadd true ex_lst 7 EV_READ ex_created ex_libevt); reflexivity.
Defined.

(** ** The deadline of the wait *)

Lemma to_int64_id z : - 2 ^ 63 ≤ z < 2 ^ 63 → to_int64 z = z.
Proof.
  unfold to_int64, wrap_signed. change (2 ^ (64 - 1)) with (2 ^ 63).
  change (2 ^ 64) with (2 * 2 ^ 63). intros H.
  rewrite Z.mod_small; lia.
Qed.

Lemma to_uint64_id z : 0 ≤ z < 2 ^ 64 → to_uint64 z = z.
Proof. unfold to_uint64. intros H. by apply Z.mod_small. Qed.

Lemma init_fibers_libevt_factors w :
  scm_c_time_units_per_second w ≠ 0 →
  ∃ w', init_fibers_libevt w = (Ok tt, w') ∧
        scm_c_time_units_per_second w' = scm_c_time_units_per_second w ∧
        factors_initialised w' ∧
        w_defs w' !! "EVPERSIST" = Some EV_PERSIST.
Proof.
  intros HU. unfold init_fibers_libevt, bind at 1, get.
  destruct (scm_c_time_units_per_second w =? 0) eqn:E; [lia|].
  eexists. split; [reflexivity|]. simpl. repeat split.
  by repeat (rewrite lookup_insert_ne by done); rewrite lookup_insert_eq.
Qed.

Lemma timeval_fields w T :
  0 < scm_c_time_units_per_second w < 2 ^ 63 →
  factors_initialised w →
  0 ≤ T < 2 ^ 63 →
  let U := scm_c_time_units_per_second w in
  tv_sec_of w T = T `div` U ∧
  tv_usec_of w T =
    (if 1000000 <? U then (T `mod` U) `div` (U `div` 1000000)
     else (T `mod` U) * (1000000 `div` U)).
Proof.
  intros HU [Htu Hmu] HT U. fold U in HU, Htu, Hmu.
  assert (2 ^ 64 = 2 * 2 ^ 63) as H64 by reflexivity.
  assert (0 < 2 ^ 63) as H63 by reflexivity.
  assert (0 ≤ T `div` U ≤ T) as Hq.
  { split; [apply Z.div_pos; lia|]. apply Z.div_le_upper_bound; nia. }
  assert (0 ≤ T `mod` U < U) as Hr by (apply Z.mod_pos_bound; lia).
  assert (0 ≤ U `div` 1000000 ≤ U) as Hf.
  { split; [apply Z.div_pos; lia|]. apply Z.div_le_upper_bound; lia. }
  assert (0 ≤ 1000000 `div` U ≤ 1000000) as Hg.
  { split; [apply Z.div_pos; lia|]. apply Z.div_le_upper_bound; nia. }
  assert ((1000000 `div` U) * U ≤ 1000000) as Hgu.
  { rewrite Z.mul_comm. apply Z.mul_div_le. lia. }
  unfold tv_sec_of, tv_usec_of. fold U. rewrite Htu, Hmu.
  rewrite !Z.quot_div_nonneg, Z.rem_mod_nonneg by lia.
  rewrite (to_uint64_id (U `div` 1000000)) by lia.
  rewrite (to_uint64_id (1000000 `div` U)) by lia.
  rewrite (to_uint64_id (T `mod` U)) by lia.
  split; [apply to_int64_id; lia|].
  destruct (0 <? U `div` 1000000) eqn:Etu.
  - assert (0 < U `div` 1000000) as Hpos by lia.
    assert (1000000 ≤ U) as HUbig.
    { destruct (Z.lt_ge_cases U 1000000) as [Hlt|]; [|lia].
      rewrite Z.div_small in Hpos; lia. }
    assert (0 ≤ (T `mod` U) `div` (U `div` 1000000) ≤ T `mod` U) as Hd.
    { split; [apply Z.div_pos; lia|]. apply Z.div_le_upper_bound; nia. }
    rewrite to_int64_id by lia.
    destruct (1000000 <? U) eqn:EU; [done|].
    assert (U = 1000000) as -> by lia.
    change (1000000 `div` 1000000) with 1. rewrite Z.div_1_r. lia.
  - assert (U `div` 1000000 = 0) as Hz by lia.
    assert (U < 1000000) as HUsmall.
    { apply Z.div_small_iff in Hz; lia. }
    destruct (1000000 <? U) eqn:EU; [lia|].
    assert (0 ≤ T `mod` U * (1000000 `div` U) ≤ 1000000) as Hp by nia.
    rewrite to_uint64_id by lia. apply to_int64_id. lia.
Qed.

(** The microseconds are whole ones, rounded down: when a microsecond
    is [k] time units, [tv_usec] is the quotient of the remainder by
    [k]; when a time unit is [k] microseconds, it is [k] times the
    remainder. *)
Lemma tv_usec_whole_microseconds w T :
  0 < scm_c_time_units_per_second w < 2 ^ 63 →
  factors_initialised w →
  0 ≤ T < 2 ^ 63 →
  let U := scm_c_time_units_per_second w in
  (∀ k, 0 < k → U = k * 1000000 →
     k * tv_usec_of w T ≤ T `mod` U < k * (tv_usec_of w T + 1) ∧
     0 ≤ tv_usec_of w T < 1000000) ∧
  (∀ k, 0 < k → 1000000 = k * U → tv_usec_of w T = k * (T `mod` U)).
Proof.
  intros HU Hinit HT U.
  destruct (timeval_fields w T HU Hinit HT) as [_ Husec]. fold U in Husec, HU.
  assert (0 ≤ T `mod` U < U) as Hr by (apply Z.mod_pos_bound; lia).
  split.
  - intros k Hk HUk.
    assert (U `div` 1000000 = k) as Hdiv by (rewrite HUk; by apply Z.div_mul).
    assert (k * ((T `mod` U) `div` k) ≤ T `mod` U
            < k * ((T `mod` U) `div` k + 1)) as Hfloor.
    { split; [apply Z.mul_div_le; lia|].
      pose proof (Z.mul_succ_div_gt (T `mod` U) k Hk). lia. }
    rewrite Husec, Hdiv. destruct (1000000 <? U) eqn:E.
    + split; [done|]. split; [apply Z.div_pos; lia|].
      apply Z.div_lt_upper_bound; lia.
    + assert (k = 1) as -> by nia. assert (U = 1000000) as HU1 by lia.
      replace (1000000 `div` U) with 1 by (by rewrite HU1). lia.
  - intros k Hk HUk. rewrite Husec.
    assert (1000000 `div` U = k) as Hdiv by (rewrite HUk; apply Z.div_mul; lia).
    rewrite Hdiv. destruct (1000000 <? U) eqn:E; [nia|lia].
Qed.





(** ** The outcome of one iteration *)

Lemma run_finish a w d :
  w_wait w !! a = Some d →
  finish a w =
  (Ok (wd_rv d),
   set_wait (<[a := mk_wait_data 0 (wd_events d) (wd_maxevents d)]> (w_wait w))
            w).
Proof.
  intros Hd. unfold finish, bind at 1. rewrite (run_load_wait _ _ _ Hd).
  unfold bind. by rewrite (run_assign_rv _ _ _ _ Hd).
Qed.

Lemma length_collected d (buf : list event_data) cbs :
  0 ≤ wd_rv d ≤ Z.of_nat (length buf) →
  Z.of_nat (length (collected d buf cbs)) = wd_rv d + Z.of_nat (length cbs).
Proof.
  intros H. unfold collected.
  rewrite length_app, length_take, length_map. lia.
Qed.

Lemma take_collected d (buf : list event_data) cbs :
  0 ≤ wd_rv d →
  wd_rv d + Z.of_nat (length cbs) ≤ Z.of_nat (length buf) →
  take (Z.to_nat (wd_rv d + Z.of_nat (length cbs)))
       (deposits (Z.to_nat (wd_rv d)) (map record_of cbs) buf)
  = collected d buf cbs.
Proof.
  intros H0 H. unfold collected.
  replace (Z.to_nat (wd_rv d + Z.of_nat (length cbs)))
    with (Z.to_nat (wd_rv d) + length (map record_of cbs))%nat
    by (rewrite length_map; lia).
  apply take_deposits. rewrite length_map. lia.
Qed.

Lemma length_remove_woke wokefd l :
  length (remove_woke wokefd l)
  = match find_woke wokefd l with
    | None => length l
    | Some _ => (length l - 1)%nat
    end.
Proof.
  destruct (find_woke wokefd l) as [j|] eqn:E.
  - rewrite (remove_woke_Some _ _ _ E).
    pose proof (find_woke_lt _ _ _ E). rewrite length_delete; [lia|].
    by apply lookup_lt_is_Some_2.
  - by rewrite (remove_woke_None _ _ E).
Qed.

Lemma take_result_buffer wokefd d (buf : list event_data) cbs :
  0 ≤ wd_rv d →
  wd_rv d + Z.of_nat (length cbs) ≤ Z.of_nat (length buf) →
  take (length (remove_woke wokefd (collected d buf cbs)))
       (result_buffer wokefd d buf cbs)
  = remove_woke wokefd (collected d buf cbs).
Proof.
  intros H0 H. unfold result_buffer.
  pose proof (length_collected d buf cbs ltac:(lia)) as Hlen.
  assert (Htake : take (length (collected d buf cbs))
                    (deposits (Z.to_nat (wd_rv d)) (map record_of cbs) buf)
                  = collected d buf cbs).
  { rewrite <- (take_collected d buf cbs H0 H) at 2. f_equal. lia. }
  rewrite length_remove_woke.
  destruct (find_woke wokefd (collected d buf cbs)) as [j|] eqn:E.
  - rewrite (remove_woke_Some _ _ _ E).
    pose proof (find_woke_lt _ _ _ E).
    rewrite take_shift_left by (rewrite length_deposits; lia).
    by rewrite Htake.
  - by rewrite (remove_woke_None _ _ E).
Qed.

(** The shape of the world a completed iteration leaves. *)
Lemma event_loop_outcome env lst wakefd wokefd timeout w l d buf :
  iteration_ready env lst wakefd wokefd timeout w l d buf →
  let cbs := fired (le_base l) (w_regs w) (ready env) in
  let c := collected d buf cbs in
  (is_Some (find_woke wokefd c) → drains_freely w wokefd = true) →
  ∃ w' reads,
    scm_primitive_event_loop env lst wakefd wokefd timeout w
      = (Ok (Z.of_nat (length (remove_woke wokefd c))), w') ∧
    w_wait w' = <[h_data lst := mk_wait_data 0 (wd_events d) (wd_maxevents d)]>
                  (w_wait w) ∧
    w_bufs w' = <[wd_events d := result_buffer wokefd d buf cbs]> (w_bufs w) ∧
    w_regs w' = regs_after (le_base l) (w_regs w) (ready env) ∧
    w_libevt w' = w_libevt w ∧
    w_trace w' = w_trace w ++ wait_prologue w wakefd (le_base l) timeout
                 ++ map callback_effect cbs ++ wait_epilogue timeout ++ reads ∧
    Forall (is_read_on wokefd) reads ∧
    (find_woke wokefd c = None → reads = [] ∧ w_fds w' = w_fds w) ∧
    (is_Some (find_woke wokefd c) → reads ≠ []).
Proof.
  intros [Hwake Hwoke Htime Hnn Hl Hd Hb Hrv Hcap Hmax Hall Hfit Hloop Hint
          Hexit] cbs c Hfree.
  pose proof (event_loop_run env lst wakefd wokefd timeout w l d buf) as Hrun.
  cbv zeta in Hrun. rewrite Hrun by done. clear Hrun. cbn [wd_rv].
  fold cbs in Hfit, Hall |- *.
  rewrite take_collected by lia. fold c.
  assert (Hlenc : Z.of_nat (length c) = wd_rv d + Z.of_nat (length cbs)).
  { apply length_collected. lia. }
  rewrite length_remove_woke. unfold result_buffer. fold c.
  set (d1 := mk_wait_data (wd_rv d + Z.of_nat (length cbs)) (wd_events d)
                          (wd_maxevents d)).
  set (buf1 := deposits (Z.to_nat (wd_rv d)) (map record_of cbs) buf).
  set (w1 := after_wait (h_data lst) d buf wakefd (le_base l) timeout
                        (ready env) w).
  destruct (find_woke wokefd c) as [j|] eqn:Efind.
  - destruct (drain_returns wokefd (after_removal (h_data lst) d1 buf1 j w1))
      as (w2 & Hdrain & Hd2).
    { unfold drains_freely. simpl. apply Hfree. by eexists. }
    destruct Hd2 as (_ & _ & _ & Hwait2 & Hlib2 & Hbufs2 & Hregs2 & _ & _
                     & reads & Htrace2 & Hne & Hreads).
    unfold bind. rewrite Hdrain.
    rewrite (run_finish _ w2 (mk_wait_data (wd_rv d1 - 1) (wd_events d)
                                           (wd_maxevents d))).
    2:{ rewrite Hwait2. simpl. apply lookup_insert_eq. }
    exists (set_wait (<[h_data lst := mk_wait_data 0 (wd_events d)
                                        (wd_maxevents d)]> (w_wait w2)) w2),
           reads.
    pose proof (find_woke_lt _ _ _ Efind).
    split. { simpl. do 2 f_equal. lia. }
    split. { simpl. rewrite Hwait2. simpl. by rewrite !insert_insert_eq. }
    split.
    { simpl. rewrite Hbufs2. simpl. rewrite insert_insert_eq.
      do 2 f_equal. lia. }
    split. { simpl. by rewrite Hregs2. }
    split. { simpl. by rewrite Hlib2. }
    split. { simpl. rewrite Htrace2. simpl. by rewrite <- !app_assoc. }
    done.
  - rewrite (run_finish _ w1 d1) by (simpl; apply lookup_insert_eq).
    exists (set_wait (<[h_data lst := mk_wait_data 0 (wd_events d)
                                        (wd_maxevents d)]> (w_wait w1)) w1),
           [].
    split. { simpl. do 2 f_equal. lia. }
    split. { simpl. by rewrite insert_insert_eq. }
    split. { done. }
    split. { done. }
    split. { done. }
    split. { simpl. by rewrite app_nil_r. }
    split. { done. }
    split. { done. }
    by intros [? ?].
Qed.

(** ** The wake record *)

Lemma find_woke_is_Some wokefd l :
  (∃ e, e ∈ l ∧ ev_fd e = wokefd) → is_Some (find_woke wokefd l).
Proof.
  intros (e & Hin & Hfd).
  destruct (find_woke wokefd l) as [j|] eqn:E; [by eexists|].
  apply find_woke_None in E. rewrite Forall_forall in E.
  by destruct (E e Hin).
Qed.

Lemma delete_only_woke wokefd l j :
  find_woke wokefd l = Some j → count_woke wokefd l = 1%nat →
  Forall (λ e, ev_fd e ≠ wokefd) (delete j l).
Proof.
  unfold count_woke. revert j.
  induction l as [|e l IH]; intros j; simpl; [done|].
  rewrite filter_cons. destruct (ev_fd e =? wokefd) eqn:E.
  - apply Z.eqb_eq in E. intros [= <-]. rewrite decide_True by done.
    simpl. intros [= Hlen]. apply nil_length_inv in Hlen.
    apply Forall_forall. intros x Hx Hfd.
    assert (x ∈ filter (λ e, ev_fd e = wokefd) l) as Hin
      by (by apply list_elem_of_filter).
    rewrite Hlen in Hin. by apply not_elem_of_nil in Hin.
  - apply Z.eqb_neq in E. rewrite decide_False by done.
    destruct (find_woke wokefd l) as [j'|]; simpl; [|done].
    intros [= <-] Hlen. simpl. constructor; [done|]. by apply IH.
Qed.

(** C2, as the code has it.  When the wait of an iteration completes and
    some collected record is on the woke descriptor, the iteration
    returns the number of collected records less one, and its result
    set is the collected records with the first record on the woke
    descriptor taken out, the later ones each one slot to the left.
    When exactly one collected record was on the woke descriptor, no
    record of the result set is on it. *)
Theorem event_loop_removes_first_woke
    env lst wakefd wokefd timeout w l d buf :
  iteration_ready env lst wakefd wokefd timeout w l d buf →
  drains_freely w wokefd = true →
  let c := collected d buf (fired (le_base l) (w_regs w) (ready env)) in
  (∃ e, e ∈ c ∧ ev_fd e = wokefd) →
  ∃ j w' buf',
    find_woke wokefd c = Some j ∧
    scm_primitive_event_loop env lst wakefd wokefd timeout w
      = (Ok (Z.of_nat (length c) - 1), w') ∧
    w_bufs w' !! wd_events d = Some buf' ∧
    take (length c - 1) buf' = delete j c ∧
    (count_woke wokefd c = 1%nat →
     Forall (λ e, ev_fd e ≠ wokefd) (take (length c - 1) buf')).
Proof.
  intros Hready Hfree c Hwoke.
  destruct (find_woke_is_Some _ _ Hwoke) as [j Hj].
  destruct (event_loop_outcome env lst wakefd wokefd timeout w l d buf Hready)
    as (w' & reads & Hrun & _ & Hbufs & _).
  { done. }
  fold c in Hrun, Hbufs.
  pose proof (find_woke_lt _ _ _ Hj) as Hlt.
  assert (Htake : take (length c - 1)
                       (result_buffer wokefd d buf
                          (fired (le_base l) (w_regs w) (ready env)))
                  = delete j c).
  { rewrite <- (remove_woke_Some _ _ _ Hj). unfold c.
    rewrite <- take_result_buffer; [|apply Hready|].
    - f_equal. fold c. rewrite length_remove_woke, Hj. done.
    - pose proof (ir_fit _ _ _ _ _ _ _ _ _ Hready).
      pose proof (ir_capacity _ _ _ _ _ _ _ _ _ Hready). lia. }
  exists j, w', (result_buffer wokefd d buf
                   (fired (le_base l) (w_regs w) (ready env))).
  split; [done|]. split.
  { rewrite Hrun. do 2 f_equal. rewrite length_remove_woke, Hj. lia. }
  split. { rewrite Hbufs. apply lookup_insert_eq. }
  split; [done|].
  intros Hone. rewrite Htake. by apply delete_only_woke.
Qed.

Lemma ex_watching_ready rs timeout :
  in_signed 64 timeout = true →
  Forall (λ c : Z * Z * ptr, c.2 = 3%N) (fired 1%N (w_regs ex_watching) rs) →
  Z.of_nat (length (fired 1%N (w_regs ex_watching) rs)) ≤ 4 →
  iteration_ready (ex_env rs) ex_lst 6 5 timeout ex_watching
                  ex_libevt ex_data ex_buf.
Proof.
  intros Ht Htied Hfit. by constructor.
Qed.

Lemma event_loop_removes_first_woke_witness :
  let c := collected ex_data ex_buf
             (fired 1%N (w_regs ex_watching) [(5%N, EV_READ); (4%N, EV_READ)]) in
  ∃ j w' buf',
    find_woke 5 c = Some j ∧
    scm_primitive_event_loop (ex_env [(5%N, EV_READ); (4%N, EV_READ)])
                             ex_lst 6 5 (-1) ex_watching
      = (Ok (Z.of_nat (length c) - 1), w') ∧
    w_bufs w' !! 100%N = Some buf' ∧
    take (length c - 1) buf' = delete j c ∧
    (count_woke 5 c = 1%nat →
     Forall (λ e, ev_fd e ≠ 5) (take (length c - 1) buf')).
Proof.
  apply (event_loop_removes_first_woke
           (ex_env [(5%N, EV_READ); (4%N, EV_READ)]) ex_lst 6 5 (-1)
           ex_watching ex_libevt ex_data ex_buf).
  - apply ex_watching_ready.
    + reflexivity.
    + vm_compute. repeat constructor.
    + vm_compute. discriminate.
  - reflexivity.
  - exists (mk_event_data 5 2). split; [|reflexivity].
    vm_compute. apply list_elem_of_In. right. left. reflexivity.
Defined.

(** C2, as stated, fails.  With two watches on descriptor 5 both ready
    and 5 the woke descriptor, the iteration returns the count 1, and
    the one record of its result set is on descriptor 5. *)
Lemma wake_record_left_in_result :
  let out := scm_primitive_event_loop
               (ex_env [(4%N, EV_READ); (6%N, EV_READ)])
               ex_lst 6 5 (-1) ex_watching_twice in
  out.1 = Ok 1 ∧
  take 1 <$> (w_bufs out.2 !! 100%N) = Some [mk_event_data 5 EV_READ].
Proof. vm_compute. split; reflexivity. Qed.

(** C10. The scan of a completed iteration takes at most one record
    out of the collected ones.  When none is on the woke descriptor the
    result set is the collected records.  Otherwise, with [j] the index
    of the first record on the woke descriptor, the records before [j]
    stay in their slots, each later record moves one slot to the left,
    and the count drops by one; slots from the last collected record on
    keep what they held. *)
Theorem strip_removes_at_most_one env lst wakefd wokefd timeout w l d buf :
  iteration_ready env lst wakefd wokefd timeout w l d buf →
  drains_freely w wokefd = true →
  let cbs := fired (le_base l) (w_regs w) (ready env) in
  let c := collected d buf cbs in
  let buf1 := deposits (Z.to_nat (wd_rv d)) (map record_of cbs) buf in
  ∃ n w' buf',
    scm_primitive_event_loop env lst wakefd wokefd timeout w
      = (Ok (Z.of_nat n), w') ∧
    w_bufs w' !! wd_events d = Some buf' ∧
    (length c - n ≤ 1)%nat ∧
    match find_woke wokefd c with
    | None => n = length c ∧ buf' = buf1 ∧ take n buf' = c
    | Some j =>
        n = (length c - 1)%nat ∧
        (∃ e, c !! j = Some e ∧ ev_fd e = wokefd) ∧
        Forall (λ e, ev_fd e ≠ wokefd) (take j c) ∧
        (∀ k, (k < j)%nat → buf' !! k = c !! k) ∧
        (∀ k, (j ≤ k < n)%nat → buf' !! k = c !! S k) ∧
        (∀ k, (n ≤ k)%nat → buf' !! k = buf1 !! k)
    end.
Proof.
  intros Hready Hfree cbs c buf1.
  destruct (event_loop_outcome env lst wakefd wokefd timeout w l d buf Hready)
    as (w' & reads & Hrun & _ & Hbufs & _).
  { done. }
  fold cbs c in Hrun, Hbufs.
  pose proof (ir_rv _ _ _ _ _ _ _ _ _ Hready) as Hrv.
  pose proof (ir_fit _ _ _ _ _ _ _ _ _ Hready) as Hfit.
  pose proof (ir_capacity _ _ _ _ _ _ _ _ _ Hready) as Hcap.
  fold cbs in Hfit.
  assert (Hlen : Z.of_nat (length c) = wd_rv d + Z.of_nat (length cbs))
    by (apply length_collected; lia).
  assert (Htake : take (length c) buf1 = c).
  { unfold c at 2. rewrite <- (take_collected d buf cbs) by lia.
    f_equal. lia. }
  assert (Hlen1 : length buf1 = length buf) by apply length_deposits.
  exists (length (remove_woke wokefd c)), w', (result_buffer wokefd d buf cbs).
  split; [done|]. split; [rewrite Hbufs; apply lookup_insert_eq|].
  rewrite length_remove_woke. unfold result_buffer. fold c buf1.
  destruct (find_woke wokefd c) as [j|] eqn:Efind.
  - pose proof (find_woke_lt _ _ _ Efind) as Hlt.
    destruct (find_woke_Some _ _ _ Efind) as [He Hbefore].
    split; [lia|]. split; [done|]. split; [done|]. split; [done|].
    split; [|split].
    + intros k Hk. rewrite lookup_shift_left_lt by lia.
      rewrite <- Htake. by rewrite lookup_take_lt by lia.
    + intros k Hk. rewrite lookup_shift_left_moved by lia.
      rewrite <- Htake. by rewrite lookup_take_lt by lia.
    + intros k Hk. apply lookup_shift_left_ge; lia.
  - split; [lia|]. done.
Qed.

Lemma strip_removes_at_most_one_witness :
  let cbs := fired 1%N (w_regs ex_watching) [(5%N, EV_READ); (4%N, EV_READ)] in
  let c := collected ex_data ex_buf cbs in
  let buf1 := deposits 0 (map record_of cbs) ex_buf in
  ∃ n w' buf',
    scm_primitive_event_loop (ex_env [(5%N, EV_READ); (4%N, EV_READ)])
                             ex_lst 6 5 (-1) ex_watching
      = (Ok (Z.of_nat n), w') ∧
    w_bufs w' !! 100%N = Some buf' ∧
    (length c - n ≤ 1)%nat ∧
    match find_woke 5 c with
    | None => n = length c ∧ buf' = buf1 ∧ take n buf' = c
    | Some j =>
        n = (length c - 1)%nat ∧
        (∃ e, c !! j = Some e ∧ ev_fd e = 5) ∧
        Forall (λ e, ev_fd e ≠ 5) (take j c) ∧
        (∀ k, (k < j)%nat → buf' !! k = c !! k) ∧
        (∀ k, (j ≤ k < n)%nat → buf' !! k = c !! S k) ∧
        (∀ k, (n ≤ k)%nat → buf' !! k = buf1 !! k)
    end.
Proof.
  apply (strip_removes_at_most_one
           (ex_env [(5%N, EV_READ); (4%N, EV_READ)]) ex_lst 6 5 (-1)
           ex_watching ex_libevt ex_data ex_buf).
  - apply ex_watching_ready.
    + reflexivity.
    + vm_compute. repeat constructor.
    + vm_compute. discriminate.
  - reflexivity.
Defined.

(** ** The drain of the woke descriptor *)

(** C6. When a completed wait has collected a record on the woke
    descriptor, the iteration reads that descriptor in chunks of 32
    bytes until a read returns fewer than 32.  On an open descriptor
    with [pending] bytes (one that does not block, or whose pending
    bytes are not a whole number of chunks) that is one read of 32
    bytes per whole chunk and a last read that returns the rest, or
    fails for want of bytes, after which no byte is pending.  On a
    descriptor whose reads fail the single read fails, and the
    iteration returns its count all the same. *)
Theorem event_loop_drains_woke env lst wakefd wokefd timeout w l d buf :
  iteration_ready env lst wakefd wokefd timeout w l d buf →
  let cbs := fired (le_base l) (w_regs w) (ready env) in
  let c := collected d buf cbs in
  (∃ e, e ∈ c ∧ ev_fd e = wokefd) →
  let before := w_trace w ++ wait_prologue w wakefd (le_base l) timeout
                ++ map callback_effect cbs ++ wait_epilogue timeout in
  (∀ pending room nonblock,
     w_fds w !! wokefd = Some (FdOpen pending room nonblock) →
     nonblock = true ∨ (pending `mod` 32)%N ≠ 0%N →
     ∃ w' last,
       scm_primitive_event_loop env lst wakefd wokefd timeout w
         = (Ok (Z.of_nat (length c) - 1), w') ∧
       w_fds w' = <[wokefd := FdOpen 0 room nonblock]> (w_fds w) ∧
       w_trace w' = before
                    ++ replicate (N.to_nat (pending `div` 32))
                                 (E_read wokefd 32)
                    ++ [E_read wokefd last] ∧
       last < 32) ∧
  (w_fds w !! wokefd = None ∨ (∃ e, w_fds w !! wokefd = Some (FdBroken e)) →
     ∃ w',
       scm_primitive_event_loop env lst wakefd wokefd timeout w
         = (Ok (Z.of_nat (length c) - 1), w') ∧
       w_fds w' = w_fds w ∧
       w_trace w' = before ++ [E_read wokefd (-1)]).
Proof.
  intros Hready cbs c Hwoke before.
  destruct (find_woke_is_Some _ _ Hwoke) as [j Hj].
  pose proof (find_woke_lt _ _ _ Hj) as Hlt.
  destruct Hready as [Hwake Hwokefd Htime Hnn Hl Hd Hb Hrv Hcap Hmax Hall Hfit
                      Hloop Hint Hexit].
  fold cbs in Hall, Hfit.
  assert (Hlen : Z.of_nat (length c) = wd_rv d + Z.of_nat (length cbs))
    by (apply length_collected; lia).
  pose proof (event_loop_run env lst wakefd wokefd timeout w l d buf) as Hrun.
  cbv zeta in Hrun. rewrite Hrun by done. clear Hrun. cbn [wd_rv].
  fold cbs. rewrite take_collected by lia. fold c. rewrite Hj.
  set (d1 := mk_wait_data (wd_rv d + Z.of_nat (length cbs)) (wd_events d)
                          (wd_maxevents d)).
  set (w1 := after_removal _ d1 _ j _).
  assert (Hfin : ∀ w2, w_wait w2 = w_wait w1 →
            finish (h_data lst) w2 =
            (Ok (Z.of_nat (length c) - 1),
             set_wait (<[h_data lst := mk_wait_data 0 (wd_events d)
                                         (wd_maxevents d)]> (w_wait w2)) w2)).
  { intros w2 Hw2.
    rewrite (run_finish _ w2 (mk_wait_data (wd_rv d1 - 1) (wd_events d)
                                           (wd_maxevents d))).
    - simpl. do 2 f_equal. lia.
    - rewrite Hw2. simpl. apply lookup_insert_eq. }
  unfold bind. split.
  - intros p room nb Hfd Hnb. rewrite (drain_open wokefd p room nb w1) by done.
    rewrite Hfin by done.
    eexists _, (if (p `mod` 32 =? 0)%N then -1 else Z.of_N (p `mod` 32)).
    split; [done|]. split; [done|]. split.
    + simpl. unfold before, drain_reads. by rewrite <- !app_assoc.
    + destruct (p `mod` 32 =? 0)%N; [lia|].
      pose proof (N.mod_lt p 32). lia.
  - intros [Hfd|[e Hfd]].
    + rewrite (drain_closed wokefd w1) by done. rewrite Hfin by done.
      eexists. split; [done|]. split; [done|].
      simpl. unfold before. by rewrite <- !app_assoc.
    + rewrite (drain_broken wokefd e w1) by done. rewrite Hfin by done.
      eexists. split; [done|]. split; [done|].
      simpl. unfold before. by rewrite <- !app_assoc.
Qed.

Lemma event_loop_drains_woke_witness :
  let cbs := fired 1%N (w_regs ex_watching) [(5%N, EV_READ); (4%N, EV_READ)] in
  let c := collected ex_data ex_buf cbs in
  let before := w_trace ex_watching ++ wait_prologue ex_watching 6 1%N (-1)
                ++ map callback_effect cbs ++ wait_epilogue (-1) in
  ∃ w' last,
    scm_primitive_event_loop (ex_env [(5%N, EV_READ); (4%N, EV_READ)])
                             ex_lst 6 5 (-1) ex_watching
      = (Ok (Z.of_nat (length c) - 1), w') ∧
    w_fds w' = <[5 := FdOpen 0 10 true]> (w_fds ex_watching) ∧
    w_trace w' = before ++ replicate (N.to_nat (70 `div` 32)) (E_read 5 32)
                 ++ [E_read 5 last] ∧
    last < 32.
Proof.
  intros cbs c before.
  refine (proj1 (event_loop_drains_woke
                   (ex_env [(5%N, EV_READ); (4%N, EV_READ)]) ex_lst 6 5 (-1)
                   ex_watching ex_libevt ex_data ex_buf _ _)
                70%N 10%N true _ _).
  - apply ex_watching_ready.
    + reflexivity.
    + vm_compute. repeat constructor.
    + vm_compute. discriminate.
  - exists (mk_event_data 5 2). split; [|reflexivity].
    vm_compute. apply list_elem_of_In. right. left. reflexivity.
  - reflexivity.
  - left. reflexivity.
Defined.

(** ** The count of collected events *)

Lemma run_create_event_base eventsv w :
  w_next w ≠ NULL →
  let base := w_next w in
  let libevt := (base + 1)%N in
  let data := (base + 2)%N in
  scm_primitive_create_event_base true eventsv w =
  (Ok (mk_handle libevt data),
   set_wait (<[data := mk_wait_data 0 (bv_contents eventsv)
                                    (capacity_of eventsv)]> (w_wait w))
     (set_libevt (<[libevt := mk_libevt_data base]> (w_libevt w))
        (set_next (base + 3)%N w))).
Proof.
  intros Hnext base libevt data.
  unfold scm_primitive_create_event_base, event_base_new.
  unfold bind at 1, alloc. fold base.
  destruct (base =? NULL)%N eqn:E; [apply N.eqb_eq in E; done|].
  unfold scm_gc_malloc_libevt, scm_gc_malloc_wait, store_libevt, assign_rv,
    assign_events, assign_maxevents, load_wait, store_wait, alloc, bind,
    modify, ret.
  cbn [w_next w_libevt w_wait set_next set_libevt set_wait].
  fold libevt. rewrite lookup_insert_eq.
  replace (libevt + 1)%N with data by (unfold libevt, data; lia).
  repeat (progress (cbn [w_next w_libevt w_wait set_next set_libevt set_wait
                         wd_rv wd_events wd_maxevents];
                    rewrite ?lookup_insert_eq)).
  f_equal. apply world_eq; simpl; try done.
  - by rewrite !insert_insert_eq.
  - by rewrite insert_insert_eq.
  - unfold data. lia.
Qed.

Lemma event_loop_interrupted env lst wakefd wokefd timeout w d :
  in_signed 32 wakefd = true → in_signed 32 wokefd = true →
  in_signed 64 timeout = true →
  h_data lst ≠ NULL →
  w_wait w !! h_data lst = Some d →
  timeout ≠ 0 → prepare_interrupted env = true →
  scm_primitive_event_loop env lst wakefd wokefd timeout w =
  (Ok 0,
   set_wait (<[h_data lst := mk_wait_data 0 (wd_events d) (wd_maxevents d)]>
               (w_wait w))
     (set_trace (w_trace w ++ [E_prepare_to_wait_on_fd wakefd true]) w)).
Proof.
  intros Hwake Hwoke Htime Hnn Hd Ht Hint.
  unfold scm_primitive_event_loop, scm_to_int, scm_to_int64.
  rewrite Hwake, Hwoke, Htime.
  unfold bind at 1, ret at 1. unfold bind at 1, ret at 1.
  unfold bind at 1, ret at 1.
  destruct (h_data lst =? NULL)%N eqn:En; [apply N.eqb_eq in En; done|].
  unfold bind at 1, ret at 1.
  destruct (timeout =? 0) eqn:E0; [lia|]. cbn [negb].
  unfold bind at 1, scm_c_prepare_to_wait_on_fd. unfold bind at 1, log, modify.
  unfold ret at 1. rewrite Hint. cbn [andb].
  set (w0 := set_trace _ w).
  unfold bind at 1. rewrite (run_assign_rv _ _ w0 d) by done.
  change (bind (load_wait (h_data lst)) _) with (finish (h_data lst)).
  erewrite run_finish by (simpl; apply lookup_insert_eq).
  simpl. f_equal. apply world_eq; simpl; try done.
  by rewrite insert_insert_eq.
Qed.

Lemma event_loop_returns_reset env lst wakefd wokefd timeout w n w' :
  scm_primitive_event_loop env lst wakefd wokefd timeout w = (Ok n, w') →
  ∃ d', w_wait w' !! h_data lst = Some d' ∧ wd_rv d' = 0.
Proof.
  unfold scm_primitive_event_loop. intros Hrun.
  apply bind_Ok_inv in Hrun as (? & ? & _ & Hrun).
  apply bind_Ok_inv in Hrun as (? & ? & _ & Hrun).
  apply bind_Ok_inv in Hrun as (? & ? & _ & Hrun).
  apply bind_Ok_inv in Hrun as (? & ? & _ & Hrun).
  apply bind_Ok_inv in Hrun as (? & ? & _ & Hrun).
  apply bind_Ok_inv in Hrun as (? & w2 & _ & Hrun).
  apply bind_Ok_inv in Hrun as (d2 & w3 & Hload & Hrun).
  apply bind_Ok_inv in Hrun as ([] & w4 & Hassign & Hrun).
  injection Hrun as _ <-.
  unfold load_wait in Hload.
  destruct (w_wait w2 !! h_data lst) as [d3|] eqn:Hd; [|done].
  injection Hload as <- <-.
  rewrite (run_assign_rv _ _ _ _ Hd) in Hassign. injection Hassign as <-.
  eexists. split; [simpl; apply lookup_insert_eq|done].
Qed.

(** The paths that reset the count.  The count of events filled so far
    is zero right after [primitive-create-event-base]; an iteration with a
    timeout other than zero that finds an interrupt pending sets it to
    zero, makes no wait and returns zero; whenever an iteration
    returns, the count it leaves is zero.  An iteration that completes
    returns the number of records counted when it started plus those
    its own callbacks deposited, less the removed wake record if there
    is one: so from a zero count, as after creation or after an
    iteration that returned, the returned count is that of the records
    collected during the iteration alone. *)
Theorem rv_reset_each_iteration :
  (∀ eventsv w, w_next w ≠ NULL →
     ∃ lst w',
       scm_primitive_create_event_base true eventsv w = (Ok lst, w') ∧
       w_wait w' !! h_data lst
         = Some (mk_wait_data 0 (bv_contents eventsv) (capacity_of eventsv))) ∧
  (∀ env lst wakefd wokefd timeout w d,
     in_signed 32 wakefd = true → in_signed 32 wokefd = true →
     in_signed 64 timeout = true →
     h_data lst ≠ NULL →
     w_wait w !! h_data lst = Some d →
     timeout ≠ 0 → prepare_interrupted env = true →
     ∃ w',
       scm_primitive_event_loop env lst wakefd wokefd timeout w = (Ok 0, w') ∧
       w_wait w' !! h_data lst
         = Some (mk_wait_data 0 (wd_events d) (wd_maxevents d)) ∧
       w_trace w' = w_trace w ++ [E_prepare_to_wait_on_fd wakefd true]) ∧
  (∀ env lst wakefd wokefd timeout w n w',
     scm_primitive_event_loop env lst wakefd wokefd timeout w = (Ok n, w') →
     ∃ d', w_wait w' !! h_data lst = Some d' ∧ wd_rv d' = 0) ∧
  (∀ env lst wakefd wokefd timeout w l d buf,
     iteration_ready env lst wakefd wokefd timeout w l d buf →
     drains_freely w wokefd = true →
     let cbs := fired (le_base l) (w_regs w) (ready env) in
     ∃ w',
       scm_primitive_event_loop env lst wakefd wokefd timeout w
         = (Ok (Z.of_nat (length (remove_woke wokefd (collected d buf cbs)))),
            w') ∧
       w_wait w' !! h_data lst
         = Some (mk_wait_data 0 (wd_events d) (wd_maxevents d)) ∧
       (wd_rv d = 0 → collected d buf cbs = map record_of cbs)).
Proof.
  split; [|split; [|split]].
  - intros eventsv w Hnext. eexists _, _. split.
    + by apply run_create_event_base.
    + simpl. apply lookup_insert_eq.
  - intros env lst wakefd wokefd timeout w d Hwake Hwoke Htime Hnn Hd Ht Hint.
    eexists. split; [by apply event_loop_interrupted|].
    split; [simpl; apply lookup_insert_eq|done].
  - apply event_loop_returns_reset.
  - intros env lst wakefd wokefd timeout w l d buf Hready Hfree cbs.
    destruct (event_loop_outcome env lst wakefd wokefd timeout w l d buf Hready)
      as (w' & reads & Hrun & Hwait & _).
    { done. }
    exists w'. split; [done|]. split; [rewrite Hwait; apply lookup_insert_eq|].
    intros Hrv. unfold collected. by rewrite Hrv.
Qed.

Lemma rv_reset_each_iteration_witness :
  (∃ lst w',
     scm_primitive_create_event_base true ex_eventsv ex_init = (Ok lst, w') ∧
     w_wait w' !! h_data lst
       = Some (mk_wait_data 0 (bv_contents ex_eventsv)
                            (capacity_of ex_eventsv))) ∧
  (∃ w',
     scm_primitive_event_loop (mk_loop_env true true true []) ex_lst 6 5 (-1)
                              ex_watching = (Ok 0, w') ∧
     w_wait w' !! h_data ex_lst
       = Some (mk_wait_data 0 (wd_events ex_data) (wd_maxevents ex_data)) ∧
     w_trace w' = w_trace ex_watching ++ [E_prepare_to_wait_on_fd 6 true]) ∧
  (let cbs := fired (le_base ex_libevt) (w_regs ex_watching)
                    (ready (ex_env [(5%N, EV_READ); (4%N, EV_READ)])) in
   ∃ w',
     scm_primitive_event_loop (ex_env [(5%N, EV_READ); (4%N, EV_READ)])
                              ex_lst 6 5 (-1) ex_watching
       = (Ok (Z.of_nat (length (remove_woke 5 (collected ex_data ex_buf cbs)))),
          w') ∧
     w_wait w' !! h_data ex_lst
       = Some (mk_wait_data 0 (wd_events ex_data) (wd_maxevents ex_data)) ∧
     (wd_rv ex_data = 0 → collected ex_data ex_buf cbs = map record_of cbs)).
Proof.
  destruct rv_reset_each_iteration as (Hcreate & Hint & _ & Hcount).
  split; [|split].
  - apply Hcreate. vm_compute. discriminate.
  - apply Hint; try reflexivity.
    + vm_compute. discriminate.
    + vm_compute. discriminate.
  - apply (Hcount _ _ _ _ _ _ _ _ ex_buf).
    + apply ex_watching_ready.
      * reflexivity.
      * vm_compute. repeat constructor.
      * vm_compute. discriminate.
    + reflexivity.
Defined.


(** ** Registrations *)

Lemma run_add_event lst fd ev w l :
  in_signed 32 fd = true → in_signed 16 ev = true →
  w_libevt w !! h_libevt lst = Some l →
  w_next w ≠ NULL →
  scm_primitive_add_event true true lst fd ev w =
  (Ok (w_next w),
   set_regs (<[w_next w := mk_registration (le_base l) fd ev Cb_func
                                           (h_data lst) true]> (w_regs w))
            (set_next (w_next w + 1)%N w)).
Proof.
  intros Hfd Hev Hl Hnext.
  unfold scm_primitive_add_event, scm_to_int, scm_to_short.
  rewrite Hfd, Hev. unfold bind at 1, ret at 1. unfold bind at 1, ret at 1.
  unfold bind at 1, load_libevt. rewrite Hl.
  unfold bind at 1, event_new. unfold bind at 1, alloc.
  unfold bind at 1, modify. unfold ret at 1.
  destruct (w_next w =? NULL)%N eqn:E; [apply N.eqb_eq in E; done|].
  unfold bind, event_add. cbn [w_regs set_regs]. rewrite lookup_insert_eq.
  change (0 =? -1) with false. cbv iota. unfold ret. f_equal.
  apply world_eq; simpl; try done. by rewrite insert_insert_eq.
Qed.

Lemma run_remove_event lst e w reg :
  w_regs w !! e = Some reg →
  scm_primitive_remove_event true lst e w =
  (Ok tt, set_regs (<[e := set_pending false reg]> (w_regs w)) w).
Proof.
  intros Hreg. unfold scm_primitive_remove_event, bind, event_del.
  by rewrite Hreg.
Qed.

(** C3, as the code has it.  An add-watch that succeeds creates one
    registration, on the handle's reactor, for the descriptor and with
    exactly the mask it was given, carrying the collector callback and
    the address of the handle's [wait_data], and pending.  Once it has
    fired it is still pending exactly when its mask contains
    [EV_PERSIST]: the binding passes the caller's mask on and adds
    nothing to it.  A remove-watch that succeeds leaves the registration
    not pending, and a registration that is not pending runs no
    callback. *)
Theorem add_event_registers_mask :
  (∀ lst fd ev w l,
     in_signed 32 fd = true → in_signed 16 ev = true →
     w_libevt w !! h_libevt lst = Some l →
     w_next w ≠ NULL →
     let reg := mk_registration (le_base l) fd ev Cb_func (h_data lst) true in
     ∃ w',
       scm_primitive_add_event true true lst fd ev w = (Ok (w_next w), w') ∧
       w_regs w' = <[w_next w := reg]> (w_regs w) ∧
       reg_persistent reg = Z.testbit ev 4 ∧
       ∀ what,
         regs_after (le_base l) (w_regs w') [(w_next w, what)] !! w_next w
         = Some (set_pending (Z.testbit ev 4) reg)) ∧
  (∀ lst e w reg,
     w_regs w !! e = Some reg →
     ∃ w',
       scm_primitive_remove_event true lst e w = (Ok tt, w') ∧
       w_regs w' = <[e := set_pending false reg]> (w_regs w) ∧
       ∀ base what, fired base (w_regs w') [(e, what)] = []).
Proof.
  split.
  - intros lst fd ev w l Hfd Hev Hl Hnext reg.
    eexists. split; [by apply run_add_event|]. split; [done|].
    split; [done|]. intros what.
    cbn [w_regs set_regs set_next regs_after fst]. rewrite lookup_insert_eq.
    cbn [reg_pending reg_base andb]. rewrite N.eqb_refl.
    unfold disarm, reg_persistent. cbn [reg_events].
    destruct (Z.testbit ev 4); cbn [regs_after]; by rewrite lookup_insert_eq.
  - intros lst e w reg Hreg.
    eexists. split; [by apply run_remove_event|]. split; [done|].
    intros base what. simpl. by rewrite lookup_insert_eq.
Qed.

Lemma add_event_registers_mask_witness :
  (let reg := mk_registration (le_base ex_libevt) 7 EV_READ Cb_func
                              (h_data ex_lst) true in
   ∃ w',
     scm_primitive_add_event true true ex_lst 7 EV_READ ex_created
       = (Ok (w_next ex_created), w') ∧
     w_regs w' = <[w_next ex_created := reg]> (w_regs ex_created) ∧
     reg_persistent reg = Z.testbit EV_READ 4 ∧
     ∀ what,
       regs_after (le_base ex_libevt) (w_regs w') [(w_next ex_created, what)]
         !! w_next ex_created
       = Some (set_pending (Z.testbit EV_READ 4) reg)) ∧
  (∃ w',
     scm_primitive_remove_event true ex_lst 4%N ex_watching = (Ok tt, w') ∧
     w_regs w' = <[4%N := set_pending false
                            (mk_registration 1%N 5 (Z.lor EV_READ EV_PERSIST)
                                             Cb_func 3%N true)]>
                   (w_regs ex_watching) ∧
     ∀ base what, fired base (w_regs w') [(4%N, what)] = []).
Proof.
  destruct add_event_registers_mask as [Hadd Hremove]. split.
  - apply Hadd; try reflexivity. vm_compute. discriminate.
  - apply Hremove. reflexivity.
Defined.

(** C3, as stated, fails.  A read watch added without [EV_PERSIST] is
    not persistent: it is reported by the first iteration that finds
    it ready and by no later one. *)
Lemma add_event_not_persistent :
  let added := scm_primitive_add_event true true ex_lst 7 EV_READ ex_created in
  let first := scm_primitive_event_loop (ex_env [(4%N, EV_READ)])
                                        ex_lst 6 5 (-1) added.2 in
  let second := scm_primitive_event_loop (ex_env [(4%N, EV_READ)])
                                         ex_lst 6 5 (-1) first.2 in
  added.1 = Ok 4%N ∧
  reg_persistent <$> (w_regs added.2 !! 4%N) = Some false ∧
  first.1 = Ok 1 ∧
  second.1 = Ok 0.
Proof. vm_compute. repeat split; reflexivity. Qed.

(** ** Resizing the buffer *)

Lemma run_event_loop_overflow env base timeout a w d buf :
  w_wait w !! a = Some d → w_bufs w !! wd_events d = Some buf →
  0 ≤ wd_rv d →
  wd_maxevents d ≤ Z.of_nat (length buf) → wd_maxevents d ≤ INT_MAX →
  Forall (λ c, c.2 = a) (fired base (w_regs w) (ready env)) →
  wd_maxevents d
    < wd_rv d + Z.of_nat (length (fired base (w_regs w) (ready env))) →
  fired base (w_regs w) (ready env) ≠ [] →
  loop_ok env = true →
  (0 ≤ timeout → loopexit_ok env = true ∧ scm_c_time_units_per_second w ≠ 0) →
  ∃ fd w' buf',
    run_event_loop env (mk_loop_data base timeout) w
      = (Throw (max_events_error fd), w') ∧
    w_bufs w' = <[wd_events d := buf']> (w_bufs w) ∧
    length buf' = length buf ∧
    (∀ i, wd_maxevents d ≤ Z.of_nat i → buf' !! i = buf !! i).
Proof.
  intros Hd Hb Hrv Hcap Hmax Hall Hfit Hsome Hloop Hexit.
  unfold run_event_loop. cbn [ld_timeout ld_base].
  set (pre := if 0 <=? timeout
              then [E_loopexit base (tv_sec_of w timeout)
                               (tv_usec_of w timeout)]
              else []).
  assert (Hpre :
    (if 0 <=? timeout then
       bind get (λ w, if scm_c_time_units_per_second w =? 0 then fault
         else bind (event_base_loopexit env base (tv_sec_of w timeout)
                                        (tv_usec_of w timeout))
                (λ ret_, if ret_ =? -1 then
                   SCM_MISC_ERROR "primitive-event-loop"
                                  "event loop exit failed" []
                 else ret tt))
     else ret tt) w
    = (Ok tt, set_trace (w_trace w ++ pre) w)).
  { unfold pre. destruct (0 <=? timeout) eqn:E.
    - destruct Hexit as [Hexit Hunits]; [lia|].
      unfold bind at 1, get.
      destruct (scm_c_time_units_per_second w =? 0) eqn:E0; [lia|].
      unfold event_base_loopexit, bind, log, modify, ret. rewrite Hexit.
      done.
    - unfold ret. f_equal. rewrite app_nil_r. by destruct w. }
  rewrite (bind_ok _ _ _ _ _ Hpre). clear Hpre.
  unfold event_base_loop, bind at 1. unfold bind at 1, log, modify.
  rewrite Hloop. unfold bind at 1.
  set (w0 := set_trace _ (set_trace _ w)).
  destruct (process_active_overflow base a (ready env) w0 d buf)
    as (fd & w' & buf' & Hrun & Hbufs & Hlen & Hsame & _); try done.
  rewrite Hrun. by exists fd, w', buf'.
Qed.

Lemma event_loop_overflow env lst wakefd wokefd timeout w l d buf :
  in_signed 32 wakefd = true → in_signed 32 wokefd = true →
  in_signed 64 timeout = true →
  h_data lst ≠ NULL →
  w_libevt w !! h_libevt lst = Some l →
  w_wait w !! h_data lst = Some d → w_bufs w !! wd_events d = Some buf →
  0 ≤ wd_rv d →
  wd_maxevents d ≤ Z.of_nat (length buf) → wd_maxevents d ≤ INT_MAX →
  let cbs := fired (le_base l) (w_regs w) (ready env) in
  Forall (λ c, c.2 = h_data lst) cbs →
  wd_maxevents d < wd_rv d + Z.of_nat (length cbs) →
  cbs ≠ [] →
  loop_ok env = true →
  (timeout ≠ 0 → prepare_interrupted env = false) →
  (0 ≤ timeout → loopexit_ok env = true ∧ scm_c_time_units_per_second w ≠ 0) →
  ∃ fd w' buf',
    scm_primitive_event_loop env lst wakefd wokefd timeout w
      = (Throw (max_events_error fd), w') ∧
    w_bufs w' = <[wd_events d := buf']> (w_bufs w) ∧
    length buf' = length buf ∧
    (∀ i, wd_maxevents d ≤ Z.of_nat i → buf' !! i = buf !! i).
Proof.
  intros Hwake Hwoke Htime Hnn Hl Hd Hb Hrv Hcap Hmax cbs Hall Hfit Hsome
         Hloop Hint Hexit.
  unfold scm_primitive_event_loop, scm_to_int, scm_to_int64.
  rewrite Hwake, Hwoke, Htime.
  unfold bind at 1, ret at 1. unfold bind at 1, ret at 1.
  unfold bind at 1, ret at 1.
  destruct (h_data lst =? NULL)%N eqn:En; [apply N.eqb_eq in En; done|].
  unfold bind at 1, ret at 1.
  destruct (timeout =? 0) eqn:E0; cbn [negb andb].
  - unfold bind at 1, ret at 1. unfold bind at 1. unfold bind at 1, load_libevt.
    rewrite Hl. unfold bind at 1.
    destruct (run_event_loop_overflow env (le_base l) timeout (h_data lst)
                w d buf) as (fd & w' & buf' & Hrun & Hrest); try done.
    rewrite Hrun. by exists fd, w', buf'.
  - unfold bind at 1, scm_c_prepare_to_wait_on_fd. unfold bind at 1, log, modify.
    unfold ret at 1. rewrite Hint by (apply Z.eqb_neq in E0; done).
    unfold bind at 1. unfold bind at 1, load_libevt. cbn [w_libevt set_trace].
    rewrite Hl. unfold bind at 1, scm_without_guile.
    unfold bind at 1. unfold bind at 1, log, modify. unfold bind at 1.
    set (w0 := set_trace _ (set_trace _ w)).
    destruct (run_event_loop_overflow env (le_base l) timeout (h_data lst)
                w0 d buf) as (fd & w' & buf' & Hrun & Hrest); try done.
    rewrite Hrun. by exists fd, w', buf'.
Qed.

Lemma run_assign_events p v w d :
  w_wait w !! p = Some d →
  assign_events p v w =
  (Ok tt, set_wait (<[p := mk_wait_data (wd_rv d) v (wd_maxevents d)]>
                      (w_wait w)) w).
Proof.
  intros H. unfold assign_events, bind, load_wait, store_wait. by rewrite H, H.
Qed.

Lemma run_assign_maxevents p v w d :
  w_wait w !! p = Some d →
  assign_maxevents p v w =
  (Ok tt, set_wait (<[p := mk_wait_data (wd_rv d) (wd_events d) v]>
                      (w_wait w)) w).
Proof.
  intros H. unfold assign_maxevents, bind, load_wait, store_wait.
  by rewrite H, H.
Qed.

Lemma run_resize lst eventsv w d :
  w_wait w !! h_data lst = Some d →
  scm_primitive_resize lst eventsv w =
  (Ok tt,
   set_wait (<[h_data lst := mk_wait_data (wd_rv d) (bv_contents eventsv)
                                          (capacity_of eventsv)]> (w_wait w))
            w).
Proof.
  intros Hd. unfold scm_primitive_resize.
  erewrite bind_ok by (by apply run_assign_events).
  erewrite bind_ok by (apply run_assign_maxevents; simpl; apply lookup_insert_eq).
  unfold ret. f_equal. apply world_eq; simpl; try done.
  by rewrite insert_insert_eq.
Qed.

(** ** What every iteration keeps *)

Section Invariance.
Context (I : world → Prop) (HI : loop_invariant I).

Lemma keeps_ret {A} (a : A) : keeps I (ret a).
Proof. by intros w r w' [= <- <-]. Qed.

Lemma keeps_throw {A} e : keeps I (@throw A e).
Proof. by intros w r w' [= <- <-]. Qed.

Lemma keeps_bind {A B} (m : M A) (k : A → M B) :
  keeps I m → (∀ a, keeps I (k a)) → keeps I (bind m k).
Proof.
  intros Hm Hk w r w'. unfold bind.
  destruct (m w) as [[a| | |] w1] eqn:E; intros Hrun Hw;
    pose proof (Hm w _ w1 E Hw) as Hw1.
  - by apply (Hk a w1 r w').
  - by injection Hrun as <- <-.
  - by injection Hrun as <- <-.
  - by injection Hrun as <- <-.
Qed.

Lemma keeps_log e : keeps I (log e).
Proof. intros w r w' [= <- <-] Hw. by apply li_trace. Qed.

Lemma keeps_load_wait p : keeps I (load_wait p).
Proof.
  intros w r w'. unfold load_wait.
  destruct (w_wait w !! p); by intros [= <- <-].
Qed.

Lemma keeps_load_libevt p : keeps I (load_libevt p).
Proof.
  intros w r w'. unfold load_libevt.
  destruct (w_libevt w !! p); by intros [= <- <-].
Qed.

Lemma keeps_load_event p i : keeps I (load_event p i).
Proof.
  intros w r w'. unfold load_event.
  destruct (w_bufs w !! p) as [buf|]; [|by intros [= <- <-]].
  destruct (0 <=? i); [|by intros [= <- <-]].
  destruct (buf !! Z.to_nat i); by intros [= <- <-].
Qed.

Lemma keeps_assign_rv p v : keeps I (assign_rv p v).
Proof.
  intros w r w'. unfold assign_rv, bind, load_wait, store_wait.
  destruct (w_wait w !! p) as [d|] eqn:Hd; [|by intros [= <- <-]].
  rewrite Hd. intros [= <- <-] Hw. by apply li_rv.
Qed.

Lemma keeps_store_event p i e : keeps I (store_event p i e).
Proof.
  intros w r w'. unfold store_event.
  destruct (w_bufs w !! p) as [buf|]; [|by intros [= <- <-]].
  destruct ((0 <=? i) && (i <? Z.of_nat (length buf)));
    [|by intros [= <- <-]].
  intros [= <- <-] Hw. by apply li_bufs.
Qed.

Lemma keeps_memmove_events p dst src n : keeps I (memmove_events p dst src n).
Proof.
  intros w r w'. unfold memmove_events.
  destruct (w_bufs w !! p) as [buf|]; [|by intros [= <- <-]].
  destruct (n <? 0); [by intros [= <- <-]|].
  destruct (n =? 0); [by intros [= <- <-]|].
  destruct (_ && _); [|by intros [= <- <-]].
  intros [= <- <-] Hw. by apply li_bufs.
Qed.

Lemma keeps_cb_func fd what arg : keeps I (cb_func fd what arg).
Proof.
  unfold cb_func. apply keeps_bind; [apply keeps_load_wait|]. intros d.
  cbv zeta. destruct (wd_maxevents d <=? wd_rv d); [apply keeps_throw|].
  apply keeps_bind; [apply keeps_store_event|]. intros _.
  apply keeps_bind; [apply keeps_load_wait|]. intros d2.
  apply keeps_assign_rv.
Qed.

Lemma keeps_activate base x : keeps I (activate base x).
Proof.
  intros w r w'. unfold activate. unfold bind at 1. unfold get.
  cbv beta iota.
  destruct (w_regs w !! x.1) as [reg|] eqn:Hreg; [|by intros [= <- <-]].
  destruct (reg_pending reg && (reg_base reg =? base)%N);
    [|by intros [= <- <-]].
  unfold bind at 1. unfold modify at 1. cbv beta iota.
  unfold bind at 1. unfold log, modify. cbv beta iota.
  destruct (reg_cb reg). cbn [run_callback]. intros Hcb Hw.
  apply (keeps_cb_func _ _ _ _ _ _ Hcb). apply li_trace; [done|].
  unfold disarm. destruct (reg_persistent reg).
  - by replace (set_regs (w_regs w) w) with w by by destruct w.
  - by apply li_disarm.
Qed.

Lemma keeps_process_active base rs : keeps I (process_active base rs).
Proof.
  induction rs as [|x rs IH]; cbn [process_active].
  - apply keeps_ret.
  - apply keeps_bind; [apply keeps_activate|]. by intros _.
Qed.

Lemma keeps_run_event_loop env p : keeps I (run_event_loop env p).
Proof.
  unfold run_event_loop. apply keeps_bind.
  - destruct (0 <=? ld_timeout p); [|apply keeps_ret].
    apply keeps_bind; [by intros w r w' [= <- <-]|]. intros w0.
    destruct (scm_c_time_units_per_second w0 =? 0);
      [by intros w r w' [= <- <-]|].
    cbv zeta. apply keeps_bind.
    + unfold event_base_loopexit. apply keeps_bind; [apply keeps_log|].
      intros _. apply keeps_ret.
    + intros z. destruct (z =? -1); [apply keeps_throw|apply keeps_ret].
  - intros _. apply keeps_bind.
    + unfold event_base_loop. apply keeps_bind; [apply keeps_log|].
      intros _. destruct (loop_ok env); [|apply keeps_ret].
      apply keeps_bind; [apply keeps_process_active|].
      intros _. apply keeps_ret.
    + intros z. destruct (z =? -1); [apply keeps_throw|apply keeps_ret].
Qed.

Lemma keeps_sys_read fd count : keeps I (sys_read fd count).
Proof.
  intros w r w'. unfold sys_read.
  destruct (w_fds w !! fd) as [[p room nb|e]|].
  - destruct (p =? 0)%N; [destruct nb|]; intros [= <- <-] Hw;
      try done; apply li_trace; try done;
      first [by apply li_errno | by apply li_fds].
  - intros [= <- <-] Hw. apply li_trace; [done|]. by apply li_errno.
  - intros [= <- <-] Hw. apply li_trace; [done|]. by apply li_errno.
Qed.

Lemma keeps_sys_write fd : keeps I (sys_write fd).
Proof.
  intros w r w'. unfold sys_write.
  destruct (w_fds w !! fd) as [[p room nb|e]|].
  - destruct (room =? 0)%N; [destruct nb|]; intros [= <- <-] Hw;
      try done; apply li_trace; try done;
      first [by apply li_errno | by apply li_fds].
  - intros [= <- <-] Hw. apply li_trace; [done|]. by apply li_errno.
  - intros [= <- <-] Hw. apply li_trace; [done|]. by apply li_errno.
Qed.

Lemma keeps_drain_loop fuel fd : keeps I (drain_loop fuel fd).
Proof.
  induction fuel as [|fuel IH]; cbn [drain_loop].
  - by intros w r w' [= <- <-].
  - apply keeps_bind; [apply keeps_sys_read|]. intros n.
    destruct (n =? 32); [done|apply keeps_ret].
Qed.

Lemma keeps_drain fd : keeps I (drain fd).
Proof.
  intros w r w'. unfold drain, bind, get. apply keeps_drain_loop.
Qed.

Lemma keeps_strip_loop fuel data fd : ∀ i,
  keeps I (strip_loop fuel data fd i).
Proof.
  induction fuel as [|fuel IH]; intros i; cbn [strip_loop].
  - by intros w r w' [= <- <-].
  - apply keeps_bind; [apply keeps_load_wait|]. intros d.
    destruct (i <? wd_rv d); [|apply keeps_ret].
    apply keeps_bind; [apply keeps_load_event|]. intros e.
    destruct (ev_fd e =? fd); [|apply IH].
    apply keeps_bind; [apply keeps_assign_rv|]. intros _.
    apply keeps_bind; [apply keeps_load_wait|]. intros d2.
    apply keeps_bind; [apply keeps_memmove_events|]. intros _.
    apply keeps_drain.
Qed.

Lemma keeps_scm_to_int z : keeps I (scm_to_int z).
Proof.
  unfold scm_to_int. destruct (in_signed 32 z);
    [apply keeps_ret|apply keeps_throw].
Qed.

Lemma keeps_scm_to_short z : keeps I (scm_to_short z).
Proof.
  unfold scm_to_short. destruct (in_signed 16 z);
    [apply keeps_ret|apply keeps_throw].
Qed.

Lemma keeps_scm_to_int64 z : keeps I (scm_to_int64 z).
Proof.
  unfold scm_to_int64. destruct (in_signed 64 z);
    [apply keeps_ret|apply keeps_throw].
Qed.

(** An iteration keeps [I], whatever its arguments and surroundings and
    however it ends. *)
Lemma keeps_event_loop env lst wakefd wokefd timeout :
  keeps I (scm_primitive_event_loop env lst wakefd wokefd timeout).
Proof.
  unfold scm_primitive_event_loop.
  apply keeps_bind; [apply keeps_scm_to_int|]. intros c_wakefd.
  apply keeps_bind; [apply keeps_scm_to_int|]. intros c_wokefd.
  apply keeps_bind; [apply keeps_scm_to_int64|]. intros c_timeout.
  cbv zeta. apply keeps_bind.
  { destruct (h_data lst =? NULL)%N; [apply keeps_throw|apply keeps_ret]. }
  intros _. apply keeps_bind.
  { destruct (negb (c_timeout =? 0)); [|apply keeps_ret].
    unfold scm_c_prepare_to_wait_on_fd.
    apply keeps_bind; [apply keeps_log|]. intros _. apply keeps_ret. }
  intros interrupted. apply keeps_bind.
  - destruct (negb (c_timeout =? 0) && interrupted);
      [apply keeps_assign_rv|].
    apply keeps_bind; [apply keeps_load_libevt|]. intros l. cbv zeta.
    apply keeps_bind.
    { destruct (negb (c_timeout =? 0)); [|apply keeps_run_event_loop].
      unfold scm_without_guile. apply keeps_bind; [apply keeps_log|].
      intros _. apply keeps_bind; [apply keeps_run_event_loop|].
      intros x. apply keeps_bind; [apply keeps_log|]. intros _.
      apply keeps_ret. }
    intros _. apply keeps_bind.
    { destruct (negb (c_timeout =? 0)); [apply keeps_log|apply keeps_ret]. }
    intros _. unfold strip_woke.
    apply keeps_bind; [apply keeps_load_wait|]. intros d.
    apply keeps_strip_loop.
  - intros _. apply keeps_bind; [apply keeps_load_wait|]. intros d.
    cbv zeta. apply keeps_bind; [apply keeps_assign_rv|]. intros _.
    apply keeps_ret.
Qed.

(** So does [primitive-event-wake]. *)
Lemma keeps_event_wake wakefd : keeps I (scm_primitive_event_wake wakefd).
Proof.
  unfold scm_primitive_event_wake.
  apply keeps_bind; [apply keeps_scm_to_int|]. intros c_fd.
  apply keeps_bind; [apply keeps_sys_write|]. intros n.
  apply keeps_bind; [by intros w r w' [= <- <-]|]. intros w0.
  destruct (_ && _); [apply keeps_throw|apply keeps_ret].
Qed.
End Invariance.

(** ** What the other primitives change *)

Lemma create_frame base_new_ok eventsv w :
  let w' := exec (scm_primitive_create_event_base base_new_ok eventsv) w in
  w_regs w' = w_regs w ∧ w_bufs w' = w_bufs w ∧
  ((w_wait w' = w_wait w ∧ w_libevt w' = w_libevt w ∧
    (w_next w ≤ w_next w')%N) ∨
   (w_wait w' = <[(w_next w + 2)%N :=
                    mk_wait_data 0 (bv_contents eventsv) (capacity_of eventsv)]>
                  (w_wait w) ∧
    w_libevt w' = <[(w_next w + 1)%N := mk_libevt_data (w_next w)]>
                    (w_libevt w) ∧
    w_next w' = (w_next w + 3)%N)).
Proof.
  cbv zeta. unfold exec. destruct base_new_ok.
  - destruct (decide (w_next w = NULL)) as [Hnull|Hnn].
    + destruct (scm_primitive_create_event_base true eventsv w)
        as [r w'] eqn:E. revert E.
      unfold scm_primitive_create_event_base, event_base_new, alloc.
      unfold bind at 1. rewrite Hnull. intros [= <- <-]. cbn.
      split; [done|]. split; [done|]. left. split; [done|]. split; [done|]. lia.
    + rewrite (run_create_event_base eventsv w Hnn). cbn.
      split; [done|]. split; [done|]. by right.
  - cbn. split; [done|]. split; [done|]. left. split; [done|]. split; [done|].
    lia.
Qed.

Lemma add_frame event_new_ok event_add_ok lst fd ev w :
  let w' := exec (scm_primitive_add_event event_new_ok event_add_ok
                    lst fd ev) w in
  w_wait w' = w_wait w ∧ w_libevt w' = w_libevt w ∧ w_bufs w' = w_bufs w ∧
  ((w_regs w' = w_regs w ∧ w_next w' = w_next w) ∨
   (∃ reg, w_regs w' = <[w_next w := reg]> (w_regs w) ∧
           w_next w' = (w_next w + 1)%N)).
Proof.
  cbv zeta. unfold exec.
  destruct (scm_primitive_add_event event_new_ok event_add_ok lst fd ev w)
    as [r w'] eqn:E. revert E. cbn [snd].
  unfold scm_primitive_add_event, scm_to_int, scm_to_short.
  destruct (in_signed 32 fd); [|intros [= <- <-]; by repeat split; try left].
  destruct (in_signed 16 ev); [|intros [= <- <-]; by repeat split; try left].
  cbv zeta. unfold bind at 1, ret at 1. unfold bind at 1, ret at 1.
  unfold bind at 1, load_libevt.
  destruct (w_libevt w !! h_libevt lst) as [l|];
    [|intros [= <- <-]; by repeat split; try left].
  destruct event_new_ok; unfold event_new.
  - unfold bind at 1. unfold bind at 1, alloc. unfold bind at 1, modify, ret.
    cbv beta iota. set (reg := mk_registration _ _ _ _ _ _).
    destruct (w_next w =? NULL)%N.
    + intros [= <- <-]. cbn. repeat split; try done. right. by exists reg.
    + unfold bind, event_add. cbn [w_regs set_regs].
      rewrite lookup_insert_eq. destruct event_add_ok.
      * change (0 =? -1) with false. cbv iota. intros [= <- <-]. cbn.
        repeat split; try done. right. exists (set_pending true reg).
        by rewrite insert_insert_eq.
      * change (-1 =? -1) with true. cbv iota. intros [= <- <-]. cbn.
        repeat split; try done. right. by exists reg.
  - unfold bind, ret. change (NULL =? NULL)%N with true. cbv iota.
    intros [= <- <-]. by repeat split; try left.
Qed.

Lemma remove_frame event_del_ok lst e w :
  let w' := exec (scm_primitive_remove_event event_del_ok lst e) w in
  w_wait w' = w_wait w ∧ w_libevt w' = w_libevt w ∧ w_bufs w' = w_bufs w ∧
  w_next w' = w_next w ∧
  (w_regs w' = w_regs w ∨
   ∃ reg, w_regs w !! e = Some reg ∧
          w_regs w' = <[e := set_pending false reg]> (w_regs w)).
Proof.
  cbv zeta. unfold exec.
  destruct (scm_primitive_remove_event event_del_ok lst e w)
    as [r w'] eqn:E. revert E. cbn [snd].
  unfold scm_primitive_remove_event, bind, event_del.
  destruct (w_regs w !! e) as [reg|] eqn:Hreg;
    [|intros [= <- <-]; by repeat split; try left].
  destruct event_del_ok.
  - change (0 =? -1) with false. cbv iota. intros [= <- <-]. cbn.
    repeat split; try done. right. by exists reg.
  - change (-1 =? -1) with true. cbv iota. intros [= <- <-].
    by repeat split; try left.
Qed.

Lemma resize_frame lst eventsv w :
  let w' := exec (scm_primitive_resize lst eventsv) w in
  w_libevt w' = w_libevt w ∧ w_bufs w' = w_bufs w ∧ w_regs w' = w_regs w ∧
  w_next w' = w_next w ∧
  (w_wait w' = w_wait w ∨
   ∃ d, w_wait w !! h_data lst = Some d ∧
        w_wait w' = <[h_data lst := mk_wait_data (wd_rv d) (bv_contents eventsv)
                                                 (capacity_of eventsv)]>
                      (w_wait w)).
Proof.
  cbv zeta. unfold exec.
  destruct (w_wait w !! h_data lst) as [d|] eqn:Hd.
  - rewrite (run_resize lst eventsv w d Hd). cbn.
    repeat split; try done. right. by exists d.
  - unfold scm_primitive_resize, assign_events, bind, load_wait. rewrite Hd.
    cbn. by repeat split; try left.
Qed.

(** ** Invariants of a session *)

Lemma allocated_below_loop : loop_invariant allocated_below.
Proof.
  split; try done.
  - intros p d v w Hd (Hw & Hl & Hr). split; [|done]. cbn.
    apply map_Forall_insert_2; [by apply (Hw p d)|done].
  - intros e reg w Hreg (Hw & Hl & Hr). split; [done|]. split; [done|]. cbn.
    apply map_Forall_insert_2; [by apply (Hr e reg)|done].
Qed.

Lemma resized_to_loop data eventsv : loop_invariant (resized_to data eventsv).
Proof.
  split; try done.
  intros p d v w Hd (d0 & Hd0 & He & Hm). unfold resized_to. cbn.
  destruct (decide (p = data)) as [->|Hne].
  - rewrite lookup_insert_eq. eexists. split; [done|]. cbn.
    rewrite Hd in Hd0. by injection Hd0 as ->.
  - rewrite lookup_insert_ne by done. by exists d0.
Qed.

Lemma retired_loop e : loop_invariant (retired e).
Proof.
  split; try done.
  intros e' reg w Hreg (reg0 & Hreg0 & Hnp). unfold retired. cbn.
  destruct (decide (e' = e)) as [->|Hne].
  - rewrite lookup_insert_eq. by eexists.
  - rewrite lookup_insert_ne by done. by exists reg0.
Qed.

Lemma map_Forall_below {V} (m : gmap ptr V) (n n' : N) :
  (n ≤ n')%N → map_Forall (λ p _, (p < n)%N) m → map_Forall (λ p _, (p < n')%N) m.
Proof. intros Hle Hm p v Hp. specialize (Hm p v Hp). simpl in *. lia. Qed.

Lemma run_op_allocated_below o w :
  allocated_below w → allocated_below (run_op o w).
Proof.
  intros Hw. destruct o as [fd|ok bv|ok1 ok2 lst fd ev|ok lst e|lst bv
                            |env lst a b t]; cbn [run_op]; unfold exec.
  - destruct (scm_primitive_event_wake fd w) as [r w'] eqn:E.
    exact (keeps_event_wake _ allocated_below_loop fd w r w' E Hw).
  - destruct Hw as (Hwait & Hlib & Hregs).
    destruct (create_frame ok bv w) as (Hr & _ & [(Hw' & Hl' & Hn)|(Hw' & Hl' & Hn)]);
      unfold exec in *; unfold allocated_below; rewrite Hr, Hw', Hl'.
    + split; [|split]; by eapply map_Forall_below.
    + rewrite Hn. split; [|split].
      * apply map_Forall_insert_2; [lia|].
        eapply map_Forall_below; [|done]. lia.
      * apply map_Forall_insert_2; [lia|].
        eapply map_Forall_below; [|done]. lia.
      * eapply map_Forall_below; [|done]. lia.
  - destruct Hw as (Hwait & Hlib & Hregs).
    destruct (add_frame ok1 ok2 lst fd ev w)
      as (Hw' & Hl' & _ & [(Hr & Hn)|(reg & Hr & Hn)]);
      unfold exec in *; unfold allocated_below; rewrite Hr, Hw', Hl', Hn.
    + done.
    + split; [|split].
      * eapply map_Forall_below; [|done]. lia.
      * eapply map_Forall_below; [|done]. lia.
      * apply map_Forall_insert_2; [lia|].
        eapply map_Forall_below; [|done]. lia.
  - destruct Hw as (Hwait & Hlib & Hregs).
    destruct (remove_frame ok lst e w)
      as (Hw' & Hl' & _ & Hn & [Hr|(reg & Hreg & Hr)]);
      unfold exec in *; unfold allocated_below; rewrite Hr, Hw', Hl', Hn.
    + done.
    + split; [done|]. split; [done|].
      apply map_Forall_insert_2; [by apply (Hregs e reg)|done].
  - destruct Hw as (Hwait & Hlib & Hregs).
    destruct (resize_frame lst bv w)
      as (Hl' & _ & Hr & Hn & [Hw'|(d & Hd & Hw')]);
      unfold exec in *; unfold allocated_below; rewrite Hr, Hw', Hl', Hn.
    + done.
    + split; [|done].
      apply map_Forall_insert_2; [by apply (Hwait _ d)|done].
  - destruct (scm_primitive_event_loop env lst a b t w) as [r w'] eqn:E.
    exact (keeps_event_loop _ allocated_below_loop env lst a b t w r w' E Hw).
Qed.

Lemma run_op_resized_to data eventsv o w :
  resizes data o = false → allocated_below w →
  resized_to data eventsv w → resized_to data eventsv (run_op o w).
Proof.
  intros Hres Hbelow Hw.
  destruct o as [fd|ok bv|ok1 ok2 lst fd ev|ok lst e|lst bv|env lst a b t];
    cbn [run_op]; unfold exec.
  - destruct (scm_primitive_event_wake fd w) as [r w'] eqn:E.
    exact (keeps_event_wake _ (resized_to_loop data eventsv) fd w r w' E Hw).
  - destruct Hw as (d & Hd & He & Hm). unfold resized_to.
    destruct (create_frame ok bv w) as (_ & _ & [(Hw' & _)|(Hw' & _)]);
      unfold exec in *; rewrite Hw'.
    + by exists d.
    + rewrite lookup_insert_ne; [by exists d|].
      pose proof (proj1 Hbelow data d Hd) as Hlt. simpl in Hlt. lia.
  - destruct (add_frame ok1 ok2 lst fd ev w) as (Hw' & _).
    unfold exec, resized_to in *. by rewrite Hw'.
  - destruct (remove_frame ok lst e w) as (Hw' & _).
    unfold exec, resized_to in *. by rewrite Hw'.
  - cbn [resizes] in Hres. apply bool_decide_eq_false in Hres.
    destruct Hw as (d & Hd & He & Hm). unfold resized_to.
    destruct (resize_frame lst bv w) as (_ & _ & _ & _ & [Hw'|(d0 & Hd0 & Hw')]);
      unfold exec in *; rewrite Hw'.
    + by exists d.
    + rewrite lookup_insert_ne by done. by exists d.
  - destruct (scm_primitive_event_loop env lst a b t w) as [r w'] eqn:E.
    exact (keeps_event_loop _ (resized_to_loop data eventsv)
             env lst a b t w r w' E Hw).
Qed.

Lemma run_op_retired e o w :
  allocated_below w → retired e w → retired e (run_op o w).
Proof.
  intros Hbelow Hw.
  destruct o as [fd|ok bv|ok1 ok2 lst fd ev|ok lst e0|lst bv|env lst a b t];
    cbn [run_op]; unfold exec.
  - destruct (scm_primitive_event_wake fd w) as [r w'] eqn:E.
    exact (keeps_event_wake _ (retired_loop e) fd w r w' E Hw).
  - destruct (create_frame ok bv w) as (Hr & _).
    unfold exec, retired in *. by rewrite Hr.
  - destruct Hw as (reg & Hreg & Hnp). unfold retired.
    destruct (add_frame ok1 ok2 lst fd ev w)
      as (_ & _ & _ & [(Hr & _)|(reg' & Hr & _)]);
      unfold exec in *; rewrite Hr.
    + by exists reg.
    + rewrite lookup_insert_ne; [by exists reg|].
      pose proof (proj2 (proj2 Hbelow) e reg Hreg) as Hlt. simpl in Hlt. lia.
  - destruct Hw as (reg & Hreg & Hnp). unfold retired.
    destruct (remove_frame ok lst e0 w)
      as (_ & _ & _ & _ & [Hr|(reg' & Hreg' & Hr)]);
      unfold exec in *; rewrite Hr.
    + by exists reg.
    + destruct (decide (e0 = e)) as [->|Hne].
      * rewrite lookup_insert_eq. by eexists.
      * rewrite lookup_insert_ne by done. by exists reg.
  - destruct (resize_frame lst bv w) as (_ & _ & Hr & _).
    unfold exec, retired in *. by rewrite Hr.
  - destruct (scm_primitive_event_loop env lst a b t w) as [r w'] eqn:E.
    exact (keeps_event_loop _ (retired_loop e) env lst a b t w r w' E Hw).
Qed.

Lemma run_ops_app ops1 ops2 w :
  run_ops (ops1 ++ ops2) w = run_ops ops2 (run_ops ops1 w).
Proof. unfold run_ops. apply foldl_app. Qed.

Lemma run_ops_allocated_below ops : ∀ w,
  allocated_below w → allocated_below (run_ops ops w).
Proof.
  induction ops as [|o ops IH]; intros w Hw; [done|].
  apply IH. by apply run_op_allocated_below.
Qed.

Lemma run_ops_resized_to data eventsv ops : ∀ w,
  Forall (λ o, resizes data o = false) ops → allocated_below w →
  resized_to data eventsv w → resized_to data eventsv (run_ops ops w).
Proof.
  induction ops as [|o ops IH]; intros w Hops Hbelow Hw; [done|].
  apply Forall_cons in Hops as [Ho Hops]. apply IH; [done| |].
  - by apply run_op_allocated_below.
  - by apply run_op_resized_to.
Qed.

Lemma run_ops_retired e ops : ∀ w,
  allocated_below w → retired e w → retired e (run_ops ops w).
Proof.
  induction ops as [|o ops IH]; intros w Hbelow Hw; [done|].
  apply IH; [by apply run_op_allocated_below|by apply run_op_retired].
Qed.

(** C7. [primitive-resize] points the [wait_data] of the handle at the
    contents of the new bytevector and sets its capacity to the
    bytevector's length divided by the record size, as an [int] (the
    quotient itself when it fits one); it touches no buffer.  From then
    on, whatever calls of the six primitives follow, with whatever
    arguments and outcomes, short of another [primitive-resize] of this
    [wait_data], the [wait_data] stays on the new contents with the new
    capacity, and every iteration on the handle that goes through its
    wait follows the new buffer alone: when the count and the callbacks
    that fire fit the new capacity it completes, has deposited the
    records in the new contents and has changed no other buffer; when
    they exceed it the iteration raises the "max events fired" error
    with every slot at or past the new capacity as it was and no other
    buffer changed.  In both cases the [wait_data] it leaves is still
    on the new contents with the new capacity, and neither the old
    capacity nor the old contents play a part. *)
Theorem resize_then_iterate lst eventsv w d :
  allocated_below w →
  w_wait w !! h_data lst = Some d →
  ∃ w1,
    scm_primitive_resize lst eventsv w = (Ok tt, w1) ∧
    w_wait w1 !! h_data lst
    = Some (mk_wait_data (wd_rv d) (bv_contents eventsv)
                         (capacity_of eventsv)) ∧
    w_bufs w1 = w_bufs w ∧
    (0 ≤ bv_length eventsv `div` sizeof_event_data ≤ INT_MAX →
     capacity_of eventsv = bv_length eventsv `div` sizeof_event_data) ∧
    ∀ ops, Forall (λ o, resizes (h_data lst) o = false) ops →
      let wk := run_ops ops w1 in
      ∃ dk,
        w_wait wk !! h_data lst = Some dk ∧
        wd_events dk = bv_contents eventsv ∧
        wd_maxevents dk = capacity_of eventsv ∧
        ∀ env wakefd wokefd timeout l buf,
          in_signed 32 wakefd = true → in_signed 32 wokefd = true →
          in_signed 64 timeout = true →
          h_data lst ≠ NULL →
          w_libevt wk !! h_libevt lst = Some l →
          w_bufs wk !! bv_contents eventsv = Some buf →
          0 ≤ wd_rv dk →
          capacity_of eventsv ≤ Z.of_nat (length buf) →
          let cbs := fired (le_base l) (w_regs wk) (ready env) in
          Forall (λ c, c.2 = h_data lst) cbs →
          loop_ok env = true →
          (timeout ≠ 0 → prepare_interrupted env = false) →
          (0 ≤ timeout →
           loopexit_ok env = true ∧ scm_c_time_units_per_second wk ≠ 0) →
          drains_freely wk wokefd = true →
          let out := scm_primitive_event_loop env lst wakefd wokefd timeout wk in
          resized_to (h_data lst) eventsv out.2 ∧
          (wd_rv dk + Z.of_nat (length cbs) ≤ capacity_of eventsv →
           out.1 = Ok (Z.of_nat (length (remove_woke wokefd
                                           (collected dk buf cbs)))) ∧
           w_bufs out.2 = <[bv_contents eventsv :=
                              result_buffer wokefd dk buf cbs]> (w_bufs wk)) ∧
          (capacity_of eventsv < wd_rv dk + Z.of_nat (length cbs) →
           cbs ≠ [] →
           ∃ fd buf',
             out.1 = Throw (max_events_error fd) ∧
             w_bufs out.2 = <[bv_contents eventsv := buf']> (w_bufs wk) ∧
             length buf' = length buf ∧
             (∀ i, capacity_of eventsv ≤ Z.of_nat i → buf' !! i = buf !! i)).
Proof.
  intros Hbelow Hd.
  assert (Hmax : capacity_of eventsv ≤ INT_MAX) by apply to_int_max.
  eexists. split; [by apply run_resize|].
  set (w1 := set_wait _ w).
  assert (Hd1 : w_wait w1 !! h_data lst
                = Some (mk_wait_data (wd_rv d) (bv_contents eventsv)
                                     (capacity_of eventsv)))
    by (simpl; apply lookup_insert_eq).
  split; [done|]. split; [done|]. split.
  { intros Hint32. unfold capacity_of. apply to_int_id.
    unfold INT_MAX in *. lia. }
  intros ops Hops wk.
  assert (Hbelow1 : allocated_below w1).
  { destruct Hbelow as (Hw & Hl & Hr). split; [|done]. cbn.
    apply map_Forall_insert_2; [by apply (Hw _ d)|done]. }
  assert (Hres1 : resized_to (h_data lst) eventsv w1) by (by eexists).
  destruct (run_ops_resized_to (h_data lst) eventsv ops w1 Hops Hbelow1 Hres1)
    as (dk & Hdk & Hek & Hmk).
  fold wk in Hdk. exists dk. split; [done|]. split; [done|]. split; [done|].
  intros env wakefd wokefd timeout l buf Hwake Hwoke Htime Hnn Hl Hbuf Hrv Hcap
         cbs Hall Hloop Hint Hexit Hfree out.
  split.
  { subst out.
    destruct (scm_primitive_event_loop env lst wakefd wokefd timeout wk)
      as [r w'] eqn:E.
    apply (keeps_event_loop _ (resized_to_loop (h_data lst) eventsv)
             env lst wakefd wokefd timeout wk r w' E). by exists dk. }
  rewrite <- Hek in Hbuf. rewrite <- Hmk in Hcap, Hmax |- *. rewrite <- Hek.
  split.
  - intros Hfit.
    destruct (event_loop_outcome env lst wakefd wokefd timeout wk l dk buf)
      as (w' & reads & Hrun & _ & Hbufs & _).
    + by constructor.
    + done.
    + subst out. fold cbs in Hrun, Hbufs. by rewrite Hrun.
  - intros Hover Hsome.
    destruct (event_loop_overflow env lst wakefd wokefd timeout wk l dk buf)
      as (fd & w' & buf' & Hrun & Hrest); try done.
    subst out. rewrite Hrun. by exists fd, buf'.
Qed.

(** After the resize to the bytevector of two records: an iteration in
    which three callbacks fire raises the error and leaves the count at
    two, an interrupted one resets it, a watch is added and the wake
    descriptor written; the iteration that follows, with two watches
    reported, returns two, with its records in the new contents and the
    old contents as they were. *)
Lemma resize_then_iterate_witness :
  let w1 := (scm_primitive_resize ex_lst ex_smaller ex_watching).2 in
  let ops := [Op_loop (ex_env [(4%N, EV_READ); (5%N, EV_READ); (4%N, EV_READ)])
                      ex_lst 6 3 0;
              Op_loop (mk_loop_env true true true []) ex_lst 6 3 (-1);
              Op_add true true ex_lst 9 EV_READ;
              Op_wake 5] in
  let wk := run_ops ops w1 in
  let out := scm_primitive_event_loop (ex_env [(6%N, EV_READ); (4%N, EV_READ)])
               ex_lst 6 3 (-1) wk in
  wd_rv <$> (w_wait (run_ops (take 1 ops) w1) !! 3%N) = Some 2 ∧
  out.1 = Ok 2 ∧
  w_bufs out.2 !! 200%N = Some [mk_event_data 9 2; mk_event_data 5 2] ∧
  w_bufs out.2 !! 100%N = w_bufs ex_watching !! 100%N ∧
  resized_to 3%N ex_smaller out.2.
Proof.
  cbv zeta.
  destruct (resize_then_iterate ex_lst ex_smaller ex_watching ex_data)
    as (w1 & Hrun & _ & _ & _ & Hops).
  { apply (bool_decide_unpack _). vm_compute. reflexivity. }
  { vm_compute. reflexivity. }
  rewrite Hrun. cbn [snd].
  assert (Hw1 : w1 = (scm_primitive_resize ex_lst ex_smaller ex_watching).2)
    by (by rewrite Hrun).
  set (ops := [Op_loop _ _ _ _ _; Op_loop _ _ _ _ _; Op_add _ _ _ _ _; Op_wake _]).
  destruct (Hops ops) as (dk & Hdk & _ & _ & Hiter).
  { apply (bool_decide_unpack _). vm_compute. reflexivity. }
  assert (Hdk' : dk = mk_wait_data 0 200%N 2).
  { rewrite Hw1 in Hdk. vm_compute in Hdk. by injection Hdk as <-. }
  destruct (Hiter (ex_env [(6%N, EV_READ); (4%N, EV_READ)]) 6 3 (-1)
              ex_libevt [mk_event_data 5 2; mk_event_data 7 2])
    as (Hres & Hfit & _).
  all: try (rewrite ?Hdk', ?Hw1; first [reflexivity | by vm_compute
        | apply (bool_decide_unpack _); vm_compute; reflexivity]).
  destruct Hfit as [Hout Hbufs].
  { rewrite Hdk', Hw1. by vm_compute. }
  split; [rewrite Hw1; vm_compute; reflexivity|].
  split; [rewrite Hout, Hdk', Hw1; vm_compute; reflexivity|].
  split; [rewrite Hbufs, lookup_insert_eq, Hdk', Hw1; vm_compute; reflexivity|].
  split; [rewrite Hbufs, lookup_insert_ne by done; rewrite Hw1; vm_compute;
          reflexivity|].
  exact Hres.
Defined.

(** ** Entering and leaving the wait *)

(** C4. An iteration with a timeout other than zero first calls
    [scm_c_prepare_to_wait_on_fd] on the wake descriptor.  When that
    reports an interrupt it makes no other call.  Otherwise it enters
    [scm_without_guile], the calls of the wait follow, and, when the
    wait returns, it leaves [scm_without_guile] and calls
    [scm_c_wait_finished]; after that it only reads the woke
    descriptor.  When the wait does not return, nothing follows its
    calls.  An iteration with timeout zero makes the calls of the wait
    and then only reads the woke descriptor: it calls none of
    [scm_c_prepare_to_wait_on_fd], [scm_without_guile] and
    [scm_c_wait_finished]. *)
Theorem event_loop_wait_protocol env lst wakefd wokefd timeout w l :
  in_signed 32 wakefd = true → in_signed 32 wokefd = true →
  in_signed 64 timeout = true →
  h_data lst ≠ NULL →
  w_libevt w !! h_libevt lst = Some l →
  let out := scm_primitive_event_loop env lst wakefd wokefd timeout w in
  let loop_data := mk_loop_data (le_base l) timeout in
  (timeout ≠ 0 →
   if prepare_interrupted env then
     w_trace out.2 = w_trace w ++ [E_prepare_to_wait_on_fd wakefd true]
   else
     let entered :=
       set_trace (w_trace w ++ [E_prepare_to_wait_on_fd wakefd false;
                                E_without_guile_begin]) w in
     let wait := run_event_loop env loop_data entered in
     ∃ calls, w_trace wait.2 = w_trace entered ++ calls ∧
              Forall wait_effect calls ∧
              match wait.1 with
              | Ok _ =>
                  ∃ reads,
                    w_trace out.2 = w_trace wait.2
                                    ++ [E_without_guile_end; E_wait_finished]
                                    ++ reads ∧
                    Forall (is_read_on wokefd) reads
              | Throw e => out = (Throw e, wait.2)
              | Fault => out = (Fault, wait.2)
              | Hang => out = (Hang, wait.2)
              end) ∧
  (timeout = 0 →
   let wait := run_event_loop env loop_data w in
   ∃ calls reads,
     w_trace wait.2 = w_trace w ++ calls ∧ Forall wait_effect calls ∧
     w_trace out.2 = w_trace wait.2 ++ reads ∧
     Forall (is_read_on wokefd) reads).
Proof.
  intros Hwake Hwoke Htime Hnn Hl out loop_data. subst out.
  destruct (scm_primitive_event_loop env lst wakefd wokefd timeout w)
    as [r w'] eqn:Hrun. cbn [fst snd].
  unfold scm_primitive_event_loop, scm_to_int, scm_to_int64 in Hrun.
  rewrite Hwake, Hwoke, Htime in Hrun.
  unfold bind at 1, ret at 1 in Hrun. unfold bind at 1, ret at 1 in Hrun.
  unfold bind at 1, ret at 1 in Hrun.
  destruct (h_data lst =? NULL)%N eqn:En; [apply N.eqb_eq in En; done|].
  unfold bind at 1, ret at 1 in Hrun.
  assert (Htail : ∀ w1 r1 w1',
            bind (strip_woke (h_data lst) wokefd) (λ _, finish (h_data lst)) w1
              = (r1, w1') →
            ∃ reads, w_trace w1' = w_trace w1 ++ reads ∧
                     Forall (is_read_on wokefd) reads).
  { intros w1 r1 w1' H.
    apply (emits_bind (is_read_on wokefd)) in H; [done|..].
    - apply emits_strip_woke.
    - intros _. apply silent_emits, silent_finish. }
  split.
  - intros Ht. destruct (timeout =? 0) eqn:E0; [lia|]. cbn [negb andb] in Hrun.
    unfold bind at 1, scm_c_prepare_to_wait_on_fd in Hrun.
    unfold bind at 1, log, modify in Hrun. unfold ret at 1 in Hrun.
    destruct (prepare_interrupted env).
    + set (w0 := set_trace _ w) in Hrun.
      assert (silent (bind (assign_rv (h_data lst) 0)
                           (λ _, finish (h_data lst)))) as Hs.
      { apply silent_bind; [apply silent_assign_rv|].
        intros _. apply silent_finish. }
      by rewrite (Hs w0 r w' Hrun).
    + cbv zeta. set (entered := set_trace (w_trace w ++ [_; _]) w).
      unfold bind at 1 in Hrun. unfold bind at 1, load_libevt in Hrun.
      cbn [w_libevt set_trace] in Hrun. rewrite Hl in Hrun.
      unfold bind at 1, scm_without_guile in Hrun.
      unfold bind at 1 in Hrun. unfold bind at 1, log, modify in Hrun.
      cbn [w_trace set_trace] in Hrun. rewrite <- app_assoc in Hrun.
      change (set_trace ?t (set_trace _ w)) with (set_trace t w) in Hrun.
      change (set_trace _ w) with entered in Hrun.
      change (mk_loop_data (le_base l) timeout) with loop_data in Hrun.
      destruct (run_event_loop env loop_data entered) as [rw w1] eqn:Hw.
      destruct (emits_run_event_loop env loop_data entered rw w1 Hw)
        as (calls & Hcalls & Hwait).
      exists calls. split; [done|]. split; [done|].
      unfold bind at 1 in Hrun. cbn [fst snd].
      destruct rw as [[]| | |].
      * unfold bind at 1, log, modify in Hrun. unfold ret at 1 in Hrun.
        unfold bind at 1, scm_c_wait_finished, log, modify in Hrun.
        apply Htail in Hrun as (reads & Hreads & HP). exists reads.
        split; [|done]. rewrite Hreads. simpl. by rewrite <- !app_assoc.
      * by injection Hrun as <- <-.
      * by injection Hrun as <- <-.
      * by injection Hrun as <- <-.
  - intros ->. cbn [Z.eqb negb andb] in Hrun. cbv zeta.
    unfold bind at 1, ret at 1 in Hrun.
    unfold bind at 1 in Hrun. unfold bind at 1, load_libevt in Hrun.
    rewrite Hl in Hrun.
    change (mk_loop_data (le_base l) 0) with loop_data in Hrun.
    destruct (run_event_loop env loop_data w) as [rw w1] eqn:Hw.
    destruct (emits_run_event_loop env loop_data w rw w1 Hw)
      as (calls & Hcalls & Hwait).
    exists calls. unfold bind at 1 in Hrun. unfold bind at 1 in Hrun.
    rewrite ?Hw in Hrun. cbn [fst snd].
    destruct rw as [[]| | |].
    + unfold bind at 1, ret at 1 in Hrun.
      change (bind (load_wait (h_data lst)) _) with (finish (h_data lst)) in Hrun.
      apply (emits_bind (is_read_on wokefd)
               (strip_woke (h_data lst) wokefd) (λ _, finish (h_data lst)))
        in Hrun as (reads & Hreads & HP).
      * by exists reads.
      * apply emits_strip_woke.
      * intros _. apply silent_emits, silent_finish.
    + injection Hrun as <- <-. exists []. by rewrite app_nil_r.
    + injection Hrun as <- <-. exists []. by rewrite app_nil_r.
    + injection Hrun as <- <-. exists []. by rewrite app_nil_r.
Qed.

Lemma event_loop_wait_protocol_witness :
  let env := ex_env [(5%N, EV_READ); (4%N, EV_READ)] in
  let out := scm_primitive_event_loop env ex_lst 6 5 (-1) ex_watching in
  let loop_data := mk_loop_data (le_base ex_libevt) (-1) in
  (-1 ≠ 0 →
   if prepare_interrupted env then
     w_trace out.2 = w_trace ex_watching ++ [E_prepare_to_wait_on_fd 6 true]
   else
     let entered :=
       set_trace (w_trace ex_watching ++ [E_prepare_to_wait_on_fd 6 false;
                                          E_without_guile_begin])
                 ex_watching in
     let wait := run_event_loop env loop_data entered in
     ∃ calls, w_trace wait.2 = w_trace entered ++ calls ∧
              Forall wait_effect calls ∧
              match wait.1 with
              | Ok _ =>
                  ∃ reads,
                    w_trace out.2 = w_trace wait.2
                                    ++ [E_without_guile_end; E_wait_finished]
                                    ++ reads ∧
                    Forall (is_read_on 5) reads
              | Throw e => out = (Throw e, wait.2)
              | Fault => out = (Fault, wait.2)
              | Hang => out = (Hang, wait.2)
              end) ∧
  (-1 = 0 →
   let wait := run_event_loop env loop_data ex_watching in
   ∃ calls reads,
     w_trace wait.2 = w_trace ex_watching ++ calls ∧ Forall wait_effect calls ∧
     w_trace out.2 = w_trace wait.2 ++ reads ∧
     Forall (is_read_on 5) reads).
Proof.
  apply (event_loop_wait_protocol
           (ex_env [(5%N, EV_READ); (4%N, EV_READ)]) ex_lst 6 5 (-1)
           ex_watching ex_libevt); try reflexivity.
  vm_compute. discriminate.
Defined.
(** * Further properties *)

(** ** Memory safety *)

Lemma wait_okb_spec bufs d :
  wait_okb bufs d = true ↔
  ∃ buf, bufs !! wd_events d = Some buf ∧
         0 ≤ wd_rv d ≤ wd_maxevents d ∧ wd_maxevents d ≤ INT_MAX ∧
         wd_maxevents d ≤ Z.of_nat (length buf).
Proof.
  unfold wait_okb. destruct (bufs !! wd_events d) as [buf|].
  - rewrite !andb_true_iff, !Z.leb_le. split.
    + intros H. exists buf. split; [done|]. lia.
    + intros (buf' & [= <-] & H). lia.
  - split; [done|]. by intros (buf & ? & _).
Qed.

Lemma heap_ok_lookup w a d :
  heap_ok w → w_wait w !! a = Some d →
  ∃ buf, w_bufs w !! wd_events d = Some buf ∧
         0 ≤ wd_rv d ≤ wd_maxevents d ∧ wd_maxevents d ≤ INT_MAX ∧
         wd_maxevents d ≤ Z.of_nat (length buf).
Proof.
  intros [Hw _] Hd. apply wait_okb_spec. by apply (Hw a d).
Qed.

Lemma same_layout_refl w : same_layout w w.
Proof. intros a d Hd. by exists d. Qed.

Lemma same_layout_trans w1 w2 w3 :
  same_layout w1 w2 → same_layout w2 w3 → same_layout w1 w3.
Proof.
  intros H12 H23 a d Hd.
  destruct (H12 a d Hd) as (d2 & Hd2 & He2 & Hm2).
  destruct (H23 a d2 Hd2) as (d3 & Hd3 & He3 & Hm3).
  exists d3. split; [done|]. split; congruence.
Qed.

(** Overwriting a buffer by one of the same length and a [wait_data] by
    one within bounds on the same buffer and capacity. *)
Lemma heap_ok_update w a d d' p buf buf' regs' :
  heap_ok w →
  w_wait w !! a = Some d →
  w_bufs w !! p = Some buf → length buf' = length buf →
  wd_events d' = wd_events d → wd_maxevents d' = wd_maxevents d →
  0 ≤ wd_rv d' ≤ wd_maxevents d' →
  map_Forall (λ _ r, is_Some (w_wait w !! reg_arg r)) regs' →
  ∀ w',
    w_wait w' = <[a := d']> (w_wait w) →
    w_bufs w' = <[p := buf']> (w_bufs w) →
    w_regs w' = regs' →
    heap_ok w' ∧ same_layout w w'.
Proof.
  intros Hok Hd Hp Hlen He Hm Hrv Hregs w' Hw Hb Hr.
  assert (Hbufs : ∀ q b, w_bufs w !! q = Some b →
            ∃ b', w_bufs w' !! q = Some b' ∧ length b' = length b).
  { intros q b Hq. rewrite Hb. destruct (decide (p = q)) as [->|Hne].
    - rewrite lookup_insert_eq. exists buf'. split; [done|]. congruence.
    - rewrite lookup_insert_ne by done. by exists b. }
  assert (Hkeep : ∀ x, wait_okb (w_bufs w) x = true →
                       wait_okb (w_bufs w') x = true).
  { intros x Hx. apply wait_okb_spec in Hx as (b & Hq & Hx).
    destruct (Hbufs _ _ Hq) as (b' & Hq' & Hl').
    apply wait_okb_spec. exists b'. split; [done|]. lia. }
  split; [split|].
  - rewrite Hw. apply map_Forall_insert_2.
    + destruct (heap_ok_lookup w a d Hok Hd) as (b & Hq & Hx).
      destruct (Hbufs _ _ Hq) as (b' & Hq' & Hl').
      apply wait_okb_spec. exists b'. rewrite He, Hm. split; [done|].
      rewrite Hm in Hrv. lia.
    + intros x dx Hx. apply Hkeep. by apply (proj1 Hok x dx).
  - rewrite Hr, Hw. intros e r Hreg. specialize (Hregs e r Hreg). simpl in Hregs.
    destruct (decide (a = reg_arg r)) as [->|Hne].
    + rewrite lookup_insert_eq. by eexists.
    + by rewrite lookup_insert_ne.
  - intros x dx Hx. rewrite Hw. destruct (decide (a = x)) as [->|Hne].
    + rewrite lookup_insert_eq. exists d'. rewrite Hd in Hx.
      injection Hx as <-. done.
    + rewrite lookup_insert_ne by done. by exists dx.
Qed.

Lemma heap_ok_same_heap w w' :
  heap_ok w →
  w_wait w' = w_wait w → w_bufs w' = w_bufs w →
  map_Forall (λ _ r, is_Some (w_wait w !! reg_arg r)) (w_regs w') →
  heap_ok w' ∧ same_layout w w'.
Proof.
  intros [Hw Hr] Hwait Hbufs Hregs. split; [split|].
  - by rewrite Hwait, Hbufs.
  - by rewrite Hwait.
  - intros a d Hd. exists d. by rewrite Hwait.
Qed.

Lemma keeps_heap_safe {A} (m : M A) : keeps_heap m → safe m.
Proof.
  intros Hm w Hok. destruct (m w) as [r w'] eqn:E.
  destruct (Hm w r w' E) as (Hr & Hwait & Hbufs & Hregs). simpl.
  split; [done|]. apply (heap_ok_same_heap w w'); try done.
  rewrite Hregs. apply Hok.
Qed.

Lemma safe_bind {A B} (m : M A) (k : A → M B) :
  safe m → (∀ a, safe (k a)) → safe (bind m k).
Proof.
  intros Hm Hk w Hok. unfold bind.
  destruct (Hm w Hok) as (Hr & Hok1 & Hl1).
  destruct (m w) as [[a| | |] w1]; simpl in *; try done.
  destruct (Hk a w1 Hok1) as (Hr2 & Hok2 & Hl2).
  destruct (k a w1) as [r2 w2]; simpl in *.
  split; [done|]. split; [done|]. by eapply same_layout_trans.
Qed.

Lemma keeps_heap_bind {A B} (m : M A) (k : A → M B) :
  keeps_heap m → (∀ a, keeps_heap (k a)) → keeps_heap (bind m k).
Proof.
  intros Hm Hk w r w'. unfold bind.
  destruct (m w) as [[a| | |] w1] eqn:E; intros Hrun;
    destruct (Hm w _ w1 E) as (Hr & Hwait & Hbufs & Hregs).
  - destruct (Hk a w1 r w' Hrun) as (Hr2 & Hwait2 & Hbufs2 & Hregs2).
    split; [done|]. split; [congruence|]. split; congruence.
  - by injection Hrun as <- <-.
  - done.
  - by injection Hrun as <- <-.
Qed.

Lemma keeps_heap_ret {A} (a : A) : keeps_heap (ret a).
Proof. by intros w r w' [= <- <-]. Qed.

Lemma keeps_heap_throw {A} e : keeps_heap (@throw A e).
Proof. by intros w r w' [= <- <-]. Qed.

Lemma keeps_heap_log e : keeps_heap (log e).
Proof. by intros w r w' [= <- <-]. Qed.

Lemma keeps_heap_sys_read fd count : keeps_heap (sys_read fd count).
Proof.
  intros w r w'. unfold sys_read.
  destruct (w_fds w !! fd) as [[p room nb|e]|].
  - destruct (p =? 0)%N; [destruct nb|]; by intros [= <- <-].
  - by intros [= <- <-].
  - by intros [= <- <-].
Qed.

Lemma keeps_heap_sys_write fd : keeps_heap (sys_write fd).
Proof.
  intros w r w'. unfold sys_write.
  destruct (w_fds w !! fd) as [[p room nb|e]|].
  - destruct (room =? 0)%N; [destruct nb|]; by intros [= <- <-].
  - by intros [= <- <-].
  - by intros [= <- <-].
Qed.

Lemma keeps_heap_drain_loop fuel fd : keeps_heap (drain_loop fuel fd).
Proof.
  induction fuel as [|fuel IH]; simpl.
  - by intros w r w' [= <- <-].
  - apply keeps_heap_bind; [apply keeps_heap_sys_read|]. intros n.
    destruct (n =? 32); [done|apply keeps_heap_ret].
Qed.

Lemma keeps_heap_drain fd : keeps_heap (drain fd).
Proof.
  intros w r w'. unfold drain, bind, get. apply keeps_heap_drain_loop.
Qed.

Lemma cb_func_safe fd what arg w :
  heap_ok w → is_Some (w_wait w !! arg) →
  ∃ r w', cb_func fd what arg w = (r, w') ∧
          (r = Ok tt ∨ r = Throw (max_events_error fd)) ∧
          heap_ok w' ∧ same_layout w w'.
Proof.
  intros Hok [d Hd].
  destruct (heap_ok_lookup w arg d Hok Hd) as (buf & Hb & Hrv & Hmax & Hcap).
  destruct (decide (wd_maxevents d ≤ wd_rv d)) as [Hfull|Hroom].
  - rewrite (cb_func_full fd what arg w d) by done.
    eexists _, _. split; [done|]. split; [by right|].
    split; [done|apply same_layout_refl].
  - rewrite (cb_func_deposit fd what arg w d buf) by (done || lia).
    eexists _, _. split; [done|]. split; [by left|].
    apply (heap_ok_update w arg d
             (mk_wait_data (wd_rv d + 1) (wd_events d) (wd_maxevents d))
             (wd_events d) buf
             (<[Z.to_nat (wd_rv d) := mk_event_data fd what]> buf) (w_regs w));
      [done|done|done|apply length_insert|done|done|simpl; lia
      |apply Hok|done|done|done].
Qed.

Lemma safe_activate base x : safe (activate base x).
Proof.
  intros w Hok. destruct (activate base x w) as [r w'] eqn:E. simpl.
  revert E. unfold activate. unfold bind at 1. unfold get. cbv beta iota.
  destruct (w_regs w !! x.1) as [reg|] eqn:Hreg;
    [|by intros [= <- <-]; split; [|split; [|apply same_layout_refl]]].
  destruct (reg_pending reg && (reg_base reg =? base)%N);
    [|by intros [= <- <-]; split; [|split; [|apply same_layout_refl]]].
  unfold bind at 1. unfold modify at 1. cbv beta iota.
  unfold bind at 1. unfold log, modify. cbv beta iota.
  set (w1 := set_trace _ (set_regs _ w)).
  assert (is_Some (w_wait w !! reg_arg reg)) as Hlive
    by apply (proj2 Hok _ _ Hreg).
  destruct (heap_ok_same_heap w w1 Hok) as [Hok1 Hl1]; try done.
  { simpl. unfold disarm. destruct (reg_persistent reg); [apply Hok|].
    apply map_Forall_insert_2; [done|apply Hok]. }
  destruct (reg_cb reg). simpl.
  destruct (cb_func_safe (reg_fd reg) (to_short x.2) (reg_arg reg) w1 Hok1 Hlive)
    as (r1 & w1' & Hrun & Hr & Hok' & Hl').
  rewrite Hrun. intros [= <- <-]. split; [by destruct Hr as [-> | ->]|].
  split; [done|]. exact (same_layout_trans _ _ _ Hl1 Hl').
Qed.

Lemma safe_process_active base rs : safe (process_active base rs).
Proof.
  induction rs as [|x rs IH]; simpl.
  - apply keeps_heap_safe, keeps_heap_ret.
  - apply safe_bind; [apply safe_activate|]. by intros _.
Qed.

Lemma safe_event_base_loop env base : safe (event_base_loop env base).
Proof.
  unfold event_base_loop.
  apply safe_bind; [apply keeps_heap_safe, keeps_heap_log|]. intros _.
  destruct (loop_ok env); [|apply keeps_heap_safe, keeps_heap_ret].
  apply safe_bind; [apply safe_process_active|].
  intros _. apply keeps_heap_safe, keeps_heap_ret.
Qed.

Lemma run_event_loop_safe env p w :
  heap_ok w →
  (0 ≤ ld_timeout p → scm_c_time_units_per_second w ≠ 0) →
  let out := run_event_loop env p w in
  out.1 ≠ Fault ∧ heap_ok out.2 ∧ same_layout w out.2.
Proof.
  intros Hok Hunits. cbv zeta.
  destruct (run_event_loop env p w) as [r w'] eqn:E. simpl.
  revert E. unfold run_event_loop.
  assert (Hrest : safe (bind (event_base_loop env (ld_base p))
            (λ ret_, if ret_ =? -1 then
               SCM_MISC_ERROR "primitive-event-loop" "event loop failed" []
             else ret tt))).
  { apply safe_bind; [apply safe_event_base_loop|]. intros z.
    destruct (z =? -1); apply keeps_heap_safe;
      [apply keeps_heap_throw|apply keeps_heap_ret]. }
  unfold bind at 1. destruct (0 <=? ld_timeout p) eqn:E.
  - unfold bind at 1. unfold get. cbv beta iota.
    destruct (scm_c_time_units_per_second w =? 0) eqn:E0; [lia|].
    unfold bind at 1. unfold event_base_loopexit. unfold bind at 1.
    unfold log, modify. cbv beta iota.
    unfold ret at 1. set (w1 := set_trace _ w).
    destruct (heap_ok_same_heap w w1 Hok) as [Hok1 Hl1]; try done.
    { apply Hok. }
    destruct (loopexit_ok env).
    + change (0 =? -1) with false. cbv iota. unfold ret at 1.
      destruct (Hrest w1 Hok1) as (Hr & Hok2 & Hl2). intros Hrun.
      rewrite Hrun in Hr, Hok2, Hl2. simpl in *.
      split; [done|]. split; [done|]. exact (same_layout_trans _ _ _ Hl1 Hl2).
    + change (-1 =? -1) with true. cbv iota. by intros [= <- <-].
  - unfold ret at 1. intros Hrun. pose proof (Hrest w Hok) as H.
    by rewrite Hrun in H.
Qed.

Lemma safe_safe_at {A} (m : M A) w :
  safe m → heap_ok w → safe_at w m (λ _ _, True).
Proof. intros Hm Hok. destruct (Hm w Hok) as (? & ? & ?). by split; [|split; [|split]]. Qed.

Lemma safe_at_bind {A B} (m : M A) (k : A → M B) w Q1 Q2 :
  safe_at w m Q1 →
  (∀ a w1, m w = (Ok a, w1) → heap_ok w1 → same_layout w w1 → Q1 a w1 →
           safe_at w1 (k a) Q2) →
  safe_at w (bind m k) Q2.
Proof.
  intros (Hr & Hok1 & Hl1 & HQ1) Hk. unfold safe_at, bind.
  destruct (m w) as [[a| | |] w1]; simpl in *; try done.
  destruct (Hk a w1 eq_refl Hok1 Hl1 (HQ1 a eq_refl)) as (Hr2 & Hok2 & Hl2 & HQ2).
  split; [done|]. split; [done|].
  split; [exact (same_layout_trans _ _ _ Hl1 Hl2)|done].
Qed.

Lemma safe_at_log {B} e (k : unit → M B) w Q :
  safe_at (set_trace (w_trace w ++ [e]) w) (k tt) Q →
  safe_at w (bind (log e) k) Q.
Proof. intros H. exact H. Qed.

Lemma safe_at_ret {A} (a : A) w (Q : A → world → Prop) :
  heap_ok w → Q a w → safe_at w (ret a) Q.
Proof.
  intros Hok HQ. split; [done|]. split; [done|].
  split; [apply same_layout_refl|]. by intros ? [= <-].
Qed.

Lemma safe_at_throw {A} e w (Q : A → world → Prop) :
  heap_ok w → safe_at w (throw e) Q.
Proof.
  intros Hok. split; [done|]. split; [done|].
  split; [apply same_layout_refl|done].
Qed.

Lemma assign_rv_safe a v w d :
  heap_ok w → w_wait w !! a = Some d → 0 ≤ v ≤ wd_maxevents d →
  safe_at w (assign_rv a v)
    (λ _ w', w_wait w' !! a
             = Some (mk_wait_data v (wd_events d) (wd_maxevents d))).
Proof.
  intros Hok Hd Hv. unfold safe_at. rewrite (run_assign_rv a v w d Hd). simpl.
  destruct (heap_ok_lookup w a d Hok Hd) as (buf & Hb & _).
  destruct (heap_ok_update w a d
              (mk_wait_data v (wd_events d) (wd_maxevents d))
              (wd_events d) buf buf (w_regs w) Hok Hd Hb eq_refl eq_refl
              eq_refl Hv (proj2 Hok)
              (set_wait (<[a := mk_wait_data v (wd_events d) (wd_maxevents d)]>
                           (w_wait w)) w)) as [Hok' Hl'];
    [done|simpl; symmetry; by apply insert_id|done|].
  split; [done|]. split; [done|]. split; [done|].
  intros _ _. apply lookup_insert_eq.
Qed.

Lemma finish_safe a w :
  heap_ok w → is_Some (w_wait w !! a) →
  safe_at w (finish a)
    (λ n w', ∃ d', w_wait w' !! a = Some d' ∧ wd_rv d' = 0 ∧
                   0 ≤ n ≤ wd_maxevents d').
Proof.
  intros Hok [d Hd]. unfold safe_at. rewrite (run_finish a w d Hd). simpl.
  destruct (heap_ok_lookup w a d Hok Hd) as (buf & Hb & Hrv & _).
  destruct (heap_ok_update w a d
              (mk_wait_data 0 (wd_events d) (wd_maxevents d))
              (wd_events d) buf buf (w_regs w) Hok Hd Hb eq_refl eq_refl
              eq_refl ltac:(simpl; lia) (proj2 Hok)
              (set_wait (<[a := mk_wait_data 0 (wd_events d) (wd_maxevents d)]>
                           (w_wait w)) w)) as [Hok' Hl'];
    [done|simpl; symmetry; by apply insert_id|done|].
  split; [done|]. split; [done|]. split; [done|].
  intros n [= <-]. eexists. split; [apply lookup_insert_eq|]. done.
Qed.

Lemma strip_woke_safe a wokefd w :
  heap_ok w → is_Some (w_wait w !! a) →
  safe_at w (strip_woke a wokefd) (λ _ _, True).
Proof.
  intros Hok [d Hd].
  destruct (heap_ok_lookup w a d Hok Hd) as (buf & Hb & Hrv & Hmax & Hcap).
  unfold safe_at.
  rewrite (strip_woke_scan a wokefd w d buf Hd Hb) by lia.
  destruct (find_woke wokefd (take (Z.to_nat (wd_rv d)) buf)) as [j|] eqn:Hj.
  - apply find_woke_lt in Hj. rewrite length_take in Hj.
    destruct (heap_ok_update w a d
                (mk_wait_data (wd_rv d - 1) (wd_events d) (wd_maxevents d))
                (wd_events d) buf (shift_left j (Z.to_nat (wd_rv d)) buf)
                (w_regs w) Hok Hd Hb) with (w' := after_removal a d buf j w)
      as [Hok1 Hl1]; try done.
    { apply length_shift_left. lia. }
    { simpl. lia. }
    { apply Hok. }
    destruct (keeps_heap_safe _ (keeps_heap_drain wokefd) _ Hok1)
      as (Hr & Hok2 & Hl2).
    split; [done|]. split; [done|].
    split; [exact (same_layout_trans _ _ _ Hl1 Hl2)|done].
  - simpl. split; [done|]. split; [done|]. split; [apply same_layout_refl|done].
Qed.

Lemma same_layout_live w w' a :
  same_layout w w' → is_Some (w_wait w !! a) → is_Some (w_wait w' !! a).
Proof. intros Hl [d Hd]. destruct (Hl a d Hd) as (d' & Hd' & _). by eexists. Qed.

(** The part of an iteration from the wait on. *)
Lemma wait_and_strip_safe env p (blocking : bool) a wokefd w :
  heap_ok w → is_Some (w_wait w !! a) →
  (0 ≤ ld_timeout p → scm_c_time_units_per_second w ≠ 0) →
  safe_at w
    ((if blocking then scm_without_guile (run_event_loop env p)
      else run_event_loop env p) >>
     (if blocking then scm_c_wait_finished else ret tt) >>
     strip_woke a wokefd)
    (λ _ _, True).
Proof.
  intros Hok Hlive Hunits.
  assert (Hrun : ∀ w0, heap_ok w0 →
            scm_c_time_units_per_second w0 = scm_c_time_units_per_second w →
            safe_at w0 (run_event_loop env p) (λ _ _, True)).
  { intros w0 Hok0 Hu. 
    destruct (run_event_loop_safe env p w0 Hok0) as (? & ? & ?);
      [by rewrite Hu|]. by split; [|split; [|split]]. }
  eapply safe_at_bind with (Q1 := λ _ _, True).
  - destruct blocking; [|by apply Hrun].
    unfold scm_without_guile. apply safe_at_log.
    eapply safe_at_bind; [by apply Hrun|].
    intros r w1 _ Hok1 _ _. apply safe_at_log. by apply safe_at_ret.
  - intros _ w1 _ Hok1 Hl1 _. eapply safe_at_bind with (Q1 := λ _ _, True).
    + destruct blocking; [|by apply safe_at_ret].
      unfold scm_c_wait_finished.
      apply (safe_safe_at _ _ (keeps_heap_safe _ (keeps_heap_log _)) Hok1).
    + intros _ w2 _ Hok2 Hl2 _. apply strip_woke_safe; [done|].
      eapply same_layout_live; [exact Hl2|].
      by eapply same_layout_live.
Qed.

Lemma scm_to_int_safe z w :
  heap_ok w →
  safe_at w (scm_to_int z) (λ r w', r = z ∧ w' = w ∧ in_signed 32 z = true).
Proof.
  intros Hok. unfold scm_to_int. destruct (in_signed 32 z).
  - by apply safe_at_ret.
  - by apply safe_at_throw.
Qed.

Lemma scm_to_int64_safe z w :
  heap_ok w →
  safe_at w (scm_to_int64 z) (λ r w', r = z ∧ w' = w ∧ in_signed 64 z = true).
Proof.
  intros Hok. unfold scm_to_int64. destruct (in_signed 64 z).
  - by apply safe_at_ret.
  - by apply safe_at_throw.
Qed.

Lemma load_libevt_safe p w :
  heap_ok w → is_Some (w_libevt w !! p) →
  safe_at w (load_libevt p) (λ _ w', w' = w).
Proof.
  intros Hok [l Hl]. unfold safe_at, load_libevt. rewrite Hl. simpl.
  split; [done|]. split; [done|]. split; [apply same_layout_refl|done].
Qed.

(** X1. Memory safety of an iteration.  From a heap within bounds, with
    a live [libevt_data] and [wait_data] behind the handle and a clock
    rate that is not zero when there is a deadline to compute,
    [primitive-event-loop] performs no access out of bounds or to a dead
    object whatever its arguments, whatever descriptors the reactor
    reports ready and whichever external call fails; it leaves the heap
    within bounds, every [wait_data] on its buffer and capacity; and when
    it returns, the count returned lies between zero and the capacity and
    the stored count is zero. *)
Theorem event_loop_memory_safe env lst wakefd wokefd timeout w d :
  heap_ok w →
  is_Some (w_libevt w !! h_libevt lst) →
  w_wait w !! h_data lst = Some d →
  (0 ≤ timeout → scm_c_time_units_per_second w ≠ 0) →
  let out := scm_primitive_event_loop env lst wakefd wokefd timeout w in
  out.1 ≠ Fault ∧ heap_ok out.2 ∧ same_layout w out.2 ∧
  ∀ n, out.1 = Ok n →
    0 ≤ n ≤ wd_maxevents d ∧
    w_wait out.2 !! h_data lst
    = Some (mk_wait_data 0 (wd_events d) (wd_maxevents d)).
Proof.
  intros Hok Hlib Hd Hunits. cbv zeta.
  assert (Hlive : is_Some (w_wait w !! h_data lst)) by by eexists.
  cut (safe_at w (scm_primitive_event_loop env lst wakefd wokefd timeout)
         (λ n w', ∃ d', w_wait w' !! h_data lst = Some d' ∧ wd_rv d' = 0 ∧
                        0 ≤ n ≤ wd_maxevents d')).
  { intros (Hr & Hok' & Hl' & HQ). split; [done|]. split; [done|].
    split; [done|]. intros n Hn.
    destruct (HQ n Hn) as (d' & Hd' & Hrv' & Hn').
    destruct (Hl' _ _ Hd) as (d2 & Hd2 & He2 & Hm2).
    rewrite Hd' in Hd2. injection Hd2 as <-.
    split; [lia|]. rewrite Hd'. f_equal. destruct d'; simpl in *. congruence. }
  assert (Hfin : ∀ w0, heap_ok w0 → same_layout w w0 →
            safe_at w0 (finish (h_data lst))
              (λ n w', ∃ d', w_wait w' !! h_data lst = Some d' ∧ wd_rv d' = 0 ∧
                             0 ≤ n ≤ wd_maxevents d')).
  { intros w0 Hok0 Hl0. apply finish_safe; [done|]. by eapply same_layout_live. }
  unfold scm_primitive_event_loop.
  eapply safe_at_bind; [by apply scm_to_int_safe|].
  intros c_wakefd w1 _ _ _ (-> & -> & Hin1).
  eapply safe_at_bind; [by apply scm_to_int_safe|].
  intros c_wokefd w1 _ _ _ (-> & -> & Hin2).
  eapply safe_at_bind; [by apply scm_to_int64_safe|].
  intros c_timeout w1 _ _ _ (-> & -> & Hin3). cbv zeta.
  eapply safe_at_bind with (Q1 := λ _ w', w' = w).
  { destruct (h_data lst =? NULL)%N; [by apply safe_at_throw|by apply safe_at_ret]. }
  intros _ w1 _ _ _ ->.
  destruct (timeout =? 0) eqn:E0; cbn [negb andb].
  - eapply safe_at_bind with (Q1 := λ r w', r = false ∧ w' = w);
      [by apply safe_at_ret|].
    intros r w1 _ _ _ [-> ->].
    eapply safe_at_bind with (Q1 := λ _ _, True).
    + eapply safe_at_bind; [by apply load_libevt_safe|].
      intros l w1 _ _ _ ->. cbv zeta.
      by apply (wait_and_strip_safe env _ false).
    + intros _ w1 _ Hok1 Hl1 _. by apply Hfin.
  - unfold scm_c_prepare_to_wait_on_fd.
    eapply safe_at_bind with
      (Q1 := λ r w', r = prepare_interrupted env ∧
                     scm_c_time_units_per_second w'
                     = scm_c_time_units_per_second w ∧
                     w_libevt w' = w_libevt w).
    { apply safe_at_log. by apply safe_at_ret. }
    intros r w1 _ Hok1 Hl1 (-> & Hu1 & Hlib1).
    eapply safe_at_bind with (Q1 := λ _ _, True).
    + destruct (prepare_interrupted env).
      * destruct (same_layout_live _ _ _ Hl1 Hlive) as [d1 Hd1].
        destruct (heap_ok_lookup _ _ _ Hok1 Hd1) as (? & ? & ? & ? & ?).
        destruct (assign_rv_safe (h_data lst) 0 w1 d1 Hok1 Hd1) as (? & ? & ? & ?);
          [lia|]. by split; [|split; [|split]].
      * eapply safe_at_bind; [apply load_libevt_safe; [done|by rewrite Hlib1]|].
        intros l w2 _ _ _ ->. cbv zeta.
        apply (wait_and_strip_safe env _ true); [done| |by rewrite Hu1].
        by eapply same_layout_live.
    + intros _ w2 _ Hok2 Hl2 _. apply Hfin; [done|].
      exact (same_layout_trans _ _ _ Hl1 Hl2).
Qed.

(** The scenario with two watches, both reported ready. *)
Lemma event_loop_memory_safe_witness :
  let env := ex_env [(5%N, EV_READ); (4%N, EV_READ)] in
  let out := scm_primitive_event_loop env ex_lst 6 5 (-1) ex_watching in
  out.1 ≠ Fault ∧ heap_ok out.2 ∧ same_layout ex_watching out.2 ∧
  ∀ n, out.1 = Ok n →
    0 ≤ n ≤ wd_maxevents ex_data ∧
    w_wait out.2 !! h_data ex_lst
    = Some (mk_wait_data 0 (wd_events ex_data) (wd_maxevents ex_data)).
Proof.
  apply (event_loop_memory_safe (ex_env [(5%N, EV_READ); (4%N, EV_READ)])
           ex_lst 6 5 (-1) ex_watching ex_data).
  - apply (bool_decide_unpack _). vm_compute. reflexivity.
  - vm_compute. by eexists.
  - vm_compute. reflexivity.
  - lia.
Defined.

(** ** The other primitives and the invariant *)

Lemma backed_spec w eventsv :
  backed w eventsv = true →
  ∃ buf, w_bufs w !! bv_contents eventsv = Some buf ∧
         Z.of_nat (length buf) = bv_length eventsv `div` sizeof_event_data ∧
         capacity_of eventsv ≤ Z.of_nat (length buf).
Proof.
  unfold backed. destruct (w_bufs w !! bv_contents eventsv) as [buf|]; [|done].
  intros H%Z.eqb_eq. exists buf. split; [done|]. split; [done|].
  unfold capacity_of. rewrite H. apply to_int_le. lia.
Qed.

Lemma heap_ok_insert_wait w a d' w' :
  heap_ok w → wait_okb (w_bufs w) d' = true →
  w_wait w' = <[a := d']> (w_wait w) → w_bufs w' = w_bufs w →
  w_regs w' = w_regs w →
  heap_ok w'.
Proof.
  intros [Hw Hr] Hd' Hwait Hbufs Hregs. split.
  - rewrite Hwait, Hbufs. by apply map_Forall_insert_2.
  - rewrite Hwait, Hregs. intros e r Hreg. specialize (Hr e r Hreg).
    simpl in *. destruct (decide (a = reg_arg r)) as [->|Hne].
    + rewrite lookup_insert_eq. by eexists.
    + by rewrite lookup_insert_ne.
Qed.

(** X2. [primitive-create-event-base] on a bytevector whose contents are
    a buffer of as many records as its length holds, and whose capacity
    as an [int] is not negative, keeps the heap within bounds whether or
    not the reactor can be allocated; the handle it returns is on a live
    [libevt_data] and on a [wait_data] with count zero, the bytevector's
    contents and its capacity, so that the handle can be given to the
    other primitives. *)
Theorem create_event_base_keeps_bounds base_new_ok eventsv w :
  heap_ok w → backed w eventsv = true → 0 ≤ capacity_of eventsv →
  let out := scm_primitive_create_event_base base_new_ok eventsv w in
  out.1 ≠ Fault ∧ heap_ok out.2 ∧
  ∀ lst, out.1 = Ok lst →
    is_Some (w_libevt out.2 !! h_libevt lst) ∧
    w_wait out.2 !! h_data lst
    = Some (mk_wait_data 0 (bv_contents eventsv) (capacity_of eventsv)).
Proof.
  intros Hok Hb Hcap. cbv zeta.
  destruct (backed_spec w eventsv Hb) as (buf & Hbuf & Hlen & Hle).
  destruct base_new_ok.
  - destruct (decide (w_next w = NULL)) as [Hnull|Hnn].
    + destruct (scm_primitive_create_event_base true eventsv w)
        as [r w'] eqn:E. revert E.
      unfold scm_primitive_create_event_base, event_base_new, alloc.
      unfold bind at 1. rewrite Hnull. intros [= <- <-]. simpl.
      split; [done|]. split; [apply Hok|done].
    + rewrite (run_create_event_base eventsv w Hnn). simpl.
      split; [done|]. split.
      * eapply (heap_ok_insert_wait w); [done| |done..].
        apply wait_okb_spec. exists buf. simpl. split; [done|].
        pose proof (to_int_max (bv_length eventsv `div` sizeof_event_data)).
        unfold capacity_of in *. lia.
      * intros lst [= <-]. simpl. rewrite !lookup_insert_eq. by split; [eexists|].
  - unfold scm_primitive_create_event_base, event_base_new. simpl.
    split; [done|]. split; [done|done].
Qed.

Lemma create_event_base_keeps_bounds_witness :
  let out := scm_primitive_create_event_base true ex_eventsv ex_init in
  out.1 ≠ Fault ∧ heap_ok out.2 ∧
  ∀ lst, out.1 = Ok lst →
    is_Some (w_libevt out.2 !! h_libevt lst) ∧
    w_wait out.2 !! h_data lst
    = Some (mk_wait_data 0 (bv_contents ex_eventsv) (capacity_of ex_eventsv)).
Proof.
  apply (create_event_base_keeps_bounds true ex_eventsv ex_init).
  - apply (bool_decide_unpack _). vm_compute. reflexivity.
  - vm_compute. reflexivity.
  - vm_compute. discriminate.
Defined.

(** X3. [primitive-resize] on a live [wait_data] never fails.  When the
    new bytevector's contents are a buffer of as many records as its
    length holds and the stored count is no larger than the new
    capacity, the heap stays within bounds; the count, the buffers, the
    registrations and every other [wait_data] are left as they were. *)
Theorem resize_keeps_bounds lst eventsv w d :
  heap_ok w → w_wait w !! h_data lst = Some d →
  backed w eventsv = true → wd_rv d ≤ capacity_of eventsv →
  let out := scm_primitive_resize lst eventsv w in
  out.1 = Ok tt ∧ heap_ok out.2 ∧
  w_wait out.2 = <[h_data lst := mk_wait_data (wd_rv d) (bv_contents eventsv)
                                              (capacity_of eventsv)]> (w_wait w) ∧
  w_bufs out.2 = w_bufs w ∧ w_regs out.2 = w_regs w.
Proof.
  intros Hok Hd Hb Hrv. cbv zeta. rewrite (run_resize lst eventsv w d Hd). simpl.
  destruct (backed_spec w eventsv Hb) as (buf & Hbuf & Hlen & Hle).
  destruct (heap_ok_lookup w _ d Hok Hd) as (_ & _ & Hrv0 & _).
  split; [done|]. split; [|done].
  eapply (heap_ok_insert_wait w); [done| |done..].
  apply wait_okb_spec. exists buf. simpl. split; [done|].
  pose proof (to_int_max (bv_length eventsv `div` sizeof_event_data)).
  unfold capacity_of in *. lia.
Qed.

Lemma resize_keeps_bounds_witness :
  let out := scm_primitive_resize ex_lst ex_smaller ex_watching in
  out.1 = Ok tt ∧ heap_ok out.2 ∧
  w_wait out.2 = <[h_data ex_lst :=
                     mk_wait_data (wd_rv ex_data) (bv_contents ex_smaller)
                                  (capacity_of ex_smaller)]>
                   (w_wait ex_watching) ∧
  w_bufs out.2 = w_bufs ex_watching ∧ w_regs out.2 = w_regs ex_watching.
Proof.
  apply (resize_keeps_bounds ex_lst ex_smaller ex_watching ex_data).
  - apply (bool_decide_unpack _). vm_compute. reflexivity.
  - vm_compute. reflexivity.
  - vm_compute. reflexivity.
  - vm_compute. discriminate.
Defined.

(** X4. The registration primitives and the invariant.
    [primitive-add-event] on a handle with a live [libevt_data] and a
    live [wait_data] performs no invalid access and keeps the heap within
    bounds, whatever its arguments and whether or not [event_new] and
    [event_add] succeed; [primitive-remove-event] on a live registration
    does so too, whether or not [event_del] succeeds.  Neither touches a
    [wait_data] or a buffer. *)
Theorem registration_primitives_keep_bounds w :
  heap_ok w →
  (∀ event_new_ok event_add_ok lst fd ev,
     is_Some (w_libevt w !! h_libevt lst) →
     is_Some (w_wait w !! h_data lst) →
     let out := scm_primitive_add_event event_new_ok event_add_ok lst fd ev w in
     out.1 ≠ Fault ∧ heap_ok out.2 ∧
     w_wait out.2 = w_wait w ∧ w_bufs out.2 = w_bufs w) ∧
  (∀ event_del_ok lst e,
     is_Some (w_regs w !! e) →
     let out := scm_primitive_remove_event event_del_ok lst e w in
     out.1 ≠ Fault ∧ heap_ok out.2 ∧
     w_wait out.2 = w_wait w ∧ w_bufs out.2 = w_bufs w).
Proof.
  intros Hok. split.
  - intros event_new_ok event_add_ok lst fd ev [l Hl] Hlive. cbv zeta.
    destruct (scm_primitive_add_event event_new_ok event_add_ok lst fd ev w)
      as [r w'] eqn:E. revert E. simpl.
    unfold scm_primitive_add_event, scm_to_int, scm_to_short.
    destruct (in_signed 32 fd); [|by intros [= <- <-]; split; [|split]].
    destruct (in_signed 16 ev); [|by intros [= <- <-]; split; [|split]].
    cbv zeta. unfold bind at 1, ret at 1. unfold bind at 1, ret at 1.
    unfold bind at 1, load_libevt. rewrite Hl.
    destruct event_new_ok; unfold event_new.
    + unfold bind at 1. unfold bind at 1, alloc. unfold bind at 1, modify, ret.
      cbv beta iota. set (reg := mk_registration _ _ _ _ _ _).
      set (w1 := set_regs _ (set_next _ w)).
      assert (Hok1 : heap_ok w1).
      { apply (heap_ok_same_heap w w1 Hok); [done..|].
        apply map_Forall_insert_2; [done|apply Hok]. }
      destruct (w_next w =? NULL)%N; [by intros [= <- <-]; split; [|split]|].
      unfold bind, event_add. subst w1. cbn [w_regs set_regs].
      rewrite lookup_insert_eq. destruct event_add_ok.
      * change (0 =? -1) with false. cbv iota. intros [= <- <-].
        split; [done|]. split; [|done].
        apply (heap_ok_same_heap w); [done..|]. cbn [w_regs set_regs].
        apply map_Forall_insert_2; [done|].
        apply map_Forall_insert_2; [done|apply Hok].
      * change (-1 =? -1) with true. cbv iota.
        by intros [= <- <-]; split; [|split].
    + unfold bind, ret. change (NULL =? NULL)%N with true. cbv iota.
      by intros [= <- <-]; split; [|split].
  - intros event_del_ok lst e [reg Hreg]. cbv zeta.
    destruct (scm_primitive_remove_event event_del_ok lst e w)
      as [r w'] eqn:E. revert E. simpl.
    unfold scm_primitive_remove_event, bind, event_del. rewrite Hreg.
    destruct event_del_ok.
    + change (0 =? -1) with false. cbv iota. intros [= <- <-].
      split; [done|]. split; [|done].
      apply (heap_ok_same_heap w); [done..|]. cbn [w_regs set_regs].
      apply map_Forall_insert_2; [|apply Hok]. apply (proj2 Hok _ _ Hreg).
    + change (-1 =? -1) with true. cbv iota.
      by intros [= <- <-]; split; [|split].
Qed.

Lemma registration_primitives_keep_bounds_witness :
  (∀ event_new_ok event_add_ok lst fd ev,
     is_Some (w_libevt ex_created !! h_libevt lst) →
     is_Some (w_wait ex_created !! h_data lst) →
     let out := scm_primitive_add_event event_new_ok event_add_ok lst fd ev
                  ex_created in
     out.1 ≠ Fault ∧ heap_ok out.2 ∧
     w_wait out.2 = w_wait ex_created ∧ w_bufs out.2 = w_bufs ex_created) ∧
  (∀ event_del_ok lst e,
     is_Some (w_regs ex_created !! e) →
     let out := scm_primitive_remove_event event_del_ok lst e ex_created in
     out.1 ≠ Fault ∧ heap_ok out.2 ∧
     w_wait out.2 = w_wait ex_created ∧ w_bufs out.2 = w_bufs ex_created).
Proof.
  apply (registration_primitives_keep_bounds ex_created).
  apply (bool_decide_unpack _). vm_compute. reflexivity.
Defined.

(** ** A count beyond the buffer *)

Lemma process_active_idle base rs w :
  fired base (w_regs w) rs = [] → process_active base rs w = (Ok tt, w).
Proof.
  induction rs as [|x rs IH]; [done|]. cbn [fired process_active].
  unfold bind at 1, activate. unfold bind at 1, get.
  destruct (w_regs w !! x.1) as [reg|]; [|exact IH].
  destruct (reg_pending reg && (reg_base reg =? base)%N); [done|exact IH].
Qed.

Lemma run_event_loop_idle env base timeout w :
  fired base (w_regs w) (ready env) = [] →
  loop_ok env = true →
  (0 ≤ timeout → loopexit_ok env = true ∧ scm_c_time_units_per_second w ≠ 0) →
  ∃ t, run_event_loop env (mk_loop_data base timeout) w
       = (Ok tt, set_trace (w_trace w ++ t) w).
Proof.
  intros Hidle Hloop Hexit. unfold run_event_loop. cbn [ld_timeout ld_base].
  set (pre := if 0 <=? timeout
              then [E_loopexit base (tv_sec_of w timeout)
                               (tv_usec_of w timeout)]
              else []).
  assert (Hpre :
    (if 0 <=? timeout then
       bind get (λ w, if scm_c_time_units_per_second w =? 0 then fault
         else bind (event_base_loopexit env base (tv_sec_of w timeout)
                                        (tv_usec_of w timeout))
                (λ ret_, if ret_ =? -1 then
                   SCM_MISC_ERROR "primitive-event-loop"
                                  "event loop exit failed" []
                 else ret tt))
     else ret tt) w
    = (Ok tt, set_trace (w_trace w ++ pre) w)).
  { unfold pre. destruct (0 <=? timeout) eqn:E.
    - destruct Hexit as [Hexit Hunits]; [lia|].
      unfold bind at 1, get.
      destruct (scm_c_time_units_per_second w =? 0) eqn:E0; [lia|].
      unfold event_base_loopexit, bind, log, modify, ret. rewrite Hexit.
      done.
    - unfold ret. f_equal. rewrite app_nil_r. by destruct w. }
  rewrite (bind_ok _ _ _ _ _ Hpre). clear Hpre.
  unfold event_base_loop, bind at 1. unfold bind at 1, log, modify.
  rewrite Hloop. unfold bind at 1.
  set (w0 := set_trace _ (set_trace _ w)).
  rewrite (process_active_idle base (ready env) w0 Hidle).
  exists (pre ++ [E_loop base]). unfold ret. cbn. f_equal.
  subst w0. unfold set_trace. cbn. by rewrite <- app_assoc.
Qed.

Lemma strip_loop_past_buffer a wokefd w d buf :
  w_wait w !! a = Some d → w_bufs w !! wd_events d = Some buf →
  Z.of_nat (length buf) < wd_rv d → wd_rv d ≤ INT_MAX →
  ∀ k i, (i ≤ length buf)%nat → (length buf - i < k)%nat →
  Forall (λ e, ev_fd e ≠ wokefd) (drop i buf) →
  strip_loop k a wokefd (Z.of_nat i) w = (Fault, w).
Proof.
  intros Hd Hb Hrv Hmax. induction k as [|k IH]; intros i Hi Hk Hnone; [lia|].
  cbn [strip_loop]. unfold bind at 1. rewrite (run_load_wait _ _ _ Hd).
  destruct (Z.of_nat i <? wd_rv d) eqn:E; [|lia].
  unfold bind at 1. destruct (buf !! i) as [e|] eqn:He.
  - rewrite (run_load_event _ _ _ _ _ Hb He).
    rewrite (drop_S _ e i He) in Hnone. apply Forall_cons in Hnone as [Hne Hnone].
    apply Z.eqb_neq in Hne. rewrite Hne.
    replace (Z.of_nat i + 1) with (Z.of_nat (S i)) by lia.
    apply lookup_lt_Some in He.
    rewrite to_int_id by (unfold INT_MAX in *; lia).
    apply IH; [lia|lia|done].
  - unfold load_event. rewrite Hb.
    destruct (0 <=? Z.of_nat i) eqn:E0; [|lia].
    by rewrite Nat2Z.id, He.
Qed.

Lemma strip_woke_past_buffer a wokefd w d buf :
  w_wait w !! a = Some d → w_bufs w !! wd_events d = Some buf →
  Z.of_nat (length buf) < wd_rv d → wd_rv d ≤ INT_MAX →
  Forall (λ e, ev_fd e ≠ wokefd) buf →
  strip_woke a wokefd w = (Fault, w).
Proof.
  intros Hd Hb Hrv Hmax Hnone. unfold strip_woke, bind.
  rewrite (run_load_wait _ _ _ Hd).
  apply (strip_loop_past_buffer a wokefd w d buf Hd Hb Hrv Hmax _ 0%nat);
    [lia|lia|done].
Qed.

(** X5. Why the count must stay within the buffer.  With a stored count
    larger than the number of records its buffer holds (as after a
    "max events" error, which leaves the count in place, followed by a
    resize to a shorter bytevector), an iteration whose wait completes
    without any callback and whose buffer has no record on the woke
    descriptor reads [data->events[i]] past the end of the buffer: the
    scan for the woke descriptor runs up to the stored count, not up to
    the capacity. *)
Theorem stale_count_reads_past_buffer
    env lst wakefd wokefd timeout w l d buf :
  in_signed 32 wakefd = true → in_signed 32 wokefd = true →
  in_signed 64 timeout = true →
  h_data lst ≠ NULL →
  w_libevt w !! h_libevt lst = Some l →
  w_wait w !! h_data lst = Some d → w_bufs w !! wd_events d = Some buf →
  Z.of_nat (length buf) < wd_rv d → wd_rv d ≤ INT_MAX →
  Forall (λ e, ev_fd e ≠ wokefd) buf →
  fired (le_base l) (w_regs w) (ready env) = [] →
  loop_ok env = true →
  (timeout ≠ 0 → prepare_interrupted env = false) →
  (0 ≤ timeout → loopexit_ok env = true ∧ scm_c_time_units_per_second w ≠ 0) →
  (scm_primitive_event_loop env lst wakefd wokefd timeout w).1 = Fault.
Proof.
  intros Hwake Hwoke Htime Hnn Hl Hd Hb Hrv Hmax Hnone Hidle Hloop Hint Hexit.
  unfold scm_primitive_event_loop, scm_to_int, scm_to_int64.
  rewrite Hwake, Hwoke, Htime.
  unfold bind at 1, ret at 1. unfold bind at 1, ret at 1.
  unfold bind at 1, ret at 1.
  destruct (h_data lst =? NULL)%N eqn:En; [apply N.eqb_eq in En; done|].
  unfold bind at 1, ret at 1.
  destruct (timeout =? 0) eqn:E0; cbn [negb andb].
  - unfold bind at 1, ret at 1. unfold bind at 1. unfold bind at 1, load_libevt.
    rewrite Hl. unfold bind at 1.
    destruct (run_event_loop_idle env (le_base l) timeout w) as [t Hrun];
      try done.
    rewrite Hrun. unfold bind at 1, ret at 1.
    by rewrite (strip_woke_past_buffer _ wokefd _ d buf).
  - unfold bind at 1, scm_c_prepare_to_wait_on_fd. unfold bind at 1, log, modify.
    unfold ret at 1. rewrite Hint by (apply Z.eqb_neq in E0; done).
    unfold bind at 1. unfold bind at 1, load_libevt. cbn [w_libevt set_trace].
    rewrite Hl. unfold bind at 1, scm_without_guile.
    unfold bind at 1. unfold bind at 1, log, modify. unfold bind at 1.
    set (w0 := set_trace _ (set_trace _ w)).
    destruct (run_event_loop_idle env (le_base l) timeout w0) as [t Hrun];
      try done.
    rewrite Hrun. unfold bind at 1, log, modify, ret at 1.
    unfold bind at 1, scm_c_wait_finished, log, modify.
    by rewrite (strip_woke_past_buffer _ wokefd _ d buf).
Qed.

Lemma stale_count_reads_past_buffer_witness :
  (scm_primitive_event_loop (ex_env []) ex_lst 6 5 0 ex_shrunk).1 = Fault.
Proof.
  apply (stale_count_reads_past_buffer (ex_env []) ex_lst 6 5 0 ex_shrunk
           ex_libevt (mk_wait_data 2 300%N 1) [mk_event_data 0 0]).
  - reflexivity.
  - reflexivity.
  - reflexivity.
  - vm_compute. discriminate.
  - vm_compute. reflexivity.
  - vm_compute. reflexivity.
  - vm_compute. reflexivity.
  - vm_compute. reflexivity.
  - vm_compute. discriminate.
  - apply (bool_decide_unpack _). vm_compute. reflexivity.
  - reflexivity.
  - reflexivity.
  - intros _. reflexivity.
  - intros _. split; [reflexivity|]. vm_compute. discriminate.
Defined.

(** ** Errors raised on the way into the wait *)

(** X6. [primitive-event-loop] checks its arguments first: when a
    descriptor is not an [int], the timeout not an [int64_t] or the
    [wait_data] pointer null, it raises the error of the first check
    that fails and leaves the world as it was, having made no call,
    whatever the surroundings and even with a dangling [libevt_data]. *)
Theorem event_loop_argument_errors env lst wakefd wokefd timeout w e :
  argument_error lst wakefd wokefd timeout = Some e →
  scm_primitive_event_loop env lst wakefd wokefd timeout w = (Throw e, w).
Proof.
  unfold argument_error, scm_primitive_event_loop, scm_to_int, scm_to_int64.
  destruct (in_signed 32 wakefd); cbn [negb]; [|by intros [= <-]].
  destruct (in_signed 32 wokefd); cbn [negb]; [|by intros [= <-]].
  destruct (in_signed 64 timeout); cbn [negb]; [|by intros [= <-]].
  destruct (h_data lst =? NULL)%N; [|done]. by intros [= <-].
Qed.

Lemma event_loop_argument_errors_witness :
  scm_primitive_event_loop (ex_env []) (mk_handle 2%N NULL) 6 5 (-1) ex_watching
  = (Throw (WrongTypeArg "event-loop" 1 "event wait_data is null"),
     ex_watching).
Proof.
  apply (event_loop_argument_errors (ex_env []) (mk_handle 2%N NULL) 6 5 (-1)
           ex_watching).
  reflexivity.
Defined.

(** X7. Failures of the reactor.  When [event_base_loopexit] fails the
    iteration raises "event loop exit failed" without having entered
    [event_base_loop]; when [event_base_loop] fails it raises
    "event loop failed".  In both cases no callback has run, the
    [wait_data], the buffers and the registrations are as they were (the
    count is not reset), and for a timeout that is not zero neither the
    return to Guile mode nor [scm_c_wait_finished] has taken place. *)
Theorem event_loop_reactor_failures env lst wakefd wokefd timeout w l :
  in_signed 32 wakefd = true → in_signed 32 wokefd = true →
  in_signed 64 timeout = true →
  h_data lst ≠ NULL →
  w_libevt w !! h_libevt lst = Some l →
  (timeout ≠ 0 → prepare_interrupted env = false) →
  (0 ≤ timeout → scm_c_time_units_per_second w ≠ 0) →
  (0 <=? timeout) && negb (loopexit_ok env) || negb (loop_ok env) = true →
  let out := scm_primitive_event_loop env lst wakefd wokefd timeout w in
  out.1 = Throw (MiscError "primitive-event-loop"
                   (if (0 <=? timeout) && negb (loopexit_ok env)
                    then "event loop exit failed" else "event loop failed")
                   []) ∧
  w_wait out.2 = w_wait w ∧ w_bufs out.2 = w_bufs w ∧
  w_regs out.2 = w_regs w ∧
  w_trace out.2
  = w_trace w ++ failed_wait_calls env w wakefd (le_base l) timeout.
Proof.
  intros Hwake Hwoke Htime Hnn Hl Hint Hunits Hfail. cbv zeta.
  destruct (scm_primitive_event_loop env lst wakefd wokefd timeout w)
    as [r w'] eqn:E. revert E. simpl.
  unfold scm_primitive_event_loop, scm_to_int, scm_to_int64.
  rewrite Hwake, Hwoke, Htime.
  unfold bind at 1, ret at 1. unfold bind at 1, ret at 1.
  unfold bind at 1, ret at 1.
  destruct (h_data lst =? NULL)%N eqn:En; [apply N.eqb_eq in En; done|].
  unfold bind at 1, ret at 1.
  assert (Hrun : ∀ w0 pre,
    scm_c_time_units_per_second w0 = scm_c_time_units_per_second w →
    time_units_per_microsec w0 = time_units_per_microsec w →
    microsec_per_time_units w0 = microsec_per_time_units w →
    w_trace w0 = w_trace w ++ pre →
    ∃ w1, run_event_loop env (mk_loop_data (le_base l) timeout) w0
          = (Throw (MiscError "primitive-event-loop"
                      (if (0 <=? timeout) && negb (loopexit_ok env)
                       then "event loop exit failed" else "event loop failed")
                      []), w1) ∧
          w_wait w1 = w_wait w0 ∧ w_bufs w1 = w_bufs w0 ∧
          w_regs w1 = w_regs w0 ∧
          w_trace w1
          = w_trace w ++ pre
            ++ (if 0 <=? timeout
                then [E_loopexit (le_base l) (tv_sec_of w timeout)
                                 (tv_usec_of w timeout)]
                else [])
            ++ (if (0 <=? timeout) && negb (loopexit_ok env) then []
                else [E_loop (le_base l)])).
  { intros w0 pre Hu Hf1 Hf2 Ht. unfold run_event_loop. cbn [ld_timeout ld_base].
    assert (Hsec : tv_sec_of w0 timeout = tv_sec_of w timeout)
      by (unfold tv_sec_of; by rewrite Hu).
    assert (Husec : tv_usec_of w0 timeout = tv_usec_of w timeout)
      by (unfold tv_usec_of; by rewrite Hu, Hf1, Hf2).
    unfold bind at 1. destruct (0 <=? timeout) eqn:E.
    - unfold bind at 1, get.
      destruct (scm_c_time_units_per_second w0 =? 0) eqn:E0; [lia|].
      unfold bind at 1, event_base_loopexit. unfold bind at 1, log, modify.
      unfold ret at 1. destruct (loopexit_ok env); cbn [negb andb orb] in *.
      + change (0 =? -1) with false. cbv iota. unfold ret at 1.
        unfold bind at 1, event_base_loop. unfold bind at 1, log, modify.
        destruct (loop_ok env); [done|]. unfold ret at 1.
        change (-1 =? -1) with true. cbv iota.
        eexists. split; [done|]. cbn. rewrite Ht, Hsec, Husec.
        by rewrite ?app_nil_r, <- ?app_assoc.
      + change (-1 =? -1) with true. cbv iota.
        eexists. split; [done|]. cbn. rewrite Ht, Hsec, Husec.
        by rewrite ?app_nil_r, <- ?app_assoc.
    - unfold ret at 1. cbn [negb andb orb] in *.
      unfold bind at 1, event_base_loop. unfold bind at 1, log, modify.
      destruct (loop_ok env); [done|]. unfold ret at 1.
      change (-1 =? -1) with true. cbv iota.
      eexists. split; [done|]. cbn. rewrite Ht.
      by rewrite ?app_nil_r, <- ?app_assoc. }
  unfold failed_wait_calls.
  destruct (timeout =? 0) eqn:E0; cbn [negb andb].
  - unfold bind at 1, ret at 1. unfold bind at 1. unfold bind at 1, load_libevt.
    rewrite Hl. unfold bind at 1.
    destruct (Hrun w []) as (w1 & Hr & Hw1 & Hb1 & Hr1 & Ht1);
      [done|done|done|by rewrite app_nil_r|].
    rewrite Hr. intros [= <- <-]. by rewrite Ht1.
  - unfold bind at 1, scm_c_prepare_to_wait_on_fd. unfold bind at 1, log, modify.
    unfold ret at 1. rewrite Hint by (apply Z.eqb_neq in E0; done).
    unfold bind at 1. unfold bind at 1, load_libevt. cbn [w_libevt set_trace].
    rewrite Hl. unfold bind at 1, scm_without_guile.
    unfold bind at 1. unfold bind at 1, log, modify. unfold bind at 1.
    set (w0 := set_trace _ (set_trace _ w)).
    destruct (Hrun w0 [E_prepare_to_wait_on_fd wakefd false;
                       E_without_guile_begin])
      as (w1 & Hr & Hw1 & Hb1 & Hr1 & Ht1);
      [done|done|done|by (subst w0; cbn; rewrite <- app_assoc)|].
    rewrite Hr. intros [= <- <-]. by rewrite Ht1.
Qed.

Lemma event_loop_reactor_failures_witness :
  let env := mk_loop_env false true false [(5%N, EV_READ)] in
  let out := scm_primitive_event_loop env ex_lst 6 5 1500000000 ex_watching in
  out.1 = Throw (MiscError "primitive-event-loop"
                   (if (0 <=? 1500000000) && negb (loopexit_ok env)
                    then "event loop exit failed" else "event loop failed")
                   []) ∧
  w_wait out.2 = w_wait ex_watching ∧ w_bufs out.2 = w_bufs ex_watching ∧
  w_regs out.2 = w_regs ex_watching ∧
  w_trace out.2
  = w_trace ex_watching
    ++ failed_wait_calls env ex_watching 6 (le_base ex_libevt) 1500000000.
Proof.
  apply (event_loop_reactor_failures
           (mk_loop_env false true false [(5%N, EV_READ)]) ex_lst 6 5
           1500000000 ex_watching ex_libevt).
  - reflexivity.
  - reflexivity.
  - reflexivity.
  - vm_compute. discriminate.
  - vm_compute. reflexivity.
  - intros _. reflexivity.
  - intros _. vm_compute. discriminate.
  - reflexivity.
Defined.

(** X8. When [event_add] fails, [primitive-add-event] raises
    "failed to add event" and the registration [event_new] made stays
    allocated, not pending: it is neither freed nor returned to the
    caller. *)
Theorem add_event_failed_add_keeps_registration lst fd ev w l :
  in_signed 32 fd = true → in_signed 16 ev = true →
  w_libevt w !! h_libevt lst = Some l →
  w_next w ≠ NULL →
  scm_primitive_add_event true false lst fd ev w =
  (Throw (MiscError "primitive-add-event" "failed to add event" []),
   set_regs (<[w_next w := mk_registration (le_base l) fd ev Cb_func
                                           (h_data lst) false]> (w_regs w))
            (set_next (w_next w + 1)%N w)).
Proof.
  intros Hfd Hev Hl Hnext.
  unfold scm_primitive_add_event, scm_to_int, scm_to_short.
  rewrite Hfd, Hev. unfold bind at 1, ret at 1. unfold bind at 1, ret at 1.
  unfold bind at 1, load_libevt. rewrite Hl.
  unfold bind at 1, event_new. unfold bind at 1, alloc.
  unfold bind at 1, modify. unfold ret at 1.
  destruct (w_next w =? NULL)%N eqn:E; [apply N.eqb_eq in E; done|].
  unfold bind, event_add. cbn [w_regs set_regs]. by rewrite lookup_insert_eq.
Qed.

Lemma add_event_failed_add_keeps_registration_witness :
  scm_primitive_add_event true false ex_lst 5 EV_READ ex_created =
  (Throw (MiscError "primitive-add-event" "failed to add event" []),
   set_regs (<[w_next ex_created :=
                 mk_registration (le_base ex_libevt) 5 EV_READ Cb_func
                                 (h_data ex_lst) false]> (w_regs ex_created))
            (set_next (w_next ex_created + 1)%N ex_created)).
Proof.
  apply (add_event_failed_add_keeps_registration ex_lst 5 EV_READ ex_created
           ex_libevt).
  - reflexivity.
  - reflexivity.
  - vm_compute. reflexivity.
  - vm_compute. discriminate.
Defined.

(** ** Watches from registration to report *)

Lemma cb_func_regs fd what arg w r w' :
  cb_func fd what arg w = (r, w') → w_regs w' = w_regs w.
Proof.
  unfold cb_func. unfold bind at 1, load_wait.
  destruct (w_wait w !! arg) as [d|] eqn:Hd; [|by intros [= <- <-]].
  cbv zeta. destruct (wd_maxevents d <=? wd_rv d); [by intros [= <- <-]|].
  unfold bind at 1, store_event.
  destruct (w_bufs w !! wd_events d) as [buf|]; [|by intros [= <- <-]].
  destruct ((0 <=? wd_rv d) && (wd_rv d <? Z.of_nat (length buf)));
    [|by intros [= <- <-]].
  unfold bind at 1, load_wait. cbn [w_wait set_bufs]. rewrite Hd.
  unfold assign_rv, bind, load_wait, store_wait. cbn [w_wait set_bufs].
  rewrite Hd. cbn [w_wait set_bufs]. rewrite Hd. by intros [= <- <-].
Qed.

Lemma activate_regs_other base x e w r w' :
  x.1 ≠ e → activate base x w = (r, w') → w_regs w' !! e = w_regs w !! e.
Proof.
  intros Hne. unfold activate. unfold bind at 1, get.
  destruct (w_regs w !! x.1) as [reg|]; [|by intros [= <- <-]].
  destruct (reg_pending reg && (reg_base reg =? base)%N);
    [|by intros [= <- <-]].
  unfold bind at 1, modify. unfold bind at 1, log, modify.
  destruct (reg_cb reg). cbn [run_callback]. intros Hcb.
  rewrite (cb_func_regs _ _ _ _ _ _ Hcb). cbn [w_regs set_trace set_regs].
  unfold disarm. destruct (reg_persistent reg); [done|].
  by rewrite lookup_insert_ne.
Qed.

Lemma activate_not_pending base x w :
  (∀ reg, w_regs w !! x.1 = Some reg → reg_pending reg = false) →
  activate base x w = (Ok tt, w).
Proof.
  intros Hnp. unfold activate. unfold bind at 1, get.
  destruct (w_regs w !! x.1) as [reg|] eqn:Hreg; [|done].
  by rewrite (Hnp reg eq_refl).
Qed.

Lemma process_active_ignoring base e rs : ∀ w,
  (∀ reg, w_regs w !! e = Some reg → reg_pending reg = false) →
  process_active base rs w
  = process_active base (filter (λ x, x.1 ≠ e) rs) w.
Proof.
  induction rs as [|x rs IH]; intros w Hnp; [done|].
  rewrite filter_cons. destruct (decide (x.1 ≠ e)) as [Hne|Heq].
  - cbn [process_active]. unfold bind.
    destruct (activate base x w) as [[[]| | |] w1] eqn:Hact; try done.
    apply IH. intros reg.
    rewrite (activate_regs_other _ _ _ _ _ _ Hne Hact). apply Hnp.
  - apply dec_stable in Heq. cbn [process_active]. unfold bind at 1.
    rewrite activate_not_pending by (by rewrite Heq). by apply IH.
Qed.

Lemma run_event_loop_ignoring env p e w :
  (∀ reg, w_regs w !! e = Some reg → reg_pending reg = false) →
  run_event_loop env p w = run_event_loop (ignoring e env) p w.
Proof.
  intros Hnp. unfold run_event_loop.
  unfold bind at 1. symmetry. unfold bind at 1. symmetry.
  assert (Hloop : ∀ w0, w_regs w0 = w_regs w →
            event_base_loop env (ld_base p) w0
            = event_base_loop (ignoring e env) (ld_base p) w0).
  { intros w0 Hregs. unfold event_base_loop, bind, log, modify.
    cbn [loop_ok ignoring ready]. destruct (loop_ok env); [|done].
    rewrite (process_active_ignoring _ e); [done|].
    cbn [w_regs set_trace]. by rewrite Hregs. }
  destruct (0 <=? ld_timeout p).
  - unfold bind at 1, get. symmetry. unfold bind at 1, get. symmetry.
    destruct (scm_c_time_units_per_second w =? 0); [done|].
    unfold event_base_loopexit, bind at 1. symmetry. unfold bind at 1.
    symmetry. unfold bind at 1, log, modify. symmetry.
    unfold bind at 1, log, modify. symmetry.
    cbn [loopexit_ok ignoring]. unfold ret at 1. symmetry. unfold ret at 1.
    symmetry. destruct (loopexit_ok env).
    + change (0 =? -1) with false. cbv iota. unfold ret at 1. symmetry.
      unfold ret at 1. symmetry. unfold bind. by rewrite Hloop.
    + done.
  - unfold ret at 1. symmetry. unfold ret at 1. symmetry.
    unfold bind. by rewrite Hloop.
Qed.

Lemma bind_ext {A B} (m m' : M A) (k : A → M B) w :
  m w = m' w → bind m k w = bind m' k w.
Proof. unfold bind. by intros ->. Qed.

Lemma bind_cong {A B} (m : M A) (k k' : A → M B) w :
  (∀ a w1, m w = (Ok a, w1) → k a w1 = k' a w1) →
  bind m k w = bind m k' w.
Proof.
  intros H. unfold bind. destruct (m w) as [[a| | |] w1]; try done. by apply H.
Qed.

Lemma event_loop_ignoring env lst wakefd wokefd timeout w e :
  (∀ reg, w_regs w !! e = Some reg → reg_pending reg = false) →
  scm_primitive_event_loop env lst wakefd wokefd timeout w
  = scm_primitive_event_loop (ignoring e env) lst wakefd wokefd timeout w.
Proof.
  intros Hnp. unfold scm_primitive_event_loop.
  apply bind_cong. intros c_wakefd w1 H1.
  assert (w1 = w) as Hw
    by (unfold scm_to_int in H1; destruct (in_signed 32 wakefd);
        by injection H1).
  clear H1. subst w1.
  apply bind_cong. intros c_wokefd w1 H2.
  assert (w1 = w) as Hw
    by (unfold scm_to_int in H2; destruct (in_signed 32 wokefd);
        by injection H2).
  clear H2. subst w1.
  apply bind_cong. intros c_timeout w1 H3.
  assert (w1 = w) as Hw
    by (unfold scm_to_int64 in H3; destruct (in_signed 64 timeout);
        by injection H3).
  clear H3. subst w1.
  cbv zeta. apply bind_cong. intros [] w1 H4.
  assert (w1 = w) as Hw
    by (destruct (h_data lst =? NULL)%N; by injection H4).
  clear H4. subst w1.
  unfold scm_c_prepare_to_wait_on_fd. cbn [prepare_interrupted ignoring].
  apply bind_cong. intros interrupted w1 H5.
  assert (w_regs w1 = w_regs w) as Hregs.
  { destruct (negb (c_timeout =? 0)); [|by injection H5 as _ <-].
    unfold bind, log, modify, ret in H5. by injection H5 as _ <-. }
  apply bind_ext.
  destruct (negb (c_timeout =? 0) && interrupted); [done|].
  apply bind_cong. intros l w2 H6.
  assert (w2 = w1) as Hw
    by (unfold load_libevt in H6; destruct (w_libevt w1 !! h_libevt lst);
        by injection H6).
  clear H6. subst w2.
  cbv zeta. apply bind_ext.
  destruct (negb (c_timeout =? 0)).
  - unfold scm_without_guile. apply bind_cong. intros [] w2 H7.
    assert (w_regs w2 = w_regs w1) as Hregs2
      by (unfold log, modify in H7; by injection H7 as <-).
    apply bind_ext. apply run_event_loop_ignoring. by rewrite Hregs2, Hregs.
  - apply run_event_loop_ignoring. by rewrite Hregs.
Qed.

(** X11. A watch that has been removed stays ignored.  In a world whose
    objects all lie below the next address of the allocator, after a
    [primitive-remove-event] that succeeds on a registration and then
    any calls of the six primitives, with whatever arguments and
    outcomes, an iteration ends with the result and in the world it
    would end with had the reactor not reported that registration: no
    primitive makes an existing registration pending again. *)
Theorem removed_watch_is_ignored env lst0 lst wakefd wokefd timeout w e ops :
  allocated_below w →
  is_Some (w_regs w !! e) →
  let w' := run_ops ops (scm_primitive_remove_event true lst0 e w).2 in
  scm_primitive_event_loop env lst wakefd wokefd timeout w'
  = scm_primitive_event_loop (ignoring e env) lst wakefd wokefd timeout w'.
Proof.
  intros Hbelow [reg Hreg]. cbv zeta.
  pose proof (run_op_allocated_below (Op_remove true lst0 e) w Hbelow) as Hb1.
  cbn [run_op] in Hb1. unfold exec in Hb1.
  rewrite (run_remove_event lst0 e w reg Hreg) in Hb1 |- *. cbn [snd] in *.
  set (w1 := set_regs _ w) in *.
  assert (Hret : retired e w1).
  { exists (set_pending false reg). split; [|done]. subst w1. cbn.
    apply lookup_insert_eq. }
  destruct (run_ops_retired e ops w1 Hb1 Hret) as (reg' & Hreg' & Hnp).
  apply event_loop_ignoring. rewrite Hreg'. by intros ? [= <-].
Qed.

Lemma removed_watch_is_ignored_witness :
  let env := ex_env [(4%N, EV_READ); (5%N, EV_READ)] in
  let ops := [Op_loop (ex_env [(4%N, EV_READ)]) ex_lst 6 3 0;
              Op_add true true ex_lst 4 EV_READ;
              Op_remove true ex_lst 4%N] in
  let w' := run_ops ops (scm_primitive_remove_event true ex_lst 4%N
                           ex_watching).2 in
  scm_primitive_event_loop env ex_lst 6 3 (-1) w'
  = scm_primitive_event_loop (ignoring 4%N env) ex_lst 6 3 (-1) w'.
Proof.
  apply (removed_watch_is_ignored (ex_env [(4%N, EV_READ); (5%N, EV_READ)])
           ex_lst ex_lst 6 3 (-1) ex_watching 4%N
           [Op_loop (ex_env [(4%N, EV_READ)]) ex_lst 6 3 0;
            Op_add true true ex_lst 4 EV_READ;
            Op_remove true ex_lst 4%N]).
  - apply (bool_decide_unpack _). vm_compute. reflexivity.
  - vm_compute. by eexists.
Defined.

Lemma event_loop_plain env lst wakefd wokefd timeout w l d buf :
  iteration_ready env lst wakefd wokefd timeout w l d buf →
  wd_rv d = 0 →
  let cbs := fired (le_base l) (w_regs w) (ready env) in
  Forall (λ c, c.1.1 ≠ wokefd) cbs →
  ∃ w',
    scm_primitive_event_loop env lst wakefd wokefd timeout w
      = (Ok (Z.of_nat (length cbs)), w') ∧
    w_bufs w' = <[wd_events d := deposits 0 (map record_of cbs) buf]> (w_bufs w) ∧
    w_regs w' = regs_after (le_base l) (w_regs w) (ready env) ∧
    w_fds w' = w_fds w.
Proof.
  intros Hready Hrv cbs Hnone.
  assert (Hc : collected d buf cbs = map record_of cbs)
    by (unfold collected; by rewrite Hrv).
  assert (Hfind : find_woke wokefd (collected d buf cbs) = None).
  { rewrite Hc. apply find_woke_None. apply Forall_map.
    eapply Forall_impl; [exact Hnone|]. by intros [[??]?]. }
  destruct (event_loop_outcome env lst wakefd wokefd timeout w l d buf Hready)
    as (w' & reads & Hrun & _ & Hbufs & Hregs & _ & _ & _ & Hquiet & _).
  { fold cbs. rewrite Hfind. by intros [? ?]. }
  fold cbs in Hrun, Hbufs, Hquiet.
  rewrite (remove_woke_None _ _ Hfind), Hc, length_map in Hrun.
  unfold result_buffer in Hbufs. rewrite Hfind, Hrv in Hbufs.
  exists w'. split; [done|]. split; [done|]. split; [done|].
  by destruct (Hquiet Hfind).
Qed.

(** X9. A burst that fits.  When the stored count is zero and the
    callbacks of an iteration fit the capacity, none of them on the woke
    descriptor, the iteration returns their number; the buffer then
    holds their (descriptor, conditions) records from slot zero on, in
    the order the reactor reported them, every slot after them is as it
    was, and no descriptor has been read. *)
Theorem event_loop_collects_all env lst wakefd wokefd timeout w l d buf :
  iteration_ready env lst wakefd wokefd timeout w l d buf →
  wd_rv d = 0 →
  let cbs := fired (le_base l) (w_regs w) (ready env) in
  Forall (λ c, c.1.1 ≠ wokefd) cbs →
  ∃ w' buf',
    scm_primitive_event_loop env lst wakefd wokefd timeout w
      = (Ok (Z.of_nat (length cbs)), w') ∧
    w_bufs w' = <[wd_events d := buf']> (w_bufs w) ∧
    length buf' = length buf ∧
    (∀ i c, cbs !! i = Some c →
            buf' !! i = Some (mk_event_data c.1.1 c.1.2)) ∧
    (∀ i, (length cbs ≤ i)%nat → buf' !! i = buf !! i) ∧
    w_fds w' = w_fds w.
Proof.
  intros Hready Hrv cbs Hnone.
  destruct (event_loop_plain env lst wakefd wokefd timeout w l d buf
              Hready Hrv Hnone) as (w' & Hrun & Hbufs & _ & Hfds).
  fold cbs in Hrun, Hbufs.
  exists w', (deposits 0 (map record_of cbs) buf).
  split; [done|]. split; [done|]. split; [apply length_deposits|].
  pose proof (ir_fit _ _ _ _ _ _ _ _ _ Hready) as Hfit.
  pose proof (ir_capacity _ _ _ _ _ _ _ _ _ Hready) as Hcap.
  fold cbs in Hfit. split; [|split; [|done]].
  - intros i c Hi.
    pose proof (lookup_deposits (map record_of cbs) 0 buf i) as Hlook.
    cbn [Nat.add] in Hlook. rewrite Hlook.
    + by rewrite list_lookup_fmap, Hi.
    + rewrite length_map. lia.
    + rewrite length_map. by apply lookup_lt_Some in Hi.
  - intros i Hi. apply lookup_deposits_ge. rewrite length_map. lia.
Qed.

Lemma event_loop_collects_all_witness :
  let env := ex_env [(5%N, EV_READ); (4%N, EV_READ)] in
  let cbs := fired (le_base ex_libevt) (w_regs ex_watching) (ready env) in
  ∃ w' buf',
    scm_primitive_event_loop env ex_lst 6 3 (-1) ex_watching
      = (Ok (Z.of_nat (length cbs)), w') ∧
    w_bufs w' = <[wd_events ex_data := buf']> (w_bufs ex_watching) ∧
    length buf' = length ex_buf ∧
    (∀ i c, cbs !! i = Some c →
            buf' !! i = Some (mk_event_data c.1.1 c.1.2)) ∧
    (∀ i, (length cbs ≤ i)%nat → buf' !! i = ex_buf !! i) ∧
    w_fds w' = w_fds ex_watching.
Proof.
  apply (event_loop_collects_all (ex_env [(5%N, EV_READ); (4%N, EV_READ)])
           ex_lst 6 3 (-1) ex_watching ex_libevt ex_data ex_buf).
  - constructor;
      first [reflexivity | by vm_compute
            | apply (bool_decide_unpack _); vm_compute; reflexivity].
  - reflexivity.
  - apply (bool_decide_unpack _). vm_compute. reflexivity.
Defined.

(** X10. From registration to report.  Take arguments in the range of
    their C types, a handle on live objects whose stored count is zero
    and whose capacity is an [int], at least one and within its buffer,
    and a descriptor other than the woke descriptor.  After a
    [primitive-add-event] that succeeds on that descriptor, an
    iteration that goes through its wait (no interrupt pending, the
    reactor's calls succeed) and for which the reactor reports the new
    registration alone, with conditions [what], returns one and has put
    the record of the watched descriptor and of [what] as a [short]
    (not of the mask asked for) in slot zero; the registration is
    pending afterwards exactly when the mask it was added with holds
    [EV_PERSIST]. *)
Theorem added_watch_is_reported
    env lst fd ev what wakefd wokefd timeout w l d buf :
  in_signed 32 fd = true → in_signed 16 ev = true →
  in_signed 32 wakefd = true → in_signed 32 wokefd = true →
  in_signed 64 timeout = true →
  h_data lst ≠ NULL →
  w_libevt w !! h_libevt lst = Some l → w_next w ≠ NULL →
  w_wait w !! h_data lst = Some d → w_bufs w !! wd_events d = Some buf →
  wd_rv d = 0 → 1 ≤ wd_maxevents d ≤ Z.of_nat (length buf) →
  wd_maxevents d ≤ INT_MAX →
  fd ≠ wokefd →
  ready env = [(w_next w, what)] → loop_ok env = true →
  (timeout ≠ 0 → prepare_interrupted env = false) →
  (0 ≤ timeout → loopexit_ok env = true ∧ scm_c_time_units_per_second w ≠ 0) →
  let added := scm_primitive_add_event true true lst fd ev w in
  added.1 = Ok (w_next w) ∧
  ∃ w' buf',
    scm_primitive_event_loop env lst wakefd wokefd timeout added.2
      = (Ok 1, w') ∧
    w_bufs w' !! wd_events d = Some buf' ∧
    buf' !! 0%nat = Some (mk_event_data fd (to_short what)) ∧
    reg_pending <$> (w_regs w' !! w_next w) = Some (Z.testbit ev 4).
Proof.
  intros Hfd Hev Hwake Hwoke Htime Hnn Hl Hnext Hd Hb Hrv Hcap Hmax Hne
         Hrs Hloop Hint Hexit. cbv zeta.
  rewrite (run_add_event lst fd ev w l Hfd Hev Hl Hnext). cbn [fst snd].
  split; [done|].
  set (reg := mk_registration (le_base l) fd ev Cb_func (h_data lst) true).
  set (w1 := set_regs _ (set_next _ w)).
  assert (Hfired : fired (le_base l) (w_regs w1) (ready env)
                   = [(fd, to_short what, h_data lst)]).
  { rewrite Hrs. subst w1. cbn [fired w_regs set_regs fst snd].
    rewrite lookup_insert_eq. cbn [reg reg_pending reg_base andb].
    by rewrite N.eqb_refl. }
  assert (Hafter : w_regs w1 !! w_next w = Some reg)
    by (subst w1; cbn [w_regs set_regs]; apply lookup_insert_eq).
  assert (Hregs : regs_after (le_base l) (w_regs w1) (ready env)
                  = disarm (w_regs w1) (w_next w) reg).
  { rewrite Hrs. cbn [regs_after fst]. rewrite Hafter.
    cbn [reg reg_pending reg_base andb]. by rewrite N.eqb_refl. }
  assert (Hready : iteration_ready env lst wakefd wokefd timeout w1 l d buf).
  { constructor; try done.
    - lia.
    - lia.
    - rewrite Hfired. by repeat constructor.
    - rewrite Hfired. cbn [length]. lia. }
  destruct (event_loop_plain env lst wakefd wokefd timeout w1 l d buf
              Hready Hrv) as (w' & Hrun & Hbufs & Hregs' & _).
  { rewrite Hfired. by repeat constructor. }
  rewrite Hfired in Hrun, Hbufs. cbn [length map deposits record_of fst snd]
    in Hrun, Hbufs.
  exists w', (<[0%nat := mk_event_data fd (to_short what)]> buf).
  split; [done|]. split; [by rewrite Hbufs, lookup_insert_eq|].
  split; [apply list_lookup_insert_eq; lia|].
  rewrite Hregs', Hregs. unfold disarm, reg_persistent. cbn [reg reg_events].
  destruct (Z.testbit ev 4).
  - by rewrite Hafter.
  - by rewrite lookup_insert_eq.
Qed.

Lemma added_watch_is_reported_witness :
  let env := ex_env [(w_next ex_created, Z.lor EV_READ EV_CLOSED)] in
  let added := scm_primitive_add_event true true ex_lst 5 EV_READ ex_created in
  added.1 = Ok (w_next ex_created) ∧
  ∃ w' buf',
    scm_primitive_event_loop env ex_lst 6 3 0 added.2 = (Ok 1, w') ∧
    w_bufs w' !! wd_events ex_data = Some buf' ∧
    buf' !! 0%nat
    = Some (mk_event_data 5 (to_short (Z.lor EV_READ EV_CLOSED))) ∧
    reg_pending <$> (w_regs w' !! w_next ex_created)
    = Some (Z.testbit EV_READ 4).
Proof.
  apply (added_watch_is_reported
           (ex_env [(w_next ex_created, Z.lor EV_READ EV_CLOSED)])
           ex_lst 5 EV_READ (Z.lor EV_READ EV_CLOSED) 6 3 0 ex_created
           ex_libevt ex_data ex_buf);
    first [reflexivity | by vm_compute].
Defined.

(** ** A woke descriptor that blocks *)

Lemma drain_loop_blocks fd room k : ∀ p w,
  N.to_nat (p `div` 32) = k →
  w_fds w !! fd = Some (FdOpen p room false) →
  (p `mod` 32)%N = 0%N →
  (drain_loop (S k) fd w).1 = Hang.
Proof.
  induction k as [|k IH]; intros p w Hk Hfd Hmod.
  - assert (p < 32)%N as Hlt.
    { apply N.div_small_iff; [done|]. apply N2Nat.inj. by rewrite Hk. }
    rewrite N.mod_small in Hmod by done. subst p.
    simpl. unfold bind, sys_read. by rewrite Hfd.
  - assert (32 ≤ p)%N as Hge.
    { destruct (N.lt_ge_cases p 32) as [Hlt|]; [|done].
      rewrite N.div_small in Hk by done. lia. }
    assert ((p - 32) `div` 32 = p `div` 32 - 1)%N as Hdiv.
    { replace p with ((p - 32) + 1 * 32)%N at 2 by lia.
      rewrite N.div_add by done. by rewrite N.add_sub. }
    assert ((p - 32) `mod` 32 = p `mod` 32)%N as Hmod'.
    { replace p with ((p - 32) + 1 * 32)%N at 2 by lia.
      by rewrite N.Div0.mod_add. }
    change (drain_loop (S (S k)) fd w) with
      (bind (sys_read fd 32)
            (λ n, if n =? 32 then drain_loop (S k) fd else ret tt) w).
    unfold bind, sys_read. rewrite Hfd.
    destruct (p =? 0)%N eqn:E; [apply N.eqb_eq in E; lia|].
    rewrite N.min_r by lia. change (Z.of_N 32 =? 32) with true. cbv beta iota.
    apply (IH (p - 32)%N).
    + lia.
    + simpl. apply lookup_insert_eq.
    + by rewrite Hmod'.
Qed.

Lemma drain_blocks fd p room w :
  w_fds w !! fd = Some (FdOpen p room false) → (p `mod` 32)%N = 0%N →
  (drain fd w).1 = Hang.
Proof.
  intros Hfd Hmod. unfold drain, bind, get, drain_fuel. rewrite Hfd.
  by apply (drain_loop_blocks fd room _ p).
Qed.

(** X13. A woke descriptor in blocking mode.  When a completed wait has
    collected a record on the woke descriptor and that descriptor is
    open in blocking mode with a whole number of 32-byte chunks pending
    (none included), the drain's last [read] finds nothing to read and
    blocks: the iteration does not return. *)
Theorem event_loop_blocks_in_drain
    env lst wakefd wokefd timeout w l d buf pending room :
  iteration_ready env lst wakefd wokefd timeout w l d buf →
  let cbs := fired (le_base l) (w_regs w) (ready env) in
  (∃ e, e ∈ collected d buf cbs ∧ ev_fd e = wokefd) →
  w_fds w !! wokefd = Some (FdOpen pending room false) →
  (pending `mod` 32)%N = 0%N →
  (scm_primitive_event_loop env lst wakefd wokefd timeout w).1 = Hang.
Proof.
  intros Hready cbs Hwoke Hfd Hmod.
  destruct (find_woke_is_Some _ _ Hwoke) as [j Hj].
  destruct Hready as [Hwake Hwokefd Htime Hnn Hl Hd Hb Hrv Hcap Hmax Hall Hfit
                      Hloop Hint Hexit].
  fold cbs in Hall, Hfit.
  pose proof (event_loop_run env lst wakefd wokefd timeout w l d buf) as Hrun.
  cbv zeta in Hrun. rewrite Hrun by done. clear Hrun. cbn [wd_rv].
  fold cbs. rewrite take_collected by lia. rewrite Hj.
  unfold bind.
  match goal with
  | |- context [drain wokefd ?w1] =>
      pose proof (drain_blocks wokefd pending room w1 Hfd Hmod) as Hblock;
      destruct (drain wokefd w1) as [r w2]
  end.
  simpl in Hblock. by subst r.
Qed.

Lemma event_loop_blocks_in_drain_witness :
  let w := set_fds (<[5 := FdOpen 64 10 false]> (w_fds ex_watching))
                   ex_watching in
  (scm_primitive_event_loop (ex_env [(5%N, EV_READ); (4%N, EV_READ)])
     ex_lst 6 5 (-1) w).1 = Hang.
Proof.
  apply (event_loop_blocks_in_drain
           (ex_env [(5%N, EV_READ); (4%N, EV_READ)]) ex_lst 6 5 (-1)
           (set_fds (<[5 := FdOpen 64 10 false]> (w_fds ex_watching))
                    ex_watching)
           ex_libevt ex_data ex_buf 64%N 10%N).
  - constructor;
      first [reflexivity | by vm_compute
            | apply (bool_decide_unpack _); vm_compute; reflexivity].
  - exists (mk_event_data 5 2). split; [|reflexivity].
    vm_compute. apply list_elem_of_In. right. left. reflexivity.
  - reflexivity.
  - reflexivity.
Defined.

(** ** The deadline in microseconds *)

(** X12. The deadline never exceeds the timeout.  Once
    [init_fibers_libevt] has run with [U] time units per second, the
    [timeval] computed for a timeout [T] that is not negative amounts to
    [D = tv_sec * 1000000 + tv_usec] microseconds, where: if a
    microsecond is [k] time units, [D] is [T] in microseconds rounded
    down and [tv_usec] is below one million; if a time unit is [k]
    microseconds, [D] is [T] in microseconds exactly; and if [U] lies
    strictly between one and two million, [tv_usec] is the remainder
    [T mod U] itself, which can reach a million or more. *)
Theorem deadline_rounds_down w T :
  0 < scm_c_time_units_per_second w < 2 ^ 63 →
  0 ≤ T < 2 ^ 63 →
  let w' := (init_fibers_libevt w).2 in
  let U := scm_c_time_units_per_second w in
  let D := tv_sec_of w' T * 1000000 + tv_usec_of w' T in
  (∀ k, 0 < k → U = k * 1000000 →
     0 ≤ tv_usec_of w' T < 1000000 ∧ D * k ≤ T < (D + 1) * k) ∧
  (∀ k, 0 < k → 1000000 = k * U →
     0 ≤ tv_usec_of w' T < 1000000 ∧ D = k * T) ∧
  (1000000 < U < 2000000 → tv_usec_of w' T = T `mod` U).
Proof.
  intros HU HT. cbv zeta.
  destruct (init_fibers_libevt_factors w) as (w' & Hrun & Hunits & Hinit & _);
    [lia|].
  rewrite Hrun. cbn [snd]. rewrite <- Hunits in HU |- *.
  set (U := scm_c_time_units_per_second w') in *.
  destruct (timeval_fields w' T HU Hinit HT) as [Hsec Husec].
  destruct (tv_usec_whole_microseconds w' T HU Hinit HT) as [Hmul Hdiv].
  fold U in Hsec, Husec, Hmul, Hdiv.
  pose proof (Z.div_mod T U ltac:(lia)) as Hdm.
  pose proof (Z.mod_pos_bound T U ltac:(lia)) as Hmod.
  split; [|split].
  - intros k Hk HkU. destruct (Hmul k Hk HkU) as [Hbounds Hrange].
    split; [done|]. rewrite Hsec. nia.
  - intros k Hk HkU. pose proof (Hdiv k Hk HkU) as Heq.
    split; [nia|]. rewrite Hsec, Heq. nia.
  - intros HUr. rewrite Husec.
    destruct (1000000 <? U) eqn:E; [|lia].
    replace (U `div` 1000000) with 1; [by rewrite Z.div_1_r|].
    apply Z.div_unique with (r := U - 1000000); lia.
Qed.

Lemma deadline_rounds_down_witness :
  let w' := (init_fibers_libevt ex_boot).2 in
  let U := scm_c_time_units_per_second ex_boot in
  let D := tv_sec_of w' 1500000001 * 1000000 + tv_usec_of w' 1500000001 in
  (∀ k, 0 < k → U = k * 1000000 →
     0 ≤ tv_usec_of w' 1500000001 < 1000000 ∧
     D * k ≤ 1500000001 < (D + 1) * k) ∧
  (∀ k, 0 < k → 1000000 = k * U →
     0 ≤ tv_usec_of w' 1500000001 < 1000000 ∧ D = k * 1500000001) ∧
  (1000000 < U < 2000000 →
   tv_usec_of w' 1500000001 = 1500000001 `mod` U).
Proof.
  apply (deadline_rounds_down ex_boot 1500000001).
  - vm_compute. split; reflexivity.
  - lia.
Defined.

(** ** The callback that does not fit *)

Lemma process_active_overflow_at base a rs : ∀ n w d buf,
  w_wait w !! a = Some d → w_bufs w !! wd_events d = Some buf →
  0 ≤ wd_rv d → wd_rv d + Z.of_nat n = wd_maxevents d →
  wd_maxevents d ≤ Z.of_nat (length buf) → wd_maxevents d ≤ INT_MAX →
  Forall (λ c, c.2 = a) (fired base (w_regs w) rs) →
  (n < length (fired base (w_regs w) rs))%nat →
  ∃ c w',
    fired base (w_regs w) rs !! n = Some c ∧
    process_active base rs w = (Throw (max_events_error c.1.1), w') ∧
    w_wait w' = <[a := mk_wait_data (wd_maxevents d) (wd_events d)
                                    (wd_maxevents d)]> (w_wait w) ∧
    w_bufs w' = <[wd_events d :=
                    deposits (Z.to_nat (wd_rv d))
                      (map record_of (take n (fired base (w_regs w) rs))) buf]>
                  (w_bufs w) ∧
    w_trace w' = w_trace w
                 ++ map callback_effect
                      (take (S n) (fired base (w_regs w) rs)).
Proof.
  induction rs as [|r rs IH];
    intros n w d buf Hd Hb Hrv Hn Hcap Hmax Hall Hlt.
  - simpl in Hlt. lia.
  - cbn [fired process_active] in *. unfold bind at 1.
    unfold activate, bind at 1, get.
    destruct (w_regs w !! r.1) as [reg|] eqn:Hreg; [|by apply IH].
    destruct (reg_pending reg && (reg_base reg =? base)%N) eqn:Hact;
      [|by apply IH].
    apply Forall_cons in Hall as [Ha Hall]. simpl in Ha.
    unfold bind at 1, modify. unfold bind at 1, log, modify.
    destruct (reg_cb reg). cbn [run_callback]. rewrite Ha.
    set (w1 := set_trace _ (set_regs _ w)).
    destruct n as [|n].
    + rewrite (cb_func_full _ _ a w1 d) by (done || lia).
      assert (Heq : wd_maxevents d = wd_rv d) by lia.
      eexists _, w1. split; [done|]. split; [done|]. cbn.
      split; [|split; [|done]].
      * symmetry. apply insert_id. rewrite Hd. f_equal.
        destruct d; simpl in *; congruence.
      * symmetry. by apply insert_id.
    + rewrite (cb_func_deposit _ _ a w1 d buf) by (done || lia).
      set (e := mk_event_data (reg_fd reg) (to_short r.2)).
      destruct (IH n
                   (set_wait (<[a := mk_wait_data (wd_rv d + 1) (wd_events d)
                                       (wd_maxevents d)]> (w_wait w1))
                      (set_bufs (<[wd_events d := <[Z.to_nat (wd_rv d) := e]> buf]>
                                   (w_bufs w1)) w1))
                   (mk_wait_data (wd_rv d + 1) (wd_events d) (wd_maxevents d))
                   (<[Z.to_nat (wd_rv d) := e]> buf))
        as (c & w' & Hc & Hrun & Hwait & Hbufs & Htrace).
      * simpl. apply lookup_insert_eq.
      * simpl. apply lookup_insert_eq.
      * simpl. lia.
      * simpl. lia.
      * simpl. rewrite length_insert. lia.
      * done.
      * done.
      * simpl in *. lia.
      * exists c, w'. cbn in *. split; [done|]. split; [done|].
        split; [by rewrite Hwait, insert_insert_eq|].
        split.
        -- rewrite Hbufs, insert_insert_eq.
           by replace (Z.to_nat (wd_rv d + 1)) with (S (Z.to_nat (wd_rv d)))
             by lia.
        -- rewrite Htrace, <- app_assoc. done.
Qed.

Lemma run_event_loop_overflow_at env base timeout a n w d buf :
  w_wait w !! a = Some d → w_bufs w !! wd_events d = Some buf →
  0 ≤ wd_rv d → wd_rv d + Z.of_nat n = wd_maxevents d →
  wd_maxevents d ≤ Z.of_nat (length buf) → wd_maxevents d ≤ INT_MAX →
  Forall (λ c, c.2 = a) (fired base (w_regs w) (ready env)) →
  (n < length (fired base (w_regs w) (ready env)))%nat →
  loop_ok env = true →
  (0 ≤ timeout → loopexit_ok env = true ∧ scm_c_time_units_per_second w ≠ 0) →
  ∃ c w',
    fired base (w_regs w) (ready env) !! n = Some c ∧
    run_event_loop env (mk_loop_data base timeout) w
      = (Throw (max_events_error c.1.1), w') ∧
    w_wait w' = <[a := mk_wait_data (wd_maxevents d) (wd_events d)
                                    (wd_maxevents d)]> (w_wait w) ∧
    w_bufs w' = <[wd_events d :=
                    deposits (Z.to_nat (wd_rv d))
                      (map record_of
                         (take n (fired base (w_regs w) (ready env)))) buf]>
                  (w_bufs w) ∧
    w_trace w' = w_trace w
                 ++ (if 0 <=? timeout
                     then [E_loopexit base (tv_sec_of w timeout)
                                      (tv_usec_of w timeout)]
                     else [])
                 ++ [E_loop base]
                 ++ map callback_effect
                      (take (S n) (fired base (w_regs w) (ready env))).
Proof.
  intros Hd Hb Hrv Hn Hcap Hmax Hall Hlt Hloop Hexit.
  unfold run_event_loop. cbn [ld_timeout ld_base].
  set (pre := if 0 <=? timeout
              then [E_loopexit base (tv_sec_of w timeout)
                               (tv_usec_of w timeout)]
              else []).
  assert (Hpre :
    (if 0 <=? timeout then
       bind get (λ w, if scm_c_time_units_per_second w =? 0 then fault
         else bind (event_base_loopexit env base (tv_sec_of w timeout)
                                        (tv_usec_of w timeout))
                (λ ret_, if ret_ =? -1 then
                   SCM_MISC_ERROR "primitive-event-loop"
                                  "event loop exit failed" []
                 else ret tt))
     else ret tt) w
    = (Ok tt, set_trace (w_trace w ++ pre) w)).
  { unfold pre. destruct (0 <=? timeout) eqn:E.
    - destruct Hexit as [Hexit Hunits]; [lia|].
      unfold bind at 1, get.
      destruct (scm_c_time_units_per_second w =? 0) eqn:E0; [lia|].
      unfold event_base_loopexit, bind, log, modify, ret. rewrite Hexit.
      done.
    - unfold ret. f_equal. rewrite app_nil_r. by destruct w. }
  rewrite (bind_ok _ _ _ _ _ Hpre). clear Hpre.
  unfold event_base_loop, bind at 1. unfold bind at 1, log, modify.
  rewrite Hloop. unfold bind at 1.
  set (w0 := set_trace _ (set_trace _ w)).
  destruct (process_active_overflow_at base a (ready env) n w0 d buf)
    as (c & w' & Hc & Hrun & Hwait & Hbufs & Htrace); try done.
  rewrite Hrun. exists c, w'. split; [done|]. split; [done|].
  split; [done|]. split; [done|]. rewrite Htrace. subst w0. cbn.
  fold pre. by rewrite <- !app_assoc.
Qed.

(** X14. The callback that does not fit.  When more callbacks fire in
    an iteration than the [room] left between the stored count and the
    capacity, the first [room] of them deposit their records, the next
    one raises the "max events fired" error, which carries its
    descriptor, and the iteration ends there: the count is left at the
    capacity and the callbacks after that one are not run. *)
Theorem event_loop_overflow_at env lst wakefd wokefd timeout w l d buf :
  in_signed 32 wakefd = true → in_signed 32 wokefd = true →
  in_signed 64 timeout = true →
  h_data lst ≠ NULL →
  w_libevt w !! h_libevt lst = Some l →
  w_wait w !! h_data lst = Some d → w_bufs w !! wd_events d = Some buf →
  0 ≤ wd_rv d ≤ wd_maxevents d →
  wd_maxevents d ≤ Z.of_nat (length buf) → wd_maxevents d ≤ INT_MAX →
  let cbs := fired (le_base l) (w_regs w) (ready env) in
  let room := Z.to_nat (wd_maxevents d - wd_rv d) in
  Forall (λ c, c.2 = h_data lst) cbs →
  (room < length cbs)%nat →
  loop_ok env = true →
  (timeout ≠ 0 → prepare_interrupted env = false) →
  (0 ≤ timeout → loopexit_ok env = true ∧ scm_c_time_units_per_second w ≠ 0) →
  ∃ c w',
    cbs !! room = Some c ∧
    scm_primitive_event_loop env lst wakefd wokefd timeout w
      = (Throw (max_events_error c.1.1), w') ∧
    w_wait w' = <[h_data lst := mk_wait_data (wd_maxevents d) (wd_events d)
                                             (wd_maxevents d)]> (w_wait w) ∧
    w_bufs w' = <[wd_events d :=
                    deposits (Z.to_nat (wd_rv d))
                             (map record_of (take room cbs)) buf]> (w_bufs w) ∧
    w_trace w' = w_trace w ++ wait_prologue w wakefd (le_base l) timeout
                 ++ map callback_effect (take (S room) cbs).
Proof.
  intros Hwake Hwoke Htime Hnn Hl Hd Hb Hrv Hcap Hmax cbs room Hall Hfit
         Hloop Hint Hexit.
  unfold scm_primitive_event_loop, scm_to_int, scm_to_int64.
  rewrite Hwake, Hwoke, Htime.
  unfold bind at 1, ret at 1. unfold bind at 1, ret at 1.
  unfold bind at 1, ret at 1.
  destruct (h_data lst =? NULL)%N eqn:En; [apply N.eqb_eq in En; done|].
  unfold bind at 1, ret at 1.
  destruct (timeout =? 0) eqn:E0; cbn [negb andb].
  - unfold bind at 1, ret at 1. unfold bind at 1. unfold bind at 1, load_libevt.
    rewrite Hl. unfold bind at 1.
    destruct (run_event_loop_overflow_at env (le_base l) timeout (h_data lst)
                room w d buf) as (c & w' & Hc & Hrun & Hwait & Hbufs & Htrace);
      try done; try lia.
    rewrite Hrun. exists c, w'. split; [done|]. split; [done|].
    split; [done|]. split; [done|]. rewrite Htrace. unfold wait_prologue.
    rewrite E0. cbn [app]. by rewrite <- !app_assoc.
  - unfold bind at 1, scm_c_prepare_to_wait_on_fd. unfold bind at 1, log, modify.
    unfold ret at 1. rewrite Hint by (apply Z.eqb_neq in E0; done).
    unfold bind at 1. unfold bind at 1, load_libevt. cbn [w_libevt set_trace].
    rewrite Hl. unfold bind at 1, scm_without_guile.
    unfold bind at 1. unfold bind at 1, log, modify. unfold bind at 1.
    set (w0 := set_trace _ (set_trace _ w)).
    destruct (run_event_loop_overflow_at env (le_base l) timeout (h_data lst)
                room w0 d buf) as (c & w' & Hc & Hrun & Hwait & Hbufs & Htrace);
      try done; try lia.
    rewrite Hrun. exists c, w'. split; [done|]. split; [done|].
    split; [done|]. split; [done|]. rewrite Htrace. unfold wait_prologue.
    rewrite E0. subst w0. cbn [w_trace set_trace tv_sec_of tv_usec_of].
    rewrite <- !app_assoc. done.
Qed.

Lemma event_loop_overflow_at_witness :
  let env := ex_env [(4%N, EV_READ); (5%N, EV_READ); (6%N, EV_READ)] in
  let d := mk_wait_data 0 200%N 2 in
  let buf := replicate 2 (mk_event_data 0 0) in
  let cbs := fired (le_base ex_libevt) (w_regs ex_small_watching) (ready env) in
  let room := Z.to_nat (wd_maxevents d - wd_rv d) in
  ∃ c w',
    cbs !! room = Some c ∧
    scm_primitive_event_loop env ex_lst 6 5 0 ex_small_watching
      = (Throw (max_events_error c.1.1), w') ∧
    w_wait w' = <[h_data ex_lst := mk_wait_data (wd_maxevents d) (wd_events d)
                                                (wd_maxevents d)]>
                  (w_wait ex_small_watching) ∧
    w_bufs w' = <[wd_events d :=
                    deposits (Z.to_nat (wd_rv d))
                             (map record_of (take room cbs)) buf]>
                  (w_bufs ex_small_watching) ∧
    w_trace w' = w_trace ex_small_watching
                 ++ wait_prologue ex_small_watching 6 (le_base ex_libevt) 0
                 ++ map callback_effect (take (S room) cbs).
Proof.
  apply (event_loop_overflow_at
           (ex_env [(4%N, EV_READ); (5%N, EV_READ); (6%N, EV_READ)])
           ex_lst 6 5 0 ex_small_watching ex_libevt
           (mk_wait_data 0 200%N 2) (replicate 2 (mk_event_data 0 0)));
    first [reflexivity | by vm_compute
          | apply (bool_decide_unpack _); vm_compute; reflexivity
          | vm_compute; lia ].
Defined.

(** ** Capacity, dangling pointers, initialisation *)

(** X15. The capacity counts whole records only.  For a bytevector of
    [n] bytes the capacity recorded by [primitive-create-event-base] and
    [primitive-resize] is an [int] whose records never take more than
    [n] bytes; when the quotient of [n] by the record size fits an
    [int] it is that quotient, not negative, with less than one record
    left over; a bytevector shorter than one record has capacity zero. *)
Theorem capacity_within_bytevector eventsv :
  0 ≤ bv_length eventsv →
  capacity_of eventsv ≤ INT_MAX ∧
  sizeof_event_data * capacity_of eventsv ≤ bv_length eventsv ∧
  (bv_length eventsv `div` sizeof_event_data ≤ INT_MAX →
   0 ≤ capacity_of eventsv ∧
   bv_length eventsv < sizeof_event_data * (capacity_of eventsv + 1)) ∧
  (bv_length eventsv < sizeof_event_data → capacity_of eventsv = 0).
Proof.
  intros Hlen. unfold capacity_of, sizeof_event_data.
  set (q := bv_length eventsv `div` 8).
  assert (Hq : 0 ≤ q) by (apply Z.div_pos; lia).
  pose proof (Z.div_mod (bv_length eventsv) 8 ltac:(lia)) as Hdm.
  pose proof (Z.mod_pos_bound (bv_length eventsv) 8 ltac:(lia)) as Hmod.
  fold q in Hdm.
  pose proof (to_int_le q Hq) as Hle. pose proof (to_int_max q) as Hmax.
  split; [done|]. split; [lia|]. split.
  - intros Hfit. rewrite to_int_id by (unfold INT_MAX in *; lia). lia.
  - intros Hshort. assert (q = 0) as -> by (apply Z.div_small; lia).
    reflexivity.
Qed.

Lemma capacity_within_bytevector_witness :
  capacity_of ex_eventsv ≤ INT_MAX ∧
  sizeof_event_data * capacity_of ex_eventsv ≤ bv_length ex_eventsv ∧
  (bv_length ex_eventsv `div` sizeof_event_data ≤ INT_MAX →
   0 ≤ capacity_of ex_eventsv ∧
   bv_length ex_eventsv < sizeof_event_data * (capacity_of ex_eventsv + 1)) ∧
  (bv_length ex_eventsv < sizeof_event_data → capacity_of ex_eventsv = 0).
Proof.
  apply (capacity_within_bytevector ex_eventsv). vm_compute. discriminate.
Defined.

(** X16. Pointers the primitives do not check.  [primitive-resize]
    dereferences the [wait_data] pointer of its handle,
    [primitive-add-event] the [libevt_data] pointer and
    [primitive-remove-event] the registration it is given, and so does
    [primitive-event-loop] with the [libevt_data] pointer once its entry
    checks have passed and no interrupt is pending: with a pointer that
    is not to a live object each of them makes an invalid access. *)
Theorem dangling_pointers_fault :
  (∀ lst eventsv w,
     w_wait w !! h_data lst = None →
     (scm_primitive_resize lst eventsv w).1 = Fault) ∧
  (∀ event_new_ok event_add_ok lst fd ev w,
     in_signed 32 fd = true → in_signed 16 ev = true →
     w_libevt w !! h_libevt lst = None →
     (scm_primitive_add_event event_new_ok event_add_ok lst fd ev w).1
     = Fault) ∧
  (∀ event_del_ok lst e w,
     w_regs w !! e = None →
     (scm_primitive_remove_event event_del_ok lst e w).1 = Fault) ∧
  (∀ env lst wakefd wokefd timeout w,
     argument_error lst wakefd wokefd timeout = None →
     (timeout ≠ 0 → prepare_interrupted env = false) →
     w_libevt w !! h_libevt lst = None →
     (scm_primitive_event_loop env lst wakefd wokefd timeout w).1 = Fault).
Proof.
  split; [|split; [|split]].
  - intros lst eventsv w Hd.
    unfold scm_primitive_resize, assign_events, bind, load_wait. by rewrite Hd.
  - intros event_new_ok event_add_ok lst fd ev w Hfd Hev Hl.
    unfold scm_primitive_add_event, scm_to_int, scm_to_short.
    rewrite Hfd, Hev. unfold bind, ret, load_libevt. by rewrite Hl.
  - intros event_del_ok lst e w He.
    unfold scm_primitive_remove_event, bind, event_del. by rewrite He.
  - intros env lst wakefd wokefd timeout w Hargs Hint Hl.
    unfold argument_error in Hargs.
    destruct (in_signed 32 wakefd) eqn:Hwake; [|done].
    destruct (in_signed 32 wokefd) eqn:Hwoke; [|done].
    destruct (in_signed 64 timeout) eqn:Htime; [|done].
    destruct (h_data lst =? NULL)%N eqn:En; [done|]. cbn [negb] in Hargs.
    unfold scm_primitive_event_loop, scm_to_int, scm_to_int64.
    rewrite Hwake, Hwoke, Htime.
    unfold bind at 1, ret at 1. unfold bind at 1, ret at 1.
    unfold bind at 1, ret at 1. rewrite En. unfold bind at 1, ret at 1.
    destruct (timeout =? 0) eqn:E0; cbn [negb andb].
    + unfold bind at 1, ret at 1. unfold bind at 1. unfold bind at 1, load_libevt.
      by rewrite Hl.
    + unfold bind at 1, scm_c_prepare_to_wait_on_fd.
      unfold bind at 1, log, modify. unfold ret at 1.
      rewrite Hint by (apply Z.eqb_neq in E0; done).
      unfold bind at 1. unfold bind at 1, load_libevt. cbn [w_libevt set_trace].
      by rewrite Hl.
Qed.

Lemma dangling_pointers_fault_witness :
  (scm_primitive_resize (mk_handle 2%N NULL) ex_smaller ex_watching).1 = Fault.
Proof.
  apply (proj1 dangling_pointers_fault (mk_handle 2%N NULL) ex_smaller
           ex_watching).
  vm_compute. reflexivity.
Defined.

Lemma run_define_all l : ∀ w,
  define_all l w = (Ok tt, set_defs (defs_after l (w_defs w)) w).
Proof.
  induction l as [|[name v] l IH]; intros w.
  - unfold defs_after. simpl. unfold ret. f_equal. by destruct w.
  - cbn [define_all]. unfold bind, scm_c_define, modify. rewrite IH.
    unfold defs_after. cbn. done.
Qed.

Lemma defs_after_union l : ∀ defs,
  defs_after l defs = list_to_map (reverse l) ∪ defs.
Proof.
  unfold defs_after. induction l as [|[name v] l IH]; intros defs.
  - cbn. by rewrite (left_id_L ∅ (∪)).
  - cbn [foldl fst snd]. rewrite IH, reverse_cons, list_to_map_app.
    cbn [list_to_map foldr fst snd uncurry].
    rewrite <- (assoc_L (∪)). f_equal.
    rewrite insert_empty. by rewrite <- insert_union_singleton_l.
Qed.

(** X17. [init_fibers_libevt] with a clock rate [U] that is not zero
    returns.  It leaves the clock rate, sets the two conversion factors
    to the quotients [U / 1000000] and [1000000 / U] as [uint64_t],
    binds each of the nine constants it exports with [scm_c_define] to
    its value, and leaves the heap, the descriptors and the trace as
    they were. *)
Theorem init_fibers_libevt_binds_constants w :
  scm_c_time_units_per_second w ≠ 0 →
  let out := init_fibers_libevt w in
  out.1 = Ok tt ∧
  scm_c_time_units_per_second out.2 = scm_c_time_units_per_second w ∧
  factors_initialised out.2 ∧
  (w_wait out.2 = w_wait w ∧ w_libevt out.2 = w_libevt w ∧
   w_bufs out.2 = w_bufs w ∧ w_regs out.2 = w_regs w ∧
   w_fds out.2 = w_fds w ∧ w_trace out.2 = w_trace w) ∧
  (∀ name v, (name, v) ∈ exported_constants →
             w_defs out.2 !! name = Some v).
Proof.
  intros HU. cbv zeta.
  assert (Hinit : init_fibers_libevt w =
            (Ok tt,
             set_defs (defs_after exported_constants (w_defs w))
               (set_factors
                  (to_uint64 (scm_c_time_units_per_second w `quot` 1000000))
                  (to_uint64 (1000000 `quot` scm_c_time_units_per_second w))
                  w))).
  { unfold init_fibers_libevt, bind at 1, get.
    destruct (scm_c_time_units_per_second w =? 0) eqn:E; [lia|].
    unfold bind, modify. by rewrite run_define_all. }
  rewrite Hinit. cbn [fst snd]. split; [done|]. split; [done|].
  split; [done|]. split; [done|].
  cbn [w_defs set_defs set_factors]. rewrite defs_after_union.
  intros name v Hin. apply lookup_union_Some_l.
  apply elem_of_list_to_map_1.
  - apply (bool_decide_unpack _). vm_compute. reflexivity.
  - by apply elem_of_reverse.
Qed.

Lemma init_fibers_libevt_binds_constants_witness :
  let out := init_fibers_libevt ex_boot in
  out.1 = Ok tt ∧
  scm_c_time_units_per_second out.2 = scm_c_time_units_per_second ex_boot ∧
  factors_initialised out.2 ∧
  (w_wait out.2 = w_wait ex_boot ∧ w_libevt out.2 = w_libevt ex_boot ∧
   w_bufs out.2 = w_bufs ex_boot ∧ w_regs out.2 = w_regs ex_boot ∧
   w_fds out.2 = w_fds ex_boot ∧ w_trace out.2 = w_trace ex_boot) ∧
  (∀ name v, (name, v) ∈ exported_constants →
             w_defs out.2 !! name = Some v).
Proof.
  apply (init_fibers_libevt_binds_constants ex_boot). vm_compute. discriminate.
Defined.

(** ** Watches that are not persistent *)



